(** * recoil-jotai-guard: the dependency-resolution and impact core

    A shallow embedding of the static-analysis pipeline
    (usage collection, identifier resolution, dependency-graph
    construction, impact analysis and setter-binding resolution) and the
    properties its specification states about it.

    Conventions of the embedding:
    - the parser's output is a tree of plain objects; it is embedded as
      the untyped value type [json] and probed by field name, exactly as
      the TypeScript code probes it;
    - the tree walker is a pre-order traversal that calls [enter] on a
      node, visits its children in field order and then calls [leave];
    - [Map<string, V>] is [gmap string V], [Set<string>] used for
      membership only is [gset string], a [Set<string>] that is iterated
      is an insertion-ordered list;
    - mutable accumulators (the [usages] array, the [visited] set, the
      wrapper cache) are threaded explicitly;
    - loops and recursions whose termination is not structural take a
      [fuel] argument and return an [outcome]; sufficiency of the fuel
      is proved separately;
    - the file system, the parser and Node's [path] library are
      parameters. *)

From stdpp Require Import base option list gmap sets strings pretty sorting.

Set Warnings "-register-all,-clear-no-such-hyp".
Open Scope string_scope.
Open Scope list_scope.
Open Scope nat_scope.

(** ** Outcome of a fuelled computation *)

Inductive outcome (A : Type) : Type :=
| Done (a : A)
| OutOfFuel.
Arguments Done {A} a.
Arguments OutOfFuel {A}.

#[global] Instance outcome_ret : MRet outcome := λ A a, Done a.
#[global] Instance outcome_bind : MBind outcome := λ A B f m,
  match m with
  | Done a => f a
  | OutOfFuel => OutOfFuel
  end.

(** ** The parser's trees *)

Inductive json : Type :=
| JNull
| JBool (b : bool)
| JNum (n : nat)
| JStr (s : string)
| JArr (items : list json)
| JObj (fields : list (string * json)).

Fixpoint assoc (key : string) (fields : list (string * json)) : json :=
  match fields with
  | [] => JNull
  | (k, v) :: rest => if String.eqb k key then v else assoc key rest
  end.

(** [node.key]; an absent field and a field of a non-object read as
    [JNull] (JavaScript's [undefined] under optional chaining). *)
Definition field (key : string) (node : json) : json :=
  match node with
  | JObj fields => assoc key fields
  | _ => JNull
  end.

Definition strField (key : string) (node : json) : option string :=
  match field key node with
  | JStr s => Some s
  | _ => None
  end.

Definition numField (key : string) (node : json) : nat :=
  match field key node with
  | JNum n => n
  | _ => 0
  end.

Definition boolField (key : string) (node : json) : bool :=
  match field key node with
  | JBool b => b
  | _ => false
  end.

Definition arrField (key : string) (node : json) : option (list json) :=
  match field key node with
  | JArr items => Some items
  | _ => None
  end.

(** [node.type === ty] *)
Definition hasType (ty : string) (node : json) : bool :=
  bool_decide (strField "type" node = Some ty).

(** JavaScript truthiness of a string that may be [undefined]. *)
Definition truthy (s : option string) : bool :=
  match s with
  | Some s => negb (String.eqb s EmptyString)
  | None => false
  end.

Definition isNode (v : json) : bool :=
  match v with
  | JObj _ => bool_decide (is_Some (strField "type" v))
  | _ => false
  end.

(** *** The tree walker

    [events n] is the sequence of callbacks a walk of [n] makes. *)

Inductive event : Type :=
| Enter (node : json)
| Leave (node : json).

Fixpoint events (node : json) : list event :=
  match node with
  | JObj fields =>
    if isNode node then
      Enter node ::
      (fix children (fields : list (string * json)) : list event :=
         match fields with
         | [] => []
         | (_, v) :: rest =>
           match v with
           | JObj _ => events v
           | JArr items =>
             (fix elements (items : list json) : list event :=
                match items with
                | [] => []
                | item :: items' =>
                  match item with
                  | JObj _ => events item
                  | _ => []
                  end ++ elements items'
                end) items
           | _ => []
           end ++ children rest
         end) fields ++ [Leave node]
    else []
  | _ => []
  end.

Definition walk {S : Type} (enter leave : json → S → S) (node : json) (s : S) : S :=
  foldl (λ s ev, match ev with
                 | Enter n => enter n s
                 | Leave n => leave n s
                 end) s (events node).

Definition noLeave {S : Type} (node : json) (s : S) : S := s.

(** ** Data model (types.ts) *)

Inductive StateKind := KAtom | KSelector | KAtomFamily | KSelectorFamily.
Inductive UsageType := Reader | Setter | Initializer.
Inductive WriterKind := Runtime | Fallback.

#[global] Instance StateKind_eq_dec : EqDecision StateKind.
Proof. solve_decision. Defined.
#[global] Instance UsageType_eq_dec : EqDecision UsageType.
Proof. solve_decision. Defined.
#[global] Instance WriterKind_eq_dec : EqDecision WriterKind.
Proof. solve_decision. Defined.

Record RecoilDefinition := mkDefinition {
  def_name : string;
  def_kind : StateKind;
  def_file : string;
  def_line : nat;
  def_getBodyAst : option json;
  def_inlineDefaultGetBody : option json;
}.

Record Usage := mkUsage {
  u_atomName : string;
  u_localName : string;
  u_type : UsageType;
  u_hook : string;
  u_file : string;
  u_line : nat;
  u_enclosingDefinition : option string;
}.

Record ExtractionResult := mkExtraction {
  recoilDefinitions : list RecoilDefinition;
}.

(** [ResolvedUsage = Usage & {resolvedName, definitionFile, writerKind?}] *)
Record ResolvedUsage := mkResolved {
  ru_usage : Usage;
  ru_resolvedName : string;
  ru_definitionFile : string;
  ru_writerKind : option WriterKind;
}.

Record DependencyGraph := mkGraph {
  dependentSelectors : gmap string (list string);
  componentUsages : gmap string (list ResolvedUsage);
  definitions : gmap string RecoilDefinition;
}.

Record ViaDefinition := mkVia {
  via_file : string;
  via_line : nat;
  via_kind : StateKind;
}.

Record TransitiveDependency := mkTransitive {
  t_via : string;
  t_viaDefinition : ViaDefinition;
  t_depth : nat;
  t_readers : list ResolvedUsage;
  t_setters : list ResolvedUsage;
}.

Record ImpactSummary := mkSummary {
  totalFiles : nat;
  totalComponents : nat;
  totalSelectors : nat;
}.

Record ImpactTarget := mkTarget {
  target_name : string;
  target_kind : StateKind;
  target_file : string;
  target_line : nat;
}.

Record DirectImpact := mkDirect {
  readers : list ResolvedUsage;
  setters : list ResolvedUsage;
  initializers : list ResolvedUsage;
}.

Record ImpactResult := mkImpact {
  target : ImpactTarget;
  direct : DirectImpact;
  transitive : list TransitiveDependency;
  summary : ImpactSummary;
}.

Inductive HookWriteBindingKind := BindSetter | BindTuple.

Record HookWriteBinding := mkBinding {
  b_kind : HookWriteBindingKind;
  b_stateId : string;
}.

Record RuntimeWriteCallsite := mkCallsite {
  c_atomName : string;
  c_file : string;
  c_line : nat;
  c_calleeName : string;
}.

Record CoverageOptions := mkCoverage {
  runtimeCallsites : list RuntimeWriteCallsite;
  resolvedFactoryKeys : gset string;
}.

(** The template string [`${file}:${line}`]. *)
Definition fileLineKey (file : string) (line : nat) : string :=
  file +:+ ":" +:+ pretty line.

(** The template string [`${file}:${name}`]. *)
Definition fileNameKey (file name : string) : string :=
  file +:+ ":" +:+ name.

Definition usageType (u : ResolvedUsage) : UsageType := u_type (ru_usage u).

(** ** Dependency graph builder (graph.ts) *)

(** [Set.prototype.add] on an insertion-ordered set. *)
Definition setAdd (x : string) (s : list string) : list string :=
  if decide (x ∈ s) then s else s ++ [x].

(** The [for (const def of extraction.recoilDefinitions)] loop. *)
Definition indexDefinitions (defs : list RecoilDefinition) : gmap string RecoilDefinition :=
  foldl (λ m def, <[def_name def := def]> m) ∅ defs.

(** The body of the [for (const usage of resolvedUsages)] loop. *)
Definition partitionUsage
    (acc : gmap string (list string) * gmap string (list ResolvedUsage))
    (usage : ResolvedUsage)
    : gmap string (list string) * gmap string (list ResolvedUsage) :=
  let '(dependents, components) := acc in
  if bool_decide (u_hook (ru_usage usage) = "get(selector)")
     && truthy (u_enclosingDefinition (ru_usage usage))
  then
    let enclosing := default EmptyString (u_enclosingDefinition (ru_usage usage)) in
    let current := default [] (dependents !! ru_resolvedName usage) in
    (<[ru_resolvedName usage := setAdd enclosing current]> dependents, components)
  else
    let current := default [] (components !! ru_resolvedName usage) in
    (dependents, <[ru_resolvedName usage := current ++ [usage]]> components).

Definition buildDependencyGraph
    (extraction : ExtractionResult) (resolvedUsages : list ResolvedUsage)
    : DependencyGraph :=
  let definitions := indexDefinitions (recoilDefinitions extraction) in
  let '(dependents, components) := foldl partitionUsage (∅, ∅) resolvedUsages in
  {| definitions := definitions;
     dependentSelectors := dependents;
     componentUsages := components |}.

(** ** Impact engine (impact.ts) *)

(** Maximum BFS depth for transitive selector chain traversal. *)
Definition maxDepth : nat := 5.

Record QueueEntry := mkEntry {
  q_selectorName : string;
  q_depth : nat;
}.

Definition runtimeUsage (definition : RecoilDefinition) (c : RuntimeWriteCallsite)
    : ResolvedUsage :=
  {| ru_usage := {| u_atomName := c_atomName c;
                    u_localName := c_calleeName c;
                    u_type := Setter;
                    u_hook := "setter call";
                    u_file := c_file c;
                    u_line := c_line c;
                    u_enclosingDefinition := None |};
     ru_resolvedName := c_atomName c;
     ru_definitionFile := def_file definition;
     ru_writerKind := Some Runtime |}.

Definition markFallback (f : ResolvedUsage) : ResolvedUsage :=
  {| ru_usage := ru_usage f;
     ru_resolvedName := ru_resolvedName f;
     ru_definitionFile := ru_definitionFile f;
     ru_writerKind := Some Fallback |}.

Definition factoryKey (f : ResolvedUsage) : string :=
  fileLineKey (u_file (ru_usage f)) (u_line (ru_usage f)).

(** The coverage merge of [analyzeAtomImpact] (the [if (coverageOptions)]
    statement). *)
Definition mergeSetters
    (definition : RecoilDefinition) (atomName : string)
    (factorySetters : list ResolvedUsage)
    (coverageOptions : option CoverageOptions) : list ResolvedUsage :=
  match coverageOptions with
  | Some options =>
    let runtimeForAtom :=
      filter (λ c, c_atomName c = atomName) (runtimeCallsites options) in
    let runtimeUsages := map (runtimeUsage definition) runtimeForAtom in
    let fallbackSetters :=
      map markFallback
          (filter (λ f, factoryKey f ∉ resolvedFactoryKeys options) factorySetters) in
    runtimeUsages ++ fallbackSetters
  | None => factorySetters
  end.

(** The record pushed on [transitive] for a visited selector. *)
Definition transitiveEntry (graph : DependencyGraph) (selectorName : string) (depth : nat)
    : TransitiveDependency :=
  let selectorUsages := default [] (componentUsages graph !! selectorName) in
  {| t_via := selectorName;
     t_viaDefinition :=
       match definitions graph !! selectorName with
       | Some selectorDefinition =>
         {| via_file := def_file selectorDefinition;
            via_line := def_line selectorDefinition;
            via_kind := def_kind selectorDefinition |}
       | None => {| via_file := EmptyString; via_line := 0; via_kind := KSelector |}
       end;
     t_depth := depth;
     t_readers := filter (λ u, usageType u = Reader) selectorUsages;
     t_setters := filter (λ u, usageType u = Setter) selectorUsages |}.

Definition dependentsOf (graph : DependencyGraph) (name : string) : list string :=
  default [] (dependentSelectors graph !! name).

(** The [while (queue.length > 0)] loop; one unit of fuel per iteration. *)
Fixpoint bfsLoop (fuel : nat) (graph : DependencyGraph)
    (queue : list QueueEntry) (visited : gset string)
    (transitive : list TransitiveDependency)
    : outcome (list TransitiveDependency) :=
  match queue with
  | [] => Done transitive
  | entry :: rest =>
    match fuel with
    | 0 => OutOfFuel
    | S fuel' =>
      let selectorName := q_selectorName entry in
      let depth := q_depth entry in
      if decide (maxDepth < depth) then
        bfsLoop fuel' graph rest visited transitive
      else if decide (selectorName ∈ visited) then
        bfsLoop fuel' graph rest visited transitive
      else
        let visited' := {[selectorName]} ∪ visited in
        let nextSelectors := dependentsOf graph selectorName in
        let pushed :=
          map (λ nextSelector, mkEntry nextSelector (depth + 1))
              (filter (λ nextSelector, nextSelector ∉ visited') nextSelectors) in
        bfsLoop fuel' graph (rest ++ pushed) visited'
                (transitive ++ [transitiveEntry graph selectorName depth])
    end
  end.

(** The queue seeded with the direct dependent selectors, at depth 1. *)
Definition seedQueue (graph : DependencyGraph) (atomName : string) : list QueueEntry :=
  map (λ selectorName, mkEntry selectorName 1) (dependentsOf graph atomName).

Definition usageFiles (usages : list ResolvedUsage) : gset string :=
  list_to_set (map (λ u, u_file (ru_usage u)) usages).

Definition transitiveUsageFiles (transitive : list TransitiveDependency) : gset string :=
  ⋃ (map (λ dep, usageFiles (t_readers dep ++ t_setters dep)) transitive).

Definition transitiveDefinitionFiles (transitive : list TransitiveDependency) : gset string :=
  list_to_set
    (filter (λ f, f ≠ EmptyString) (map (λ dep, via_file (t_viaDefinition dep)) transitive)).

(** The summary: files of all usages and of the transitive definitions. *)
Definition computeSummary
    (readers setters initializers : list ResolvedUsage)
    (transitive : list TransitiveDependency) : ImpactSummary :=
  let componentFiles :=
    usageFiles (readers ++ setters ++ initializers) ∪ transitiveUsageFiles transitive in
  let allFiles := componentFiles ∪ transitiveDefinitionFiles transitive in
  {| totalFiles := size allFiles;
     totalComponents := size componentFiles;
     totalSelectors := length transitive |}.

Definition analyzeAtomImpact (fuel : nat) (graph : DependencyGraph) (atomName : string)
    (coverageOptions : option CoverageOptions) : outcome (option ImpactResult) :=
  match definitions graph !! atomName with
  | None => Done None
  | Some definition =>
    let directUsages := default [] (componentUsages graph !! atomName) in
    let readers := filter (λ u, usageType u = Reader) directUsages in
    let factorySetters := filter (λ u, usageType u = Setter) directUsages in
    let initializers := filter (λ u, usageType u = Initializer) directUsages in
    let setters := mergeSetters definition atomName factorySetters coverageOptions in
    transitive ← bfsLoop fuel graph (seedQueue graph atomName) ∅ [];
    Done (Some
      {| target := {| target_name := def_name definition;
                      target_kind := def_kind definition;
                      target_file := def_file definition;
                      target_line := def_line definition |};
         direct := {| readers := readers;
                      setters := setters;
                      initializers := initializers |};
         transitive := transitive;
         summary := computeSummary readers setters initializers transitive |})
  end.

Section FileImpact.
(** [path.resolve] depends on the working directory of the process. *)
Context (pathResolve : string → string).

(** The [for (const definition of definitions)] loop of [analyzeFileImpact]. *)
Fixpoint analyzeDefinitions (fuel : nat) (graph : DependencyGraph)
    (defs : list RecoilDefinition) (coverageOptions : option CoverageOptions)
    (results : list ImpactResult) : outcome (list ImpactResult) :=
  match defs with
  | [] => Done results
  | definition :: rest =>
    result ← analyzeAtomImpact fuel graph (def_name definition) coverageOptions;
    analyzeDefinitions fuel graph rest coverageOptions
      (match result with
       | Some r => results ++ [r]
       | None => results
       end)
  end.

Definition analyzeFileImpact (fuel : nat) (graph : DependencyGraph) (filePath : string)
    (extraction : ExtractionResult) (coverageOptions : option CoverageOptions)
    : outcome (list ImpactResult) :=
  let resolvedPath := pathResolve filePath in
  let defs := filter (λ d, def_file d = resolvedPath) (recoilDefinitions extraction) in
  analyzeDefinitions fuel graph defs coverageOptions [].

Fixpoint analyzeGitImpact (fuel : nat) (graph : DependencyGraph)
    (changedFiles : list string) (extraction : ExtractionResult)
    (coverageOptions : option CoverageOptions) : outcome (list ImpactResult) :=
  match changedFiles with
  | [] => Done []
  | filePath :: rest =>
    here ← analyzeFileImpact fuel graph filePath extraction coverageOptions;
    more ← analyzeGitImpact fuel graph rest extraction coverageOptions;
    Done (here ++ more)
  end.
End FileImpact.

(** *** Fuel that suffices for the traversal *)

(** [cost graph k name]: iterations spent on a queue entry for [name]
    that has [k] levels left before the depth cap, were nothing ever
    found visited. *)
Fixpoint cost (graph : DependencyGraph) (k : nat) (name : string) : nat :=
  match k with
  | 0 => 1
  | S k' => 1 + sum_list_with (cost graph k') (dependentsOf graph name)
  end.

Definition entryCost (graph : DependencyGraph) (entry : QueueEntry) : nat :=
  cost graph (maxDepth + 1 - q_depth entry) (q_selectorName entry).

Definition queueCost (graph : DependencyGraph) (queue : list QueueEntry) : nat :=
  sum_list_with (entryCost graph) queue.

Definition bfsBound (graph : DependencyGraph) (atomName : string) : nat :=
  queueCost graph (seedQueue graph atomName).

(** ** Usage collector (collect-usages.ts) *)

Fixpoint offsetToLineFrom (source : string) (offset line : nat) : nat :=
  match offset, source with
  | S offset', String c rest =>
    offsetToLineFrom rest offset'
      (if Ascii.eqb c (Ascii.ascii_of_nat 10) then line + 1 else line)
  | _, _ => line
  end.

Definition offsetToLine (source : string) (offset : nat) : nat :=
  offsetToLineFrom source offset 1.

(** [callNode.arguments?.[0]] *)
Definition firstArgument (callNode : json) : json :=
  match arrField "arguments" callNode with
  | Some (argument :: _) => argument
  | _ => JNull
  end.

Definition extractAtomName (argument : json) : option string :=
  if hasType "Identifier" argument then strField "name" argument
  else if hasType "CallExpression" argument
          && hasType "Identifier" (field "callee" argument)
  then strField "name" (field "callee" argument)
  else None.

Definition asciiLower (c : Ascii.ascii) : Ascii.ascii :=
  let n := Ascii.nat_of_ascii c in
  if Nat.leb 65 n && Nat.leb n 90 then Ascii.ascii_of_nat (n + 32) else c.

Fixpoint lowerCase (s : string) : string :=
  match s with
  | EmptyString => EmptyString
  | String c rest => String (asciiLower c) (lowerCase rest)
  end.

(** [/^initialize/i.test(name)] *)
Definition startsWithInitialize (name : string) : bool :=
  String.prefix "initialize" (lowerCase name).

Definition namedInitialize (idNode : json) : bool :=
  hasType "Identifier" idNode
  && match strField "name" idNode with
     | Some name => startsWithInitialize name
     | None => false
     end.

Definition isInitializerAncestor (ancestor : json) : bool :=
  (hasType "FunctionDeclaration" ancestor && namedInitialize (field "id" ancestor))
  || (hasType "VariableDeclarator" ancestor && namedInitialize (field "id" ancestor))
  || (hasType "FunctionExpression" ancestor && namedInitialize (field "id" ancestor))
  || (hasType "JSXAttribute" ancestor
      && hasType "JSXIdentifier" (field "name" ancestor)
      && bool_decide (strField "name" (field "name" ancestor) = Some "initializeState")).

Definition isInsideInitializer (ancestors : list json) : bool :=
  existsb isInitializerAncestor ancestors.

Record CallbackContext := mkContext {
  setAlias : option string;
  resetAlias : option string;
  getPromiseAlias : option string;
  snapshotAlias : option string;
}.

(** [property.shorthand ? property.key.name : property.value.name] *)
Definition boundAlias (property : json) : option string :=
  if boolField "shorthand" property
  then strField "name" (field "key" property)
  else strField "name" (field "value" property).

(** The body of the inner [for (const inner of innerProperties)] loop. *)
Definition parseInnerProperty (context : CallbackContext) (inner : json) : CallbackContext :=
  if hasType "Property" inner
     && bool_decide (strField "name" (field "key" inner) = Some "getPromise")
  then {| setAlias := setAlias context;
          resetAlias := resetAlias context;
          getPromiseAlias := boundAlias inner;
          snapshotAlias := snapshotAlias context |}
  else context.

(** The body of the [for (const property of properties)] loop. *)
Definition parseProperty (context : CallbackContext) (property : json) : CallbackContext :=
  if negb (hasType "Property" property) then context
  else
    let keyName := strField "name" (field "key" property) in
    if negb (truthy keyName) then context
    else if bool_decide (keyName = Some "set") && hasType "Identifier" (field "value" property)
    then {| setAlias := boundAlias property;
            resetAlias := resetAlias context;
            getPromiseAlias := getPromiseAlias context;
            snapshotAlias := snapshotAlias context |}
    else if bool_decide (keyName = Some "reset") && hasType "Identifier" (field "value" property)
    then {| setAlias := setAlias context;
            resetAlias := boundAlias property;
            getPromiseAlias := getPromiseAlias context;
            snapshotAlias := snapshotAlias context |}
    else if bool_decide (keyName = Some "snapshot")
    then
      if hasType "ObjectPattern" (field "value" property)
      then match arrField "properties" (field "value" property) with
           | Some innerProperties => foldl parseInnerProperty context innerProperties
           | None => context
           end
      else if hasType "Identifier" (field "value" property)
      then {| setAlias := setAlias context;
              resetAlias := resetAlias context;
              getPromiseAlias := getPromiseAlias context;
              snapshotAlias := boundAlias property |}
      else context
    else context.

Definition emptyContext : CallbackContext :=
  {| setAlias := None; resetAlias := None; getPromiseAlias := None; snapshotAlias := None |}.

Definition parseCallbackParameter (parameter : json) : CallbackContext :=
  if negb (hasType "ObjectPattern" parameter) then emptyContext
  else match arrField "properties" parameter with
       | None => emptyContext
       | Some properties => foldl parseProperty emptyContext properties
       end.

(** A usage without [enclosingDefinition], as every hook-pass site builds it. *)
Definition plainUsage (atomName : string) (type : UsageType) (hook filePath : string)
    (line : nat) : Usage :=
  {| u_atomName := atomName; u_localName := atomName; u_type := type; u_hook := hook;
     u_file := filePath; u_line := line; u_enclosingDefinition := None |}.

(** [const atomName = extractAtomName(...); if (atomName) usages.push(...)] *)
Definition pushIfNamed (atomName : option string) (mk : string → list Usage)
    (usages : list Usage) : list Usage :=
  match atomName with
  | Some name => if truthy atomName then usages ++ mk name else usages
  | None => usages
  end.

(** [context.alias && callee?.type === 'Identifier' && callee.name === context.alias] *)
Definition calleeIsAlias (alias : option string) (callee : json) : bool :=
  truthy alias && hasType "Identifier" callee && bool_decide (strField "name" callee = alias).

(** The [enter] callback of [walkCallbackBody]: four independent tests, each
    of which may push a usage. *)
Definition callbackEnter (context : CallbackContext) (filePath source : string)
    (ancestors : list json) (node : json) (usages : list Usage) : list Usage :=
  if negb (hasType "CallExpression" node) then usages
  else
    let callee := field "callee" node in
    let line := offsetToLine source (numField "start" node) in
    let atomName := extractAtomName (firstArgument node) in
    let usages1 :=
      if calleeIsAlias (setAlias context) callee
      then pushIfNamed atomName
             (λ name, [plainUsage name
                         (if isInsideInitializer ancestors then Initializer else Setter)
                         "set(callback)" filePath line]) usages
      else usages in
    let usages2 :=
      if calleeIsAlias (resetAlias context) callee
      then pushIfNamed atomName
             (λ name, [plainUsage name Setter "reset(callback)" filePath line]) usages1
      else usages1 in
    let usages3 :=
      if calleeIsAlias (getPromiseAlias context) callee
      then pushIfNamed atomName
             (λ name, [plainUsage name Reader "getPromise(callback)" filePath line]) usages2
      else usages2 in
    if truthy (snapshotAlias context)
       && hasType "MemberExpression" callee
       && hasType "Identifier" (field "object" callee)
       && bool_decide (strField "name" (field "object" callee) = snapshotAlias context)
       && hasType "Identifier" (field "property" callee)
       && bool_decide (strField "name" (field "property" callee) = Some "getPromise")
    then pushIfNamed atomName
           (λ name, [plainUsage name Reader "getPromise(callback)" filePath line]) usages3
    else usages3.

Definition walkCallbackBody (bodyNode : json) (context : CallbackContext)
    (filePath source : string) (usages : list Usage) (ancestors : list json) : list Usage :=
  walk (callbackEnter context filePath source ancestors) noLeave bodyNode usages.

(** The [enter] callback of [walkSelectorGetBody]. *)
Definition selectorGetEnter (filePath source definitionName : string)
    (node : json) (usages : list Usage) : list Usage :=
  if negb (hasType "CallExpression" node) then usages
  else
    let callee := field "callee" node in
    if hasType "Identifier" callee && bool_decide (strField "name" callee = Some "get")
    then pushIfNamed (extractAtomName (firstArgument node))
           (λ name, [{| u_atomName := name; u_localName := name; u_type := Reader;
                        u_hook := "get(selector)"; u_file := filePath;
                        u_line := offsetToLine source (numField "start" node);
                        u_enclosingDefinition := Some definitionName |}]) usages
    else usages.

Definition walkSelectorGetBody (bodyNode : json) (filePath source : string)
    (usages : list Usage) (definitionName : string) : list Usage :=
  walk (selectorGetEnter filePath source definitionName) noLeave bodyNode usages.

(** All Recoil hooks we care about. *)
Definition allRecoilHooks : list string :=
  ["useRecoilValue"; "useSetRecoilState"; "useResetRecoilState"; "useRecoilState";
   "useRecoilCallback"].

(** The mutable locals of [collectFromFile], and the shared [usages] array. *)
Record CollectState := mkCollect {
  hookAliases : gmap string string;
  ancestors : list json;
  functionNameStack : list (option string);
  usages : list Usage;
}.

Definition withUsages (st : CollectState) (usages' : list Usage) : CollectState :=
  {| hookAliases := hookAliases st; ancestors := ancestors st;
     functionNameStack := functionNameStack st; usages := usages' |}.

(** The body of the [for (const spec of specifiers)] loop shared by the
    import scanners: register [local -> imported] when [imported] is one of
    [hooks]. *)
Definition addHookAlias (hooks : list string) (aliases : gmap string string) (spec : json)
    : gmap string string :=
  if negb (hasType "ImportSpecifier" spec)
     || bool_decide (strField "importKind" spec = Some "type")
  then aliases
  else
    let imported := strField "name" (field "imported" spec) in
    let local := strField "name" (field "local" spec) in
    match imported, local with
    | Some importedName, Some localName =>
      if truthy imported && truthy local && bool_decide (importedName ∈ hooks)
      then <[localName := importedName]> aliases
      else aliases
    | _, _ => aliases
    end.

(** The [ImportDeclaration] case: hook aliases imported from ['recoil']. *)
Definition importAliases (hooks : list string) (node : json) (aliases : gmap string string)
    : gmap string string :=
  if negb (bool_decide (strField "value" (field "source" node) = Some "recoil"))
     || bool_decide (strField "importKind" node = Some "type")
  then aliases
  else match arrField "specifiers" node with
       | None => aliases
       | Some specifiers => foldl (addHookAlias hooks) aliases specifiers
       end.

(** The hook-call cases of [enter], once the callee resolved to [hookName]. *)
Definition hookCallUsages (filePath source : string) (hookName : string)
    (callNode : json) (ancestors : list json) (usages : list Usage) : list Usage :=
  let line := offsetToLine source (numField "start" callNode) in
  let atomName := extractAtomName (firstArgument callNode) in
  if bool_decide (hookName = "useRecoilValue") then
    pushIfNamed atomName
      (λ name, [plainUsage name Reader "useRecoilValue" filePath line]) usages
  else if bool_decide (hookName = "useSetRecoilState") then
    pushIfNamed atomName
      (λ name, [plainUsage name Setter "useSetRecoilState" filePath line]) usages
  else if bool_decide (hookName = "useResetRecoilState") then
    pushIfNamed atomName
      (λ name, [plainUsage name Setter "useResetRecoilState" filePath line]) usages
  else if bool_decide (hookName = "useRecoilState") then
    pushIfNamed atomName
      (λ name, [plainUsage name Reader "useRecoilState" filePath line;
                plainUsage name Setter "useRecoilState" filePath line]) usages
  else if bool_decide (hookName = "useRecoilCallback") then
    let callbackFunction := firstArgument callNode in
    if negb (hasType "ArrowFunctionExpression" callbackFunction)
       && negb (hasType "FunctionExpression" callbackFunction)
    then usages
    else match arrField "params" callbackFunction with
         | None | Some [] => usages
         | Some (parameter :: _) =>
           let context := parseCallbackParameter parameter in
           let body := field "body" callbackFunction in
           match body with
           | JObj _ => walkCallbackBody body context filePath source usages ancestors
           | _ => usages
           end
         end
  else usages.

Definition isNamedFunctionDeclaration (node : json) : bool :=
  hasType "FunctionDeclaration" node && hasType "Identifier" (field "id" node).

(** The [enter] callback of [collectFromFile]. *)
Definition collectEnter (filePath source : string) (node : json) (st : CollectState)
    : CollectState :=
  let ancestors' := ancestors st ++ [node] in
  let stack' :=
    if isNamedFunctionDeclaration node
    then functionNameStack st ++ [strField "name" (field "id" node)]
    else functionNameStack st in
  let st' := {| hookAliases := hookAliases st; ancestors := ancestors';
                functionNameStack := stack'; usages := usages st |} in
  if hasType "ImportDeclaration" node then
    {| hookAliases := importAliases allRecoilHooks node (hookAliases st);
       ancestors := ancestors'; functionNameStack := stack'; usages := usages st |}
  else if negb (hasType "CallExpression" node) then st'
  else
    let callee := field "callee" node in
    if negb (hasType "Identifier" callee) then st'
    else
      let calleeName := strField "name" callee in
      let currentFunction := default None (last stack') in
      if bool_decide (calleeName = Some "set")
         && negb (bool_decide (stack' = []))
         && truthy currentFunction
         && startsWithInitialize (default EmptyString currentFunction)
      then
        withUsages st'
          (pushIfNamed (extractAtomName (firstArgument node))
             (λ name, [plainUsage name Initializer "set(initializer)" filePath
                         (offsetToLine source (numField "start" node))])
             (usages st))
      else
        match calleeName ≫= λ name, hookAliases st !! name with
        | None => st'
        | Some hookName =>
          if negb (truthy (Some hookName)) then st'
          else withUsages st' (hookCallUsages filePath source hookName node ancestors' (usages st))
        end.

(** The [leave] callback of [collectFromFile]. *)
Definition collectLeave (node : json) (st : CollectState) : CollectState :=
  {| hookAliases := hookAliases st;
     ancestors := removelast (ancestors st);
     functionNameStack :=
       if isNamedFunctionDeclaration node
       then removelast (functionNameStack st)
       else functionNameStack st;
     usages := usages st |}.

Section Collector.
(** [fs.readFileSync(path, 'utf8')]: [None] when the read throws. *)
Context (readFile : string → option string).
(** [parseSync(filePath, source, ...)]: [None] when the parser throws. *)
Context (parseSync : string → string → option json).

Definition collectFromFile (filePath source : string) (collected : list Usage)
    : list Usage :=
  match parseSync filePath source with
  | None => collected
  | Some ast =>
    let state0 := {| hookAliases := ∅; ancestors := []; functionNameStack := [];
                     usages := collected |} in
    usages (walk (collectEnter filePath source) collectLeave (field "program" ast) state0)
  end.

(** The source cache is cleared on entry to [collectUsages] and only
    memoises successful reads, so a lookup returns what the read does. *)
Definition readFileSource (filePath : string) : option string := readFile filePath.

Definition isSelectorKind (k : StateKind) : bool :=
  bool_decide (k = KSelector) || bool_decide (k = KSelectorFamily).
Definition isAtomKind (k : StateKind) : bool :=
  bool_decide (k = KAtom) || bool_decide (k = KAtomFamily).

(** The body of the [for (const def of extraction.recoilDefinitions)] loop. *)
Definition collectFromDefinition (usages : list Usage) (def : RecoilDefinition)
    : list Usage :=
  match readFileSource (def_file def) with
  | None => usages
  | Some source =>
    if negb (truthy (Some source)) then usages
    else
      let usages1 :=
        match def_getBodyAst def with
        | Some body =>
          if isSelectorKind (def_kind def)
          then walkSelectorGetBody body (def_file def) source usages (def_name def)
          else usages
        | None => usages
        end in
      match def_inlineDefaultGetBody def with
      | Some body =>
        if isAtomKind (def_kind def)
        then walkSelectorGetBody body (def_file def) source usages1 (def_name def)
        else usages1
      | None => usages1
      end
  end.

Definition collectFromSelectorBodies (extraction : ExtractionResult)
    (usages : list Usage) : list Usage :=
  foldl collectFromDefinition usages (recoilDefinitions extraction).

(** The body of the [for (const filePath of files)] loop of [collectUsages]. *)
Definition collectFileUsages (usages : list Usage) (filePath : string) : list Usage :=
  match readFileSource filePath with
  | None => usages
  | Some source =>
    if negb (truthy (Some source)) then usages
    else collectFromFile filePath source usages
  end.

Definition collectUsages (files : list string) (extraction : ExtractionResult)
    : list Usage :=
  collectFromSelectorBodies extraction (foldl collectFileUsages [] files).
End Collector.

(** ** Identifier resolver (resolve.ts) *)

(** Maximum depth for following import/re-export chains. *)
Definition maxChainDepth : nat := 5.

Record ImportRecord := mkImport {
  i_localName : string;
  i_exportedName : string;
  i_sourceFile : string;
}.

(** [export { X as Y } from './source'] and [export * from './source']. *)
Inductive ReExportRecord :=
| NamedReExport (localName exportedName sourceFile : string)
| StarReExport (sourceFile : string).

Record FileInfo := mkFileInfo {
  imports : list ImportRecord;
  reExports : list ReExportRecord;
  localExports : gset string;
}.

Record Resolution := mkResolution {
  resolvedName : string;
  definitionFile : string;
}.

Definition noFileInfo : FileInfo :=
  {| imports := []; reExports := []; localExports := ∅ |}.

(** The specifier loop of an [ImportDeclaration]. *)
Definition addImport (resolvedSource : string) (acc : list ImportRecord) (spec : json)
    : list ImportRecord :=
  if negb (hasType "ImportSpecifier" spec)
     || bool_decide (strField "importKind" spec = Some "type")
  then acc
  else
    let imported := strField "name" (field "imported" spec) in
    let local := strField "name" (field "local" spec) in
    match imported, local with
    | Some importedName, Some localName =>
      if truthy imported && truthy local
      then acc ++ [{| i_localName := localName; i_exportedName := importedName;
                      i_sourceFile := resolvedSource |}]
      else acc
    | _, _ => acc
    end.

(** The specifier loop of an [ExportNamedDeclaration] with a source. *)
Definition addNamedReExport (resolvedSource : string) (acc : list ReExportRecord)
    (spec : json) : list ReExportRecord :=
  let exported := strField "name" (field "exported" spec) in
  let local := strField "name" (field "local" spec) in
  match exported, local with
  | Some exportedName, Some localName =>
    if truthy exported && truthy local
    then acc ++ [NamedReExport exportedName localName resolvedSource]
    else acc
  | _, _ => acc
  end.

Definition addLocalExportSpecifier (acc : gset string) (spec : json) : gset string :=
  match strField "name" (field "exported" spec) with
  | Some exported => if truthy (Some exported) then {[exported]} ∪ acc else acc
  | None => acc
  end.

Definition addDeclaredName (acc : gset string) (decl : json) : gset string :=
  if hasType "Identifier" (field "id" decl)
  then match strField "name" (field "id" decl) with
       | Some name => {[name]} ∪ acc
       | None => acc
       end
  else acc.

Definition addLocalDeclaration (declaration : json) (acc : gset string) : gset string :=
  match declaration with
  | JObj _ =>
    if hasType "VariableDeclaration" declaration
    then match arrField "declarations" declaration with
         | Some declarations => foldl addDeclaredName acc declarations
         | None => acc
         end
    else if hasType "FunctionDeclaration" declaration
    then addDeclaredName acc declaration
    else acc
  | _ => acc
  end.

Section Resolver.
Context (readFile : string → option string).
Context (parseSync : string → string → option json).
(** [resolveModulePath(specifier, fromFile)]: the module specifier
    resolved against the file system ([path] and [fs] of Node). *)
Context (resolveModulePath : string → string → option string).

(** The [enter] callback of [parseFileImports]. *)
Definition importsEnter (filePath : string) (node : json) (info : FileInfo) : FileInfo :=
  if hasType "ImportDeclaration" node then
    let importSource := strField "value" (field "source" node) in
    if negb (truthy importSource)
       || bool_decide (strField "importKind" node = Some "type")
    then info
    else match resolveModulePath (default EmptyString importSource) filePath with
         | None => info
         | Some resolvedSource =>
           if negb (truthy (Some resolvedSource)) then info
           else match arrField "specifiers" node with
                | None => info
                | Some specifiers =>
                  {| imports := foldl (addImport resolvedSource) (imports info) specifiers;
                     reExports := reExports info;
                     localExports := localExports info |}
                end
         end
  else if hasType "ExportNamedDeclaration" node then
    let exportSource := strField "value" (field "source" node) in
    if truthy exportSource then
      match resolveModulePath (default EmptyString exportSource) filePath with
      | None => info
      | Some resolvedSource =>
        if negb (truthy (Some resolvedSource)) then info
        else match arrField "specifiers" node with
             | None => info
             | Some specifiers =>
               {| imports := imports info;
                  reExports :=
                    foldl (addNamedReExport resolvedSource) (reExports info) specifiers;
                  localExports := localExports info |}
             end
      end
    else
      let exported :=
        match arrField "specifiers" node with
        | Some specifiers => foldl addLocalExportSpecifier (localExports info) specifiers
        | None => localExports info
        end in
      {| imports := imports info;
         reExports := reExports info;
         localExports := addLocalDeclaration (field "declaration" node) exported |}
  else if hasType "ExportAllDeclaration" node then
    let exportSource := strField "value" (field "source" node) in
    if truthy exportSource then
      match resolveModulePath (default EmptyString exportSource) filePath with
      | None => info
      | Some resolvedSource =>
        if negb (truthy (Some resolvedSource)) then info
        else {| imports := imports info;
                reExports := reExports info ++ [StarReExport resolvedSource];
                localExports := localExports info |}
      end
    else info
  else info.

Definition parseFileImports (filePath source : string) : FileInfo :=
  match parseSync filePath source with
  | None => noFileInfo
  | Some ast => walk (importsEnter filePath) noLeave (field "program" ast) noFileInfo
  end.

Definition buildFileGraph (files : list string) : gmap string FileInfo :=
  foldl (λ graph filePath,
           match readFile filePath with
           | None => graph
           | Some source => <[filePath := parseFileImports filePath source]> graph
           end) ∅ files.
End Resolver.

Definition buildDefinitionLookup (extraction : ExtractionResult)
    : gmap string (gmap string string) :=
  foldl (λ lookup def,
           <[def_file def :=
               <[def_name def := def_name def]> (default ∅ (lookup !! def_file def))]> lookup)
        ∅ (recoilDefinitions extraction).

(** [fileDefs?.has(name)] followed by [fileDefs.get(name)!]. *)
Definition lookupDefinition (definitionLookup : gmap string (gmap string string))
    (file name : string) : option string :=
  definitionLookup !! file ≫= λ fileDefs, fileDefs !! name.

Definition isNamedFor (name : string) (reExport : ReExportRecord) : bool :=
  match reExport with
  | NamedReExport localName _ _ => bool_decide (localName = name)
  | StarReExport _ => false
  end.

(** [resolveExportedName]; the [visited] set is shared by reference among
    all recursive calls of one resolution, so it is returned with the
    result.  One unit of fuel per call. *)
Fixpoint resolveExportedName (fuel : nat)
    (file name : string)
    (graph : gmap string FileInfo)
    (definitionLookup : gmap string (gmap string string))
    (depth : nat) (visited : gset string)
    : outcome (option Resolution * gset string) :=
  match fuel with
  | 0 => OutOfFuel
  | S fuel' =>
    if decide (maxChainDepth < depth) then Done (None, visited)
    else
      let visitKey := fileNameKey file name in
      if decide (visitKey ∈ visited) then Done (None, visited)
      else
        let visited1 := {[visitKey]} ∪ visited in
        match lookupDefinition definitionLookup file name with
        | Some resolved =>
          Done (Some {| resolvedName := resolved; definitionFile := file |}, visited1)
        | None =>
          match graph !! file with
          | None => Done (None, visited1)
          | Some fileInfo =>
            match List.find (isNamedFor name) (reExports fileInfo) with
            | Some (NamedReExport _ exportedName sourceFile) =>
              resolveExportedName fuel' sourceFile exportedName graph definitionLookup
                                  (depth + 1) visited1
            | _ =>
              (fix stars (pending : list ReExportRecord) (visited2 : gset string)
                 : outcome (option Resolution * gset string) :=
                 match pending with
                 | StarReExport sourceFile :: pending' =>
                   '(result, visited3) ←
                     resolveExportedName fuel' sourceFile name graph definitionLookup
                                         (depth + 1) visited2;
                   match result with
                   | Some _ => Done (result, visited3)
                   | None => stars pending' visited3
                   end
                 | NamedReExport _ _ _ :: pending' => stars pending' visited2
                 | [] =>
                   match List.find (λ importRecord,
                                      bool_decide (i_localName importRecord = name))
                                   (imports fileInfo) with
                   | Some importRecord =>
                     resolveExportedName fuel' (i_sourceFile importRecord)
                                         (i_exportedName importRecord)
                                         graph definitionLookup (depth + 1) visited2
                   | None => Done (None, visited2)
                   end
                 end) (reExports fileInfo) visited1
            end
          end
        end
  end.

Definition withResolution (usage : Usage) (resolved definitionFile : string)
    : ResolvedUsage :=
  {| ru_usage := usage; ru_resolvedName := resolved;
     ru_definitionFile := definitionFile; ru_writerKind := None |}.

(** One iteration of the [for (const usage of usages.usages)] loop. *)
Definition resolveUsage (fuel : nat)
    (graph : gmap string FileInfo)
    (definitionLookup : gmap string (gmap string string))
    (resolved : list ResolvedUsage) (usage : Usage) : outcome (list ResolvedUsage) :=
  match lookupDefinition definitionLookup (u_file usage) (u_localName usage) with
  | Some localDefinition =>
    Done (resolved ++ [withResolution usage localDefinition (u_file usage)])
  | None =>
    match graph !! u_file usage with
    | None => Done resolved
    | Some fileInfo =>
      match List.find (λ importRecord,
                         bool_decide (i_localName importRecord = u_localName usage))
                      (imports fileInfo) with
      | None => Done resolved
      | Some importRecord =>
        '(result, _) ←
          resolveExportedName fuel (i_sourceFile importRecord)
                              (i_exportedName importRecord)
                              graph definitionLookup 1 ∅;
        match result with
        | Some r =>
          Done (resolved ++ [withResolution usage (resolvedName r) (definitionFile r)])
        | None => Done resolved
        end
      end
    end
  end.

(** The [for (const usage of usages.usages)] loop of [resolveUsages]. *)
Fixpoint resolveAll (fuel : nat)
    (graph : gmap string FileInfo)
    (definitionLookup : gmap string (gmap string string))
    (resolved : list ResolvedUsage) (pending : list Usage)
    : outcome (list ResolvedUsage) :=
  match pending with
  | [] => Done resolved
  | usage :: pending' =>
    resolved' ← resolveUsage fuel graph definitionLookup resolved usage;
    resolveAll fuel graph definitionLookup resolved' pending'
  end.

Section ResolveUsages.
Context (readFile : string → option string).
Context (parseSync : string → string → option json).
Context (resolveModulePath : string → string → option string).

Definition resolveUsages (fuel : nat) (files : list string)
    (extraction : ExtractionResult) (usages : list Usage)
    : outcome (list ResolvedUsage) :=
  let graph := buildFileGraph readFile parseSync resolveModulePath files in
  let definitionLookup := buildDefinitionLookup extraction in
  resolveAll fuel graph definitionLookup [] usages.
End ResolveUsages.

(** ** Writer-binding resolver (setter-bindings.ts) *)

(** Recoil hooks that produce setter-only bindings. *)
Definition setterHookNames : list string := ["useSetRecoilState"; "useResetRecoilState"].
(** Recoil hooks that produce tuple (reader + setter) bindings. *)
Definition tupleHookNames : list string := ["useRecoilState"].
(** All setter-related Recoil hooks. *)
Definition allSetterHooks : list string := setterHookNames ++ tupleHookNames.

Definition getRecoilHookAliases (ast : json) : gmap string string :=
  walk (λ node aliases,
          if hasType "ImportDeclaration" node
          then importAliases allSetterHooks node aliases
          else aliases)
       noLeave ast ∅.

Definition resolveDirectHookWriteBinding (callExpr : json)
    (hookAliases : gmap string string) : option HookWriteBinding :=
  let callee := field "callee" callExpr in
  if negb (hasType "Identifier" callee) then None
  else
    match strField "name" callee ≫= λ calleeName, hookAliases !! calleeName with
    | None => None
    | Some canonicalHook =>
      if negb (truthy (Some canonicalHook)) then None
      else
        match extractAtomName (firstArgument callExpr) with
        | None => None
        | Some atomName =>
          if negb (truthy (Some atomName)) then None
          else if bool_decide (canonicalHook ∈ setterHookNames)
          then Some {| b_kind := BindSetter; b_stateId := atomName |}
          else if bool_decide (canonicalHook ∈ tupleHookNames)
          then Some {| b_kind := BindTuple; b_stateId := atomName |}
          else None
        end
    end.

Record ParsedFile := mkParsed {
  p_ast : json;
  p_source : string;
}.

Record FunctionDefinitionResult := mkFunctionDef {
  f_body : json;
  f_file : string;
  f_line : nat;
  f_isArrowShorthand : bool;
  f_hookAliases : gmap string string;
}.

(** Find the first ReturnStatement in the given block.  The callback
    returns early on function nodes but does not ask the walker to skip
    them, so their children are still visited. *)
Definition findFirstReturnInOwnScope (blockNode : json) : option json :=
  walk (λ node result,
          match result with
          | Some _ => result
          | None =>
            if hasType "FunctionDeclaration" node
               || hasType "FunctionExpression" node
               || hasType "ArrowFunctionExpression" node
            then None
            else if hasType "ReturnStatement" node
            then match field "argument" node with
                 | JNull => None
                 | argument => Some argument
                 end
            else None
          end)
       noLeave blockNode None.

Definition getReturnExpression (functionDef : FunctionDefinitionResult) : option json :=
  if f_isArrowShorthand functionDef
  then match f_body functionDef with
       | JNull => None
       | body => Some body
       end
  else match f_body functionDef with
       | JNull => None
       | body => findFirstReturnInOwnScope body
       end.

Definition analyzeWrapperReturnExpression (functionDef : FunctionDefinitionResult)
    : option HookWriteBinding :=
  match getReturnExpression functionDef with
  | None => None
  | Some returnExpr =>
    if hasType "CallExpression" returnExpr
    then resolveDirectHookWriteBinding returnExpr (f_hookAliases functionDef)
    else None
  end.

Definition bindSetterIdentifiers (declarator : json) (binding : HookWriteBinding)
    (file : string) (setterBindings : gmap string string) : gmap string string :=
  let id := field "id" declarator in
  match b_kind binding with
  | BindSetter =>
    if hasType "Identifier" id
    then <[fileNameKey file (default EmptyString (strField "name" id)) := b_stateId binding]>
           setterBindings
    else setterBindings
  | BindTuple =>
    if hasType "ArrayPattern" id
    then match arrField "elements" id with
         | Some (_ :: setterElement :: _) =>
           if hasType "Identifier" setterElement
           then <[fileNameKey file (default EmptyString (strField "name" setterElement))
                    := b_stateId binding]> setterBindings
           else setterBindings
         | _ => setterBindings
         end
    else setterBindings
  end.

(** The mutable state of one [buildSetterBindings] run. *)
Record BindingState := mkBindingState {
  setterBindings : gmap string string;
  wrapperCache : gmap string (option HookWriteBinding);
  resolvedKeys : gset string;
}.

Section SetterBindings.
Context (readFile : string → option string).
Context (parseSync : string → string → option json).
(** The module resolution of setter-bindings.ts (relative specifiers
    only), against the file system. *)
Context (resolveModulePath : string → string → option string).

(** The parsed-file cache is cleared on entry to [buildSetterBindings]
    and memoises both outcomes, so a lookup returns what parsing does. *)
Definition parseFile (filePath : string) : option ParsedFile :=
  match readFile filePath with
  | None => None
  | Some source =>
    match parseSync filePath source with
    | None => None
    | Some ast => Some {| p_ast := field "program" ast; p_source := source |}
    end
  end.

(** The [enter] callback of [findFunctionInFile]. *)
Definition findFunctionEnter (name filePath : string) (parsed : ParsedFile)
    (hookAliases : gmap string string)
    (node : json) (result : option FunctionDefinitionResult)
    : option FunctionDefinitionResult :=
  match result with
  | Some _ => result
  | None =>
    if hasType "FunctionDeclaration" node
       && hasType "Identifier" (field "id" node)
       && bool_decide (strField "name" (field "id" node) = Some name)
    then match field "body" node with
         | JNull => None
         | body =>
           Some {| f_body := body; f_file := filePath;
                   f_line := offsetToLine (p_source parsed) (numField "start" node);
                   f_isArrowShorthand := false;
                   f_hookAliases := hookAliases |}
         end
    else if hasType "VariableDeclarator" node
            && hasType "Identifier" (field "id" node)
            && bool_decide (strField "name" (field "id" node) = Some name)
    then
      let init := field "init" node in
      if hasType "ArrowFunctionExpression" init || hasType "FunctionExpression" init
      then Some {| f_body := field "body" init; f_file := filePath;
                   f_line := offsetToLine (p_source parsed) (numField "start" node);
                   f_isArrowShorthand :=
                     hasType "ArrowFunctionExpression" init
                     && negb (hasType "FunctionBody" (field "body" init));
                   f_hookAliases := hookAliases |}
      else None
    else None
  end.

Definition findFunctionInFile (name filePath : string)
    : option FunctionDefinitionResult :=
  match parseFile filePath with
  | None => None
  | Some parsed =>
    walk (findFunctionEnter name filePath parsed (getRecoilHookAliases (p_ast parsed)))
         noLeave (p_ast parsed) None
  end.

(** The same scanner as [parseFileImports], without the local exports. *)
Definition collectFileImportsAndExports (filePath : string) (ast : json)
    : list ImportRecord * list ReExportRecord :=
  let info := walk (importsEnter resolveModulePath filePath) noLeave ast noFileInfo in
  (imports info, reExports info).

Fixpoint followExportChain (fuel : nat) (name filePath : string) (depth : nat)
    (visited : gset string) : outcome (option (string * string) * gset string) :=
  match fuel with
  | 0 => OutOfFuel
  | S fuel' =>
    if decide (maxChainDepth < depth) then Done (None, visited)
    else
      let visitKey := fileNameKey filePath name in
      if decide (visitKey ∈ visited) then Done (None, visited)
      else
        let visited1 := {[visitKey]} ∪ visited in
        match findFunctionInFile name filePath with
        | Some _ => Done (Some (filePath, name), visited1)
        | None =>
          match parseFile filePath with
          | None => Done (None, visited1)
          | Some parsed =>
            let '(fileImports, fileReExports) :=
              collectFileImportsAndExports filePath (p_ast parsed) in
            match List.find (isNamedFor name) fileReExports with
            | Some (NamedReExport _ exportedName sourceFile) =>
              followExportChain fuel' exportedName sourceFile (depth + 1) visited1
            | _ =>
              (fix stars (pending : list ReExportRecord) (visited2 : gset string)
                 : outcome (option (string * string) * gset string) :=
                 match pending with
                 | StarReExport sourceFile :: pending' =>
                   '(result, visited3) ←
                     followExportChain fuel' name sourceFile (depth + 1) visited2;
                   match result with
                   | Some _ => Done (result, visited3)
                   | None => stars pending' visited3
                   end
                 | NamedReExport _ _ _ :: pending' => stars pending' visited2
                 | [] =>
                   match List.find (λ importRecord,
                                      bool_decide (i_localName importRecord = name))
                                   fileImports with
                   | Some importRecord =>
                     followExportChain fuel' (i_exportedName importRecord)
                                       (i_sourceFile importRecord) (depth + 1) visited2
                   | None => Done (None, visited2)
                   end
                 end) fileReExports visited1
            end
          end
        end
  end.

(** The [for (const importRecord of imports)] loop of
    [resolveCalleeToFunctionDefinition]. *)
Fixpoint resolveThroughImports (fuel : nat) (calleeName : string)
    (pending : list ImportRecord) : outcome (option FunctionDefinitionResult) :=
  match pending with
  | [] => Done None
  | importRecord :: pending' =>
    if bool_decide (i_localName importRecord = calleeName) then
      '(resolved, _) ←
        followExportChain fuel (i_exportedName importRecord)
                          (i_sourceFile importRecord) 1 ∅;
      match resolved with
      | Some (sourceFile, exportedName) =>
        Done (findFunctionInFile exportedName sourceFile)
      | None =>
        match findFunctionInFile (i_exportedName importRecord)
                                 (i_sourceFile importRecord) with
        | Some directDef => Done (Some directDef)
        | None => resolveThroughImports fuel calleeName pending'
        end
      end
    else resolveThroughImports fuel calleeName pending'
  end.

Definition resolveCalleeToFunctionDefinition (fuel : nat) (calleeName file : string)
    : outcome (option FunctionDefinitionResult) :=
  match findFunctionInFile calleeName file with
  | Some localDef => Done (Some localDef)
  | None =>
    match parseFile file with
    | None => Done None
    | Some parsed =>
      resolveThroughImports fuel calleeName
        (fst (collectFileImportsAndExports file (p_ast parsed)))
    end
  end.

Definition resolveHookWriteBinding (fuel : nat) (callExpr : json) (file : string)
    (hookAliases : gmap string string)
    (cache : gmap string (option HookWriteBinding))
    : outcome (option HookWriteBinding * gmap string (option HookWriteBinding)) :=
  match resolveDirectHookWriteBinding callExpr hookAliases with
  | Some directBinding => Done (Some directBinding, cache)
  | None =>
    let callee := field "callee" callExpr in
    if negb (hasType "Identifier" callee) then Done (None, cache)
    else
      functionDef ←
        resolveCalleeToFunctionDefinition fuel (default EmptyString (strField "name" callee)) file;
      match functionDef with
      | None => Done (None, cache)
      | Some functionDef =>
        let cacheKey := fileLineKey (f_file functionDef) (f_line functionDef) in
        match cache !! cacheKey with
        | Some cached => Done (cached, cache)
        | None =>
          let binding := analyzeWrapperReturnExpression functionDef in
          Done (binding, <[cacheKey := binding]> cache)
        end
      end
  end.

(** The [enter] callback of [buildSetterBindings] on one node. *)
Definition bindingsEnter (fuel : nat) (file : string)
    (hookAliases : gmap string string) (node : json) (st : BindingState)
    : outcome BindingState :=
  if negb (hasType "VariableDeclarator" node)
     || negb (hasType "CallExpression" (field "init" node))
  then Done st
  else
    let declarator := node in
    let callExpr := field "init" declarator in
    '(binding, cache') ←
      resolveHookWriteBinding fuel callExpr file hookAliases (wrapperCache st);
    match binding with
    | None => Done {| setterBindings := setterBindings st; wrapperCache := cache';
                      resolvedKeys := resolvedKeys st |}
    | Some binding =>
      let bound := bindSetterIdentifiers declarator binding file (setterBindings st) in
      match resolveDirectHookWriteBinding callExpr hookAliases with
      | Some _ =>
        Done {| setterBindings := bound; wrapperCache := cache';
                resolvedKeys := resolvedKeys st |}
      | None =>
        let calleeName := strField "name" (field "callee" callExpr) in
        if truthy calleeName then
          functionDef ←
            resolveCalleeToFunctionDefinition fuel (default EmptyString calleeName) file;
          Done {| setterBindings := bound; wrapperCache := cache';
                  resolvedKeys :=
                    match functionDef with
                    | Some functionDef =>
                      {[fileLineKey (f_file functionDef) (f_line functionDef)]}
                        ∪ resolvedKeys st
                    | None => resolvedKeys st
                    end |}
        else Done {| setterBindings := bound; wrapperCache := cache';
                     resolvedKeys := resolvedKeys st |}
      end
    end.

(** The body of the [for (const file of files)] loop of [buildSetterBindings]. *)
Definition bindFile (fuel : nat) (st : outcome BindingState) (file : string)
    : outcome BindingState :=
  match parseFile file with
  | None => st
  | Some parsed =>
    let hookAliases := getRecoilHookAliases (p_ast parsed) in
    walk (λ node st, st ≫= bindingsEnter fuel file hookAliases node)
         noLeave (p_ast parsed) st
  end.

Definition buildSetterBindings (fuel : nat) (files : list string)
    (_extraction : ExtractionResult) : outcome (gmap string string * gset string) :=
  st ← foldl (bindFile fuel)
             (Done {| setterBindings := ∅; wrapperCache := ∅; resolvedKeys := ∅ |})
             files;
  Done (setterBindings st, resolvedKeys st).

(** *** Runtime callsite scan (setter-callsites.ts) *)

(** The [enter] callback of [collectRuntimeWriteCallsites]. *)
Definition callsiteEnter (file source : string) (bindings : gmap string string)
    (node : json) (callsites : list RuntimeWriteCallsite)
    : list RuntimeWriteCallsite :=
  if negb (hasType "CallExpression" node) then callsites
  else
    let callee := field "callee" node in
    if negb (hasType "Identifier" callee) then callsites
    else
      let calleeName := default EmptyString (strField "name" callee) in
      match bindings !! fileNameKey file calleeName with
      | None => callsites
      | Some atomName =>
        if negb (truthy (Some atomName)) then callsites
        else callsites ++ [{| c_atomName := atomName; c_file := file;
                              c_line := offsetToLine source (numField "start" callee);
                              c_calleeName := calleeName |}]
      end.

Definition collectRuntimeWriteCallsites (files : list string)
    (bindings : gmap string string) : list RuntimeWriteCallsite :=
  foldl (λ callsites file,
           match readFile file with
           | None => callsites
           | Some source =>
             match parseSync file source with
             | None => callsites
             | Some ast =>
               walk (callsiteEnter file source bindings) noLeave
                    (field "program" ast) callsites
             end
           end) [] files.
End SetterBindings.

(** ** Impact reporter (impact-reporter.ts): the writers section *)

(** The label [usage.writerKind ?? 'fallback']. *)
Definition writerKindLabel (writerKind : option WriterKind) : string :=
  match writerKind with
  | Some Runtime => "runtime"
  | Some Fallback => "fallback"
  | None => "fallback"
  end.

Section ImpactReporter.
(** [relativePath(filePath, targetDir)] of utils.ts, that is
    [path.relative(targetDir, filePath)]. *)
Context (relativePath : string → string → string).

Definition formatUsageLine (usage : ResolvedUsage) (targetDirectory : string) : string :=
  "      " +:+ relativePath (u_file (ru_usage usage)) targetDirectory
  +:+ ":" +:+ pretty (u_line (ru_usage usage))
  +:+ "    " +:+ u_hook (ru_usage usage).

Definition formatWriterLine (usage : ResolvedUsage) (targetDirectory : string) : string :=
  "      " +:+ relativePath (u_file (ru_usage usage)) targetDirectory
  +:+ ":" +:+ pretty (u_line (ru_usage usage))
  +:+ "    " +:+ writerKindLabel (ru_writerKind usage)
  +:+ "    " +:+ u_hook (ru_usage usage).

(** If any setter has [writerKind], the display is coverage-first. *)
Definition isCoverageMode (setters : list ResolvedUsage) : bool :=
  existsb (λ s, bool_decide (ru_writerKind s ≠ None)) setters.

Definition formatSetterSection (setters : list ResolvedUsage) (targetDirectory : string)
    : list string :=
  if isCoverageMode setters then
    let runtimeCount := length (filter (λ s, ru_writerKind s = Some Runtime) setters) in
    let fallbackCount := length (filter (λ s, ru_writerKind s = Some Fallback) setters) in
    ("    WRITERS (" +:+ pretty runtimeCount +:+ " runtime, "
     +:+ pretty fallbackCount +:+ " fallback):")
      :: map (λ usage, formatWriterLine usage targetDirectory) setters
  else
    ("    SETTERS (" +:+ pretty (length setters) +:+ "):")
      :: map (λ usage, formatUsageLine usage targetDirectory) setters.
End ImpactReporter.

(** ** Checks (checks.ts) and the exit code (reporter.ts) *)

Inductive ViolationSeverity := SeverityError | SeverityWarning.

#[global] Instance ViolationSeverity_eq_dec : EqDecision ViolationSeverity.
Proof. solve_decision. Defined.

Record ViolationLocation := mkLocation {
  loc_file : string;
  loc_line : nat;
}.

Record Violation := mkViolation {
  v_check : nat;
  v_severity : ViolationSeverity;
  v_atomOrSelectorName : string;
  v_message : string;
  v_location : ViolationLocation;
  v_details : list string;
}.

Record JotaiDefinition := mkJotaiDefinition {
  jd_name : string;
  jd_file : string;
  jd_line : nat;
}.

Record JotaiImport := mkJotaiImport {
  ji_localName : string;
  ji_importedName : string;
  ji_source : string;
  ji_file : string;
}.

(** The two Jotai fields of [ExtractionResult], [jotaiDefinitions] and
    [jotaiImports], kept in a record of their own. *)
Record JotaiExtraction := mkJotaiExtraction {
  jotaiDefinitions : list JotaiDefinition;
  jotaiImports : list JotaiImport;
}.

(** The kind as it is printed in a template string. *)
Definition kindName (kind : StateKind) : string :=
  match kind with
  | KAtom => "atom"
  | KSelector => "selector"
  | KAtomFamily => "atomFamily"
  | KSelectorFamily => "selectorFamily"
  end.

(** JavaScript's [!value]. *)
Definition falsy (value : json) : bool :=
  match value with
  | JNull => true
  | JBool b => negb b
  | JNum n => bool_decide (n = 0)
  | JStr s => bool_decide (s = EmptyString)
  | JArr _ => false
  | JObj _ => false
  end.

(** The get() bodies a definition contributes: its own when it is a
    selector, its inline default's when it is an atom. *)
Definition bodiesOf (def : RecoilDefinition) : list (json * RecoilDefinition) :=
  match def_getBodyAst def with
  | Some body => if isSelectorKind (def_kind def) then [(body, def)] else []
  | None => []
  end
  ++ match def_inlineDefaultGetBody def with
     | Some body => if isAtomKind (def_kind def) then [(body, def)] else []
     | None => []
     end.

(** The mutable locals of one body walk of [checkCrossSystemBoundary]
    and the shared [violations] array. *)
Record BoundaryState := mkBoundary {
  localVariableNames : gset string;
  violations : list Violation;
}.

Definition boundaryViolation (definition : RecoilDefinition) (name : string) (line : nat)
    : Violation :=
  {| v_check := 1;
     v_severity := SeverityError;
     v_atomOrSelectorName := def_name definition;
     v_message :=
       "Recoil " +:+ kindName (def_kind definition) +:+ " '" +:+ def_name definition
       +:+ "' references Jotai identifier '" +:+ name +:+ "' in its get() body";
     v_location := {| loc_file := def_file definition; loc_line := line |};
     v_details :=
       ["Jotai identifier '" +:+ name +:+ "' found in "
        +:+ kindName (def_kind definition) +:+ " get() body"] |}.

Definition inNames (names : gset string) (name : option string) : bool :=
  match name with
  | Some name => bool_decide (name ∈ names)
  | None => false
  end.

(** The [enter] callback of a body walk.  A name that is [undefined] is
    in neither Jotai set, so it is left out of [localVariableNames]
    without changing any answer. *)
Definition boundaryEnter (jotaiNames jotaiLocalNames : gset string) (source : string)
    (definition : RecoilDefinition) (node : json) (st : BoundaryState) : BoundaryState :=
  let locals :=
    if hasType "VariableDeclarator" node && hasType "Identifier" (field "id" node)
    then
      let initNode := field "init" node in
      if falsy initNode
         || negb (hasType "Identifier" initNode)
         || (negb (inNames jotaiNames (strField "name" initNode))
             && negb (inNames jotaiLocalNames (strField "name" initNode)))
      then match strField "name" (field "id" node) with
           | Some variableName => {[variableName]} ∪ localVariableNames st
           | None => localVariableNames st
           end
      else localVariableNames st
    else localVariableNames st in
  let st' := {| localVariableNames := locals; violations := violations st |} in
  if negb (hasType "Identifier" node) then st'
  else
    match strField "name" node with
    | None => st'
    | Some name =>
      if bool_decide (name ∈ locals) then st'
      else if bool_decide (name ∈ jotaiNames) || bool_decide (name ∈ jotaiLocalNames)
      then
        let line :=
          match field "start" node with
          | JNum offset =>
            if truthy (Some source) then offsetToLine source offset
            else def_line definition
          | _ => def_line definition
          end in
        {| localVariableNames := locals;
           violations := violations st ++ [boundaryViolation definition name line] |}
      else st'
    end.

Definition jotaiNamesOf (jotai : JotaiExtraction) : gset string :=
  list_to_set (map jd_name (jotaiDefinitions jotai)).

(** [jotaiLocalNamesByFile.get(file) ?? new Set()] *)
Definition jotaiLocalNamesIn (jotai : JotaiExtraction) (file : string) : gset string :=
  list_to_set (map ji_localName (filter (λ i, ji_file i = file) (jotaiImports jotai))).

Section Checks.
Context (readFile : string → option string).

(** The body of the [for (const {ast, definition} of bodiesToCheck)] loop. *)
Definition checkBody (jotai : JotaiExtraction) (violations0 : list Violation)
    (entry : json * RecoilDefinition) : list Violation :=
  let '(ast, definition) := entry in
  let source := default EmptyString (readFile (def_file definition)) in
  violations
    (walk (boundaryEnter (jotaiNamesOf jotai) (jotaiLocalNamesIn jotai (def_file definition))
                         source definition)
          noLeave ast
          {| localVariableNames := {["get"]}; violations := violations0 |}).

(** Check 1: Recoil selector get() bodies that reference Jotai state. *)
Definition checkCrossSystemBoundary (extraction : ExtractionResult)
    (jotai : JotaiExtraction) : list Violation :=
  foldl (checkBody jotai) [] (concat (map bodiesOf (recoilDefinitions extraction))).
End Checks.

Definition readersOf (resolvedUsages : list ResolvedUsage) (name : string)
    : list ResolvedUsage :=
  filter (λ u, ru_resolvedName u = name ∧ usageType u = Reader) resolvedUsages.

Definition runtimeSettersOf (resolvedUsages : list ResolvedUsage) (name : string)
    : list ResolvedUsage :=
  filter (λ u, ru_resolvedName u = name ∧ usageType u = Setter) resolvedUsages.

Definition orphanViolation (def : RecoilDefinition) (readers : list ResolvedUsage)
    : Violation :=
  {| v_check := 2;
     v_severity := SeverityError;
     v_atomOrSelectorName := def_name def;
     v_message :=
       "Recoil " +:+ kindName (def_kind def) +:+ " '" +:+ def_name def +:+ "' has "
       +:+ pretty (length readers) +:+ " reader(s) but no runtime setters";
     v_location := {| loc_file := def_file def; loc_line := def_line def |};
     v_details :=
       map (λ r, u_file (ru_usage r) +:+ ":" +:+ pretty (u_line (ru_usage r))
                 +:+ "  " +:+ u_hook (ru_usage r)) readers |}.

(** Check 2: Recoil atoms that have readers but no runtime setters. *)
Definition checkOrphanedAtom (extraction : ExtractionResult)
    (resolvedUsages : list ResolvedUsage) : list Violation :=
  foldl (λ violations def,
           if negb (isAtomKind (def_kind def)) then violations
           else
             let readers := readersOf resolvedUsages (def_name def) in
             let runtimeSetters := runtimeSettersOf resolvedUsages (def_name def) in
             if bool_decide (0 < length readers)
                && bool_decide (length runtimeSetters = 0)
             then violations ++ [orphanViolation def readers]
             else violations)
        [] (recoilDefinitions extraction).

(** The [enter] callback of [collectGetDependencies]. *)
Definition collectGetEnter (node : json) (dependencies : gset string) : gset string :=
  if negb (hasType "CallExpression" node) then dependencies
  else
    let callee := field "callee" node in
    if negb (hasType "Identifier" callee)
       || negb (bool_decide (strField "name" callee = Some "get"))
    then dependencies
    else
      let argument := firstArgument node in
      if falsy argument then dependencies
      else
        let dependencies1 :=
          if hasType "Identifier" argument
          then match strField "name" argument with
               | Some name => {[name]} ∪ dependencies
               | None => dependencies
               end
          else dependencies in
        if hasType "CallExpression" argument
           && hasType "Identifier" (field "callee" argument)
        then match strField "name" (field "callee" argument) with
             | Some name => {[name]} ∪ dependencies1
             | None => dependencies1
             end
        else dependencies1.

Definition collectGetDependencies (bodyAst : json) (dependencies : gset string)
    : gset string :=
  walk collectGetEnter noLeave bodyAst dependencies.

(** The set of names referenced in get() bodies, inline defaults included. *)
Definition selectorDependenciesOf (extraction : ExtractionResult) : gset string :=
  foldl (λ dependencies def,
           let dependencies1 :=
             match def_getBodyAst def with
             | Some body =>
               if isSelectorKind (def_kind def)
               then collectGetDependencies body dependencies
               else dependencies
             | None => dependencies
             end in
           match def_inlineDefaultGetBody def with
           | Some body =>
             if isAtomKind (def_kind def)
             then collectGetDependencies body dependencies1
             else dependencies1
           | None => dependencies1
           end)
        ∅ (recoilDefinitions extraction).

Definition unusedViolation (def : RecoilDefinition) : Violation :=
  {| v_check := 3;
     v_severity := SeverityWarning;
     v_atomOrSelectorName := def_name def;
     v_message :=
       "Recoil " +:+ kindName (def_kind def) +:+ " '" +:+ def_name def
       +:+ "' has no readers, no setters, and is not a selector dependency (safe to delete)";
     v_location := {| loc_file := def_file def; loc_line := def_line def |};
     v_details := [] |}.

(** Check 3: Recoil atoms with no readers, no setters and no selector
    dependencies. *)
Definition checkUnusedAtom (extraction : ExtractionResult)
    (resolvedUsages : list ResolvedUsage) : list Violation :=
  let selectorDependencies := selectorDependenciesOf extraction in
  foldl (λ violations def,
           if negb (isAtomKind (def_kind def)) then violations
           else
             let allUsages :=
               filter (λ u, ru_resolvedName u = def_name def) resolvedUsages in
             let isSelectorDep := bool_decide (def_name def ∈ selectorDependencies) in
             if bool_decide (length allUsages = 0) && negb isSelectorDep
             then violations ++ [unusedViolation def]
             else violations)
        [] (recoilDefinitions extraction).

Definition runChecks (readFile : string → option string) (extraction : ExtractionResult)
    (jotai : JotaiExtraction) (resolvedUsages : list ResolvedUsage) : list Violation :=
  checkCrossSystemBoundary readFile extraction jotai
  ++ checkOrphanedAtom extraction resolvedUsages
  ++ checkUnusedAtom extraction resolvedUsages.

(** [violations.some((v) => v.severity === 'error') ? 1 : 0] *)
Definition getExitCode (found : list Violation) : nat :=
  if existsb (λ v, bool_decide (v_severity v = SeverityError)) found then 1 else 0.

(** ** Definition extractor (extract.ts) *)

(** Membership in [recoilStateCreators], with the kind the name stands for. *)
Definition kindOfName (name : string) : option StateKind :=
  if String.eqb name "atom" then Some KAtom
  else if String.eqb name "selector" then Some KSelector
  else if String.eqb name "atomFamily" then Some KAtomFamily
  else if String.eqb name "selectorFamily" then Some KSelectorFamily
  else None.

Definition jotaiAtomCreators : list string :=
  ["atom"; "atomFamily"; "atomWithDefault"; "atomWithReset"; "atomWithStorage";
   "atomWithReducer"].

(** [text.includes(pattern)] *)
Fixpoint includes (pattern text : string) : bool :=
  String.prefix pattern text
  || match text with
     | EmptyString => false
     | String _ rest => includes pattern rest
     end.

Definition isJotaiSource (source : string) : bool :=
  String.eqb source "jotai" || String.prefix "jotai/" source || includes "/jotai/" source.

(** [properties.find(p => p.type === 'Property' && p.key?.type ===
    'Identifier' && p.key.name === name)] *)
Definition findProperty (name : string) (properties : list json) : option json :=
  List.find (λ p, hasType "Property" p
                  && hasType "Identifier" (field "key" p)
                  && bool_decide (strField "name" (field "key" p) = Some name))
            properties.

(** [value.body ?? null] *)
Definition bodyOrNull (value : json) : option json :=
  match field "body" value with
  | JNull => None
  | body => Some body
  end.

Definition extractSelectorGetBody (configObject : json) : option json :=
  if negb (hasType "ObjectExpression" configObject) then None
  else
    match arrField "properties" configObject with
    | None => None
    | Some properties =>
      match findProperty "get" properties with
      | None => None
      | Some getProperty =>
        let value := field "value" getProperty in
        if hasType "ArrowFunctionExpression" value then bodyOrNull value
        else if hasType "FunctionExpression" value then bodyOrNull value
        else None
      end
    end.

Definition extractSelectorFamilyGetBody (configObject : json) : option json :=
  if negb (hasType "ObjectExpression" configObject) then None
  else
    match arrField "properties" configObject with
    | None => None
    | Some properties =>
      match findProperty "get" properties with
      | None => None
      | Some getProperty =>
        let outerFunction := field "value" getProperty in
        if negb (hasType "ArrowFunctionExpression" outerFunction) then None
        else
          let innerFunction := field "body" outerFunction in
          if hasType "ArrowFunctionExpression" innerFunction
             || hasType "FunctionExpression" innerFunction
          then bodyOrNull innerFunction
          else None
      end
    end.

Definition extractInlineDefaultGetBody (configObject : json)
    (recoilAliases : gmap string StateKind) : option json :=
  if negb (hasType "ObjectExpression" configObject) then None
  else
    match arrField "properties" configObject with
    | None => None
    | Some properties =>
      match findProperty "default" properties with
      | None => None
      | Some defaultProperty =>
        let defaultValue := field "value" defaultProperty in
        if negb (hasType "CallExpression" defaultValue) then None
        else
          let callee := field "callee" defaultValue in
          if negb (hasType "Identifier" callee) then None
          else
            let resolvedKind := strField "name" callee ≫= λ name, recoilAliases !! name in
            let innerConfig := firstArgument defaultValue in
            match resolvedKind with
            | Some KSelector =>
              if falsy innerConfig then None else extractSelectorGetBody innerConfig
            | Some KSelectorFamily =>
              if falsy innerConfig then None else extractSelectorFamilyGetBody innerConfig
            | _ => None
            end
      end
    end.

(** The mutable locals of [extractFromFile], the shared result, and the
    nodes entered and not yet left, whose last is the parent of the node
    being entered. *)
Record ExtractState := mkExtract {
  recoilAliases : gmap string StateKind;
  jotaiCreatorAliases : gmap string string;
  x_recoilDefinitions : list RecoilDefinition;
  x_jotaiDefinitions : list JotaiDefinition;
  x_jotaiImports : list JotaiImport;
  x_parents : list json;
}.

(** The body of the loop over the specifiers of an import from ['recoil']. *)
Definition addRecoilAlias (aliases : gmap string StateKind) (spec : json)
    : gmap string StateKind :=
  if negb (hasType "ImportSpecifier" spec)
     || bool_decide (strField "importKind" spec = Some "type")
  then aliases
  else
    let imported := strField "name" (field "imported" spec) in
    let local := strField "name" (field "local" spec) in
    match imported, local with
    | Some importedName, Some localName =>
      if truthy imported && truthy local
      then match kindOfName importedName with
           | Some kind => <[localName := kind]> aliases
           | None => aliases
           end
      else aliases
    | _, _ => aliases
    end.

(** The body of the loop over the specifiers of an import from Jotai. *)
Definition addJotaiImport (importSource filePath : string)
    (acc : list JotaiImport * gmap string string) (spec : json)
    : list JotaiImport * gmap string string :=
  let '(recorded, aliases) := acc in
  if negb (hasType "ImportSpecifier" spec)
     || bool_decide (strField "importKind" spec = Some "type")
  then acc
  else
    let imported := strField "name" (field "imported" spec) in
    let local := strField "name" (field "local" spec) in
    match imported, local with
    | Some importedName, Some localName =>
      if negb (truthy imported) || negb (truthy local) then acc
      else
        (recorded ++ [{| ji_localName := localName; ji_importedName := importedName;
                         ji_source := importSource; ji_file := filePath |}],
         if bool_decide (importedName ∈ jotaiAtomCreators)
         then <[localName := importedName]> aliases
         else aliases)
    | _, _ => acc
    end.

(** The [ImportDeclaration] case of the [enter] callback. *)
Definition extractImport (filePath : string) (node : json) (st : ExtractState)
    : ExtractState :=
  let importSource := strField "value" (field "source" node) in
  let typeOnly := bool_decide (strField "importKind" node = Some "type") in
  if negb (truthy importSource) then st
  else
    match arrField "specifiers" node with
    | None => st
    | Some specifiers =>
      let source := default EmptyString importSource in
      if String.eqb source "recoil" && typeOnly then st
      else
        let aliases :=
          if String.eqb source "recoil"
          then foldl addRecoilAlias (recoilAliases st) specifiers
          else recoilAliases st in
        if isJotaiSource source then
          if typeOnly
          then {| recoilAliases := aliases;
                  jotaiCreatorAliases := jotaiCreatorAliases st;
                  x_recoilDefinitions := x_recoilDefinitions st;
                  x_jotaiDefinitions := x_jotaiDefinitions st;
                  x_jotaiImports := x_jotaiImports st;
                  x_parents := x_parents st |}
          else
            let '(recorded, creators) :=
              foldl (addJotaiImport source filePath)
                    (x_jotaiImports st, jotaiCreatorAliases st) specifiers in
            {| recoilAliases := aliases;
               jotaiCreatorAliases := creators;
               x_recoilDefinitions := x_recoilDefinitions st;
               x_jotaiDefinitions := x_jotaiDefinitions st;
               x_jotaiImports := recorded;
               x_parents := x_parents st |}
        else {| recoilAliases := aliases;
                jotaiCreatorAliases := jotaiCreatorAliases st;
                x_recoilDefinitions := x_recoilDefinitions st;
                x_jotaiDefinitions := x_jotaiDefinitions st;
                x_jotaiImports := x_jotaiImports st;
                x_parents := x_parents st |}
    end.

(** The definition recorded for a call of a Recoil state creator. *)
Definition recoilDefinitionOf (filePath : string) (defName : string) (line : nat)
    (kind : StateKind) (callNode : json) (aliases : gmap string StateKind)
    : RecoilDefinition :=
  let configArgument := firstArgument callNode in
  let present := negb (falsy configArgument) in
  {| def_name := defName;
     def_kind := kind;
     def_file := filePath;
     def_line := line;
     def_getBodyAst :=
       match kind with
       | KSelector => if present then extractSelectorGetBody configArgument else None
       | KSelectorFamily =>
         if present then extractSelectorFamilyGetBody configArgument else None
       | _ => None
       end;
     def_inlineDefaultGetBody :=
       match kind with
       | KAtom | KAtomFamily =>
         if present then extractInlineDefaultGetBody configArgument aliases else None
       | _ => None
       end |}.

(** The [CallExpression] case of the [enter] callback, [parent] being a
    [VariableDeclarator]. *)
Definition extractCall (filePath source : string) (node parent : json)
    (st : ExtractState) : ExtractState :=
  let callee := field "callee" node in
  if negb (hasType "Identifier" callee) then st
  else
    let parentId := field "id" parent in
    if negb (hasType "Identifier" parentId) then st
    else
      let calleeName := strField "name" callee in
      let defName := default EmptyString (strField "name" parentId) in
      let line := offsetToLine source (numField "start" parent) in
      match calleeName ≫= λ name, recoilAliases st !! name with
      | Some kind =>
        {| recoilAliases := recoilAliases st;
           jotaiCreatorAliases := jotaiCreatorAliases st;
           x_recoilDefinitions :=
             x_recoilDefinitions st
             ++ [recoilDefinitionOf filePath defName line kind node (recoilAliases st)];
           x_jotaiDefinitions := x_jotaiDefinitions st;
           x_jotaiImports := x_jotaiImports st;
           x_parents := x_parents st |}
      | None =>
        match calleeName ≫= λ name, jotaiCreatorAliases st !! name with
        | Some jotaiKind =>
          if truthy (Some jotaiKind)
          then {| recoilAliases := recoilAliases st;
                  jotaiCreatorAliases := jotaiCreatorAliases st;
                  x_recoilDefinitions := x_recoilDefinitions st;
                  x_jotaiDefinitions :=
                    x_jotaiDefinitions st
                    ++ [{| jd_name := defName; jd_file := filePath; jd_line := line |}];
                  x_jotaiImports := x_jotaiImports st;
                  x_parents := x_parents st |}
          else st
        | None => st
        end
      end.

Definition pushParent (node : json) (st : ExtractState) : ExtractState :=
  {| recoilAliases := recoilAliases st;
     jotaiCreatorAliases := jotaiCreatorAliases st;
     x_recoilDefinitions := x_recoilDefinitions st;
     x_jotaiDefinitions := x_jotaiDefinitions st;
     x_jotaiImports := x_jotaiImports st;
     x_parents := x_parents st ++ [node] |}.

(** The [enter(node, parent)] callback of [extractFromFile]. *)
Definition extractEnter (filePath source : string) (node : json) (st : ExtractState)
    : ExtractState :=
  let parent := default JNull (last (x_parents st)) in
  pushParent node
    (if hasType "ImportDeclaration" node then extractImport filePath node st
     else if hasType "CallExpression" node && hasType "VariableDeclarator" parent
     then extractCall filePath source node parent st
     else st).

Definition extractLeave (node : json) (st : ExtractState) : ExtractState :=
  {| recoilAliases := recoilAliases st;
     jotaiCreatorAliases := jotaiCreatorAliases st;
     x_recoilDefinitions := x_recoilDefinitions st;
     x_jotaiDefinitions := x_jotaiDefinitions st;
     x_jotaiImports := x_jotaiImports st;
     x_parents := removelast (x_parents st) |}.

Section Extractor.
Context (readFile : string → option string).
Context (parseSync : string → string → option json).

Definition extractFromFile (filePath source : string)
    (result : ExtractionResult * JotaiExtraction) : ExtractionResult * JotaiExtraction :=
  match parseSync filePath source with
  | None => result
  | Some ast =>
    let final :=
      walk (extractEnter filePath source) extractLeave (field "program" ast)
           {| recoilAliases := ∅;
              jotaiCreatorAliases := ∅;
              x_recoilDefinitions := recoilDefinitions (fst result);
              x_jotaiDefinitions := jotaiDefinitions (snd result);
              x_jotaiImports := jotaiImports (snd result);
              x_parents := [] |} in
    ({| recoilDefinitions := x_recoilDefinitions final |},
     {| jotaiDefinitions := x_jotaiDefinitions final;
        jotaiImports := x_jotaiImports final |})
  end.

Definition extractDefinitions (files : list string) : ExtractionResult * JotaiExtraction :=
  foldl (λ result filePath,
           match readFile filePath with
           | None => result
           | Some source => extractFromFile filePath source result
           end)
        ({| recoilDefinitions := [] |}, {| jotaiDefinitions := []; jotaiImports := [] |})
        files.
End Extractor.

(** ** Command line of the impact tool (impact-cli.ts) *)

Inductive WriterMode := CoverageFirst | Legacy.
Inductive CliMode := ModeAtom | ModeFile | ModeGit.

#[global] Instance WriterMode_eq_dec : EqDecision WriterMode.
Proof. solve_decision. Defined.
#[global] Instance CliMode_eq_dec : EqDecision CliMode.
Proof. solve_decision. Defined.

Record ParsedArgs := mkParsedArgs {
  pa_targetDir : string;
  pa_mode : CliMode;
  pa_atomName : option string;
  pa_filePath : option string;
  pa_json : bool;
  pa_verbose : bool;
  pa_writerMode : WriterMode;
}.

(** The messages printed before [process.exit(1)]. *)
Inductive CliError :=
| AtomRequiresValue
| FileRequiresValue
| TargetDirectoryRequired
| ExactlyOneMode
| DirectoryNotFound (resolvedDir : string).

(** The locals of [parseArgs]. *)
Record ArgState := mkArgState {
  a_targetDir : option string;
  a_atomName : option string;
  a_filePath : option string;
  a_gitMode : bool;
  a_json : bool;
  a_verbose : bool;
  a_writerMode : WriterMode;
}.

Definition initialArgs : ArgState :=
  {| a_targetDir := None; a_atomName := None; a_filePath := None; a_gitMode := false;
     a_json := false; a_verbose := false; a_writerMode := CoverageFirst |}.

(** [!value || value.startsWith('--')] for a value that is present. *)
Definition rejectedValue (value : string) : bool :=
  String.eqb value EmptyString || String.prefix "--" value.

(** The [for] loop over [argv]; an option that takes a value consumes the
    next argument. *)
Fixpoint parseLoop (argv : list string) (st : ArgState) : CliError + ArgState :=
  match argv with
  | [] => inr st
  | argument :: rest =>
    if String.eqb argument "--atom" then
      match rest with
      | [] => inl AtomRequiresValue
      | value :: rest' =>
        if rejectedValue value then inl AtomRequiresValue
        else parseLoop rest'
               {| a_targetDir := a_targetDir st; a_atomName := Some value;
                  a_filePath := a_filePath st; a_gitMode := a_gitMode st;
                  a_json := a_json st; a_verbose := a_verbose st;
                  a_writerMode := a_writerMode st |}
      end
    else if String.eqb argument "--file" then
      match rest with
      | [] => inl FileRequiresValue
      | value :: rest' =>
        if rejectedValue value then inl FileRequiresValue
        else parseLoop rest'
               {| a_targetDir := a_targetDir st; a_atomName := a_atomName st;
                  a_filePath := Some value; a_gitMode := a_gitMode st;
                  a_json := a_json st; a_verbose := a_verbose st;
                  a_writerMode := a_writerMode st |}
      end
    else if String.eqb argument "--git" then
      parseLoop rest
        {| a_targetDir := a_targetDir st; a_atomName := a_atomName st;
           a_filePath := a_filePath st; a_gitMode := true;
           a_json := a_json st; a_verbose := a_verbose st;
           a_writerMode := a_writerMode st |}
    else if String.eqb argument "--json" then
      parseLoop rest
        {| a_targetDir := a_targetDir st; a_atomName := a_atomName st;
           a_filePath := a_filePath st; a_gitMode := a_gitMode st;
           a_json := true; a_verbose := a_verbose st;
           a_writerMode := a_writerMode st |}
    else if String.eqb argument "--verbose" then
      parseLoop rest
        {| a_targetDir := a_targetDir st; a_atomName := a_atomName st;
           a_filePath := a_filePath st; a_gitMode := a_gitMode st;
           a_json := a_json st; a_verbose := true;
           a_writerMode := a_writerMode st |}
    else if String.eqb argument "--writer-mode" then
      match rest with
      | [] => inr st
      | modeValue :: rest' =>
        parseLoop rest'
          {| a_targetDir := a_targetDir st; a_atomName := a_atomName st;
             a_filePath := a_filePath st; a_gitMode := a_gitMode st;
             a_json := a_json st; a_verbose := a_verbose st;
             a_writerMode :=
               if String.eqb modeValue "legacy" then Legacy else a_writerMode st |}
      end
    else if negb (String.prefix "--" argument) then
      parseLoop rest
        {| a_targetDir := Some argument; a_atomName := a_atomName st;
           a_filePath := a_filePath st; a_gitMode := a_gitMode st;
           a_json := a_json st; a_verbose := a_verbose st;
           a_writerMode := a_writerMode st |}
    else parseLoop rest st
  end.

Section ParseArgs.
(** [path.resolve] and [fs.existsSync]. *)
Context (pathResolve : string → string).
Context (existsSync : string → bool).

Definition parseArgs (argv : list string) : CliError + ParsedArgs :=
  match parseLoop argv initialArgs with
  | inl error => inl error
  | inr st =>
    if negb (truthy (a_targetDir st)) then inl TargetDirectoryRequired
    else
      let modeCount :=
        match a_atomName st with Some _ => 1 | None => 0 end
        + match a_filePath st with Some _ => 1 | None => 0 end
        + (if a_gitMode st then 1 else 0) in
      if bool_decide (modeCount = 0) then inl ExactlyOneMode
      else if bool_decide (1 < modeCount) then inl ExactlyOneMode
      else
        let resolvedDir := pathResolve (default EmptyString (a_targetDir st)) in
        if negb (existsSync resolvedDir) then inl (DirectoryNotFound resolvedDir)
        else
          inr {| pa_targetDir := resolvedDir;
                 pa_mode :=
                   match a_atomName st, a_filePath st with
                   | Some _, _ => ModeAtom
                   | None, None => ModeGit
                   | None, Some _ => ModeFile
                   end;
                 pa_atomName := a_atomName st;
                 pa_filePath := a_filePath st;
                 pa_json := a_json st;
                 pa_verbose := a_verbose st;
                 pa_writerMode := a_writerMode st |}
    end.
End ParseArgs.

(** What the argument loop maintains about its locals, for the command
    line [argv]. *)
Definition argsInvariant (argv : list string) (st : ArgState) : Prop :=
  (∀ v, a_atomName st = Some v → rejectedValue v = false ∧ v ∈ argv ∧ "--atom" ∈ argv)
  ∧ (∀ v, a_filePath st = Some v → rejectedValue v = false ∧ v ∈ argv ∧ "--file" ∈ argv)
  ∧ (∀ d, a_targetDir st = Some d → String.prefix "--" d = false ∧ d ∈ argv)
  ∧ (a_gitMode st = true → "--git" ∈ argv)
  ∧ (a_writerMode st = Legacy → "--writer-mode" ∈ argv ∧ "legacy" ∈ argv).

(** ** The write list before the coverage merge

    The specification's wording of the legacy write list: the direct
    usages of the target whose kind is write, untouched. *)
Definition legacyWriteList (graph : DependencyGraph) (atomName : string)
    : list ResolvedUsage :=
  filter (λ u, usageType u = Setter) (default [] (componentUsages graph !! atomName)).

(** ** Predicates used in the statements *)

(** What every run maintains: the names emitted are visited, pairwise
    distinct, and within the depth cap. *)
Definition bfsInvariant (visited : gset string) (acc : list TransitiveDependency) : Prop :=
  NoDup (map t_via acc)
  ∧ (∀ t, t ∈ acc → t_via t ∈ visited)
  ∧ Forall (λ t, t_depth t ≤ maxDepth) acc.

(** The shape of what the hook/call-site pass emits. *)
Definition hookPassShaped (u : Usage) : Prop :=
  u_enclosingDefinition u = None
  ∧ u_hook u ∈ ["set(initializer)"; "useRecoilValue"; "useSetRecoilState";
                "useResetRecoilState"; "useRecoilState"; "set(callback)";
                "reset(callback)"; "getPromise(callback)"].

(** The shape of what the derived-body pass emits while it walks the
    body owned by [def]. *)
Definition ownedBy (def : RecoilDefinition) (u : Usage) : Prop :=
  u_hook u = "get(selector)"
  ∧ u_type u = Reader
  ∧ u_enclosingDefinition u = Some (def_name def)
  ∧ u_file u = def_file def.

Definition reExportSource (reExport : ReExportRecord) : string :=
  match reExport with
  | NamedReExport _ _ sourceFile => sourceFile
  | StarReExport sourceFile => sourceFile
  end.

(** A usage enters the file set [inSet]: its name is not defined in its
    own file and the import that binds it there names a file of the set. *)
Definition entersFileSet (graph : gmap string FileInfo)
    (definitionLookup : gmap string (gmap string string))
    (inSet : string → Prop) (usage : Usage) : Prop :=
  lookupDefinition definitionLookup (u_file usage) (u_localName usage) = None
  ∧ ∃ fileInfo importRecord,
      graph !! u_file usage = Some fileInfo
      ∧ List.find (λ importRecord,
                     bool_decide (i_localName importRecord = u_localName usage))
                  (imports fileInfo) = Some importRecord
      ∧ inSet (i_sourceFile importRecord).

(** [info], the imports and re-exports of a file, names [target] as a
    source: the file re-exports from [target] or imports from it. *)
Definition referencesFile (info : FileInfo) (target : string) : Prop :=
  (∃ r, r ∈ reExports info ∧ reExportSource r = target)
  ∨ (∃ i, i ∈ imports info ∧ i_sourceFile i = target).

(** [target] is reached from [file] by following re-exports and imports
    of the file graph, any number of times. *)
Inductive reaches (graph : gmap string FileInfo) (file : string) : string → Prop :=
| reaches_here : reaches graph file file
| reaches_step via info target :
    reaches graph file via →
    graph !! via = Some info →
    referencesFile info target →
    reaches graph file target.

(** Two files of the graph that re-export each other. *)
Definition mutualCycle (graph : gmap string FileInfo) (fileA fileB : string) : Prop :=
  ∃ infoA infoB,
    graph !! fileA = Some infoA
    ∧ graph !! fileB = Some infoB
    ∧ (∃ r, r ∈ reExports infoA ∧ reExportSource r = fileB)
    ∧ (∃ r, r ∈ reExports infoB ∧ reExportSource r = fileA).

(** ** Further predicates used in the statements *)

(** The test of [buildDependencyGraph] that makes a usage a
    selector-to-state edge instead of a component usage. *)
Definition isDependencyEdge (usage : ResolvedUsage) : bool :=
  bool_decide (u_hook (ru_usage usage) = "get(selector)")
  && truthy (u_enclosingDefinition (ru_usage usage)).

(** A resolved usage of [name] read by [get] inside the body of [selector]. *)
Definition dependsThrough (name selector : string) (u : ResolvedUsage) : Prop :=
  ru_resolvedName u = name
  ∧ u_hook (ru_usage u) = "get(selector)"
  ∧ u_enclosingDefinition (ru_usage u) = Some selector
  ∧ selector ≠ EmptyString.


(** [selector] depends on [atomName] through a chain of [hops] dependency
    edges of the graph. *)
Inductive dependsWithin (graph : DependencyGraph) (atomName : string)
    : nat → string → Prop :=
| within_direct selector :
    selector ∈ dependentsOf graph atomName →
    dependsWithin graph atomName 1 selector
| within_step hops via selector :
    dependsWithin graph atomName hops via →
    selector ∈ dependentsOf graph via →
    dependsWithin graph atomName (S hops) selector.

(** [r] names a definition of the extraction: its resolved name and its
    definition file are those of one recorded definition. *)
Definition namesDefinition (extraction : ExtractionResult) (r : ResolvedUsage) : Prop :=
  ∃ d, d ∈ recoilDefinitions extraction
       ∧ def_name d = ru_resolvedName r
       ∧ def_file d = ru_definitionFile r.

(** The name a usage goes by is defined in the usage's own file. *)
Definition definedLocally (extraction : ExtractionResult) (usage : Usage) : Prop :=
  ∃ d, d ∈ recoilDefinitions extraction
       ∧ def_name d = u_localName usage
       ∧ def_file d = u_file usage.

(** The hook tags of the collector and the usage types each may carry. *)
Definition hookTypes : list (string * UsageType) :=
  [("useRecoilValue", Reader); ("useSetRecoilState", Setter);
   ("useResetRecoilState", Setter); ("useRecoilState", Reader);
   ("useRecoilState", Setter); ("set(callback)", Setter);
   ("set(callback)", Initializer); ("reset(callback)", Setter);
   ("getPromise(callback)", Reader); ("set(initializer)", Initializer);
   ("get(selector)", Reader)].

(** Number of line breaks among the first [offset] characters. *)
Fixpoint newlinesBefore (source : string) (offset : nat) : nat :=
  match offset, source with
  | S offset', String c rest =>
    (if Ascii.eqb c (Ascii.ascii_of_nat 10) then 1 else 0) + newlinesBefore rest offset'
  | _, _ => 0
  end.

(** The number of the last line of a text. *)
Definition lineCount (source : string) : nat :=
  1 + newlinesBefore source (String.length source).

(** What a usage record of the collector looks like: it goes by the name
    of the state it uses, which is not empty, its hook tag and type agree,
    and it points at a line of a file that could be read. *)
Definition wellFormedUsage (readFile : string → option string) (u : Usage) : Prop :=
  u_localName u = u_atomName u
  ∧ u_atomName u ≠ EmptyString
  ∧ (u_hook u, u_type u) ∈ hookTypes
  ∧ ∃ source, readFile (u_file u) = Some source ∧ 1 ≤ u_line u ≤ lineCount source.

(** The shape of a usage emitted while [source], the text of [filePath],
    is scanned. *)
Definition emittedAt (filePath source : string) (u : Usage) : Prop :=
  u_localName u = u_atomName u
  ∧ u_atomName u ≠ EmptyString
  ∧ (u_hook u, u_type u) ∈ hookTypes
  ∧ u_file u = filePath
  ∧ ∃ offset, u_line u = offsetToLine source offset.

(** No import declaration among the nodes visited names ['recoil']. *)
Definition importsNothingFromRecoil (program : json) : Prop :=
  Forall (λ ev, match ev with
                | Enter node =>
                  hasType "ImportDeclaration" node = true →
                  strField "value" (field "source" node) ≠ Some "recoil"
                | Leave _ => True
                end) (events program).

(** What every entry of the setter-binding map looks like: the key is
    [file:identifier] for a scanned file, the value a non-empty state name. *)
Definition bindingShaped (files : list string) (key atomName : string) : Prop :=
  atomName ≠ EmptyString
  ∧ ∃ file name, key = fileNameKey file name ∧ file ∈ files.

(** Every binding memoised for a wrapper names a state. *)
Definition cacheNamed (cache : gmap string (option HookWriteBinding)) : Prop :=
  ∀ key binding, cache !! key = Some (Some binding) → b_stateId binding ≠ EmptyString.

(** What a run of [buildSetterBindings] maintains. *)
Definition bindingInvariant (files : list string) (wrapperKey : string → Prop)
    (st : BindingState) : Prop :=
  map_Forall (bindingShaped files) (setterBindings st)
  ∧ cacheNamed (wrapperCache st)
  ∧ ∀ key, key ∈ resolvedKeys st → wrapperKey key.

(** [key] is the [file:line] of the definition of a function that a
    callee of a scanned file resolves to. *)
Definition wrapperDefinitionKey
    (readFile : string → option string) (parseSync : string → string → option json)
    (resolveModulePath : string → string → option string)
    (fuel : nat) (files : list string) (key : string) : Prop :=
  ∃ calleeName file functionDef,
    file ∈ files
    ∧ resolveCalleeToFunctionDefinition readFile parseSync resolveModulePath fuel
                                        calleeName file = Done (Some functionDef)
    ∧ key = fileLineKey (f_file functionDef) (f_line functionDef).

(** The shape of a check-1 violation raised while a body of [definition]
    is walked: it quotes an identifier other than [get] that is a Jotai
    name, global or imported into the definition's file. *)
Definition boundaryShaped (jotai : JotaiExtraction) (definition : RecoilDefinition)
    (v : Violation) : Prop :=
  ∃ name line,
    v = boundaryViolation definition name line
    ∧ name ≠ "get"
    ∧ (name ∈ jotaiNamesOf jotai ∨ name ∈ jotaiLocalNamesIn jotai (def_file definition)).

(** What a recorded Recoil definition looks like: it sits on an existing
    line of a scanned file that could be read, a selector carries no
    inline default body and an atom no get() body of its own. *)
Definition wellFormedDefinition (readFile : string → option string) (files : list string)
    (d : RecoilDefinition) : Prop :=
  def_file d ∈ files
  ∧ (∃ source, readFile (def_file d) = Some source ∧ 1 ≤ def_line d ≤ lineCount source)
  ∧ (isSelectorKind (def_kind d) = true → def_inlineDefaultGetBody d = None)
  ∧ (isAtomKind (def_kind d) = true → def_getBodyAst d = None).

Definition wellFormedJotaiDefinition (readFile : string → option string)
    (files : list string) (d : JotaiDefinition) : Prop :=
  jd_file d ∈ files
  ∧ ∃ source, readFile (jd_file d) = Some source ∧ 1 ≤ jd_line d ≤ lineCount source.

Definition wellFormedJotaiImport (files : list string) (i : JotaiImport) : Prop :=
  ji_file i ∈ files
  ∧ isJotaiSource (ji_source i) = true
  ∧ ji_localName i ≠ EmptyString
  ∧ ji_importedName i ≠ EmptyString.

(** What the extractor maintains while it scans. *)
Definition extractInvariant (readFile : string → option string) (files : list string)
    (st : ExtractState) : Prop :=
  Forall (wellFormedDefinition readFile files) (x_recoilDefinitions st)
  ∧ Forall (wellFormedJotaiDefinition readFile files) (x_jotaiDefinitions st)
  ∧ Forall (wellFormedJotaiImport files) (x_jotaiImports st).

(** ** Example trees and graphs

    The trees below are what the parser returns for small source files
    (those of the repository's test fixtures, or one-line variations of
    them); offsets are character offsets into the source text. *)

Definition newline : string := String (Ascii.ascii_of_nat 10) EmptyString.

Definition joinLines (lines : list string) : string :=
  foldr (λ line text, line +:+ newline +:+ text) EmptyString lines.

Definition astNode (type : string) (start : nat) (fields : list (string * json)) : json :=
  JObj (("type", JStr type) :: ("start", JNum start) :: fields).

Definition identifier (start : nat) (name : string) : json :=
  astNode "Identifier" start [("name", JStr name)].

Definition literal (start : nat) (value : string) : json :=
  astNode "Literal" start [("value", JStr value)].

Definition callExpression (start : nat) (callee : json) (arguments : list json) : json :=
  astNode "CallExpression" start [("callee", callee); ("arguments", JArr arguments)].

Definition memberExpression (start : nat) (object property : json) : json :=
  astNode "MemberExpression" start [("object", object); ("property", property)].

Definition expressionStatement (start : nat) (expression : json) : json :=
  astNode "ExpressionStatement" start [("expression", expression)].

Definition returnStatement (start : nat) (argument : json) : json :=
  astNode "ReturnStatement" start [("argument", argument)].

Definition blockStatement (start : nat) (body : list json) : json :=
  astNode "BlockStatement" start [("body", JArr body)].

Definition functionDeclaration (start : nat) (id : json) (params : list json)
    (body : json) : json :=
  astNode "FunctionDeclaration" start
          [("id", id); ("params", JArr params); ("body", body)].

Definition arrowFunctionExpression (start : nat) (params : list json) (body : json)
    : json :=
  astNode "ArrowFunctionExpression" start [("params", JArr params); ("body", body)].

Definition variableDeclarator (start : nat) (id init : json) : json :=
  astNode "VariableDeclarator" start [("id", id); ("init", init)].

Definition variableDeclaration (start : nat) (declarations : list json) : json :=
  astNode "VariableDeclaration" start [("declarations", JArr declarations)].

Definition exportNamedDeclaration (start : nat) (declaration : json) : json :=
  astNode "ExportNamedDeclaration" start
          [("declaration", declaration); ("specifiers", JArr []); ("source", JNull)].

Definition exportAllDeclaration (start sourceStart : nat) (source : string) : json :=
  astNode "ExportAllDeclaration" start [("source", literal sourceStart source)].

Definition importSpecifier (start : nat) (imported local : string) : json :=
  astNode "ImportSpecifier" start
          [("imported", identifier start imported); ("local", identifier start local);
           ("importKind", JStr "value")].

Definition importDeclaration (start : nat) (specifiers : list json)
    (sourceStart : nat) (source : string) : json :=
  astNode "ImportDeclaration" start
          [("specifiers", JArr specifiers); ("source", literal sourceStart source);
           ("importKind", JStr "value")].

(** The value [parseSync] returns: an object whose [program] is the tree. *)
Definition parseResult (body : list json) : json :=
  JObj [("program", astNode "Program" 0 [("body", JArr body)])].

Definition emptyExtraction : ExtractionResult := {| recoilDefinitions := [] |}.

(** *** test/fixtures/initializer.ts *)

Definition initializerSource : string :=
  joinLines
    ["import {myAtom} from './recoil-basic';";
     EmptyString;
     "export function initializePressReleaseContents(set, data) {";
     "  set(myAtom, data.title);";
     "}";
     EmptyString;
     "export function updatePressReleaseContents(set, data) {";
     "  set(myAtom, data.title);";
     "}"].

Definition initializerAst : json :=
  parseResult
    [importDeclaration 0 [importSpecifier 8 "myAtom" "myAtom"] 21 "./recoil-basic";
     exportNamedDeclaration 40
       (functionDeclaration 47 (identifier 56 "initializePressReleaseContents")
          [identifier 87 "set"; identifier 92 "data"]
          (blockStatement 98
             [expressionStatement 102
                (callExpression 102 (identifier 102 "set")
                   [identifier 106 "myAtom";
                    memberExpression 114 (identifier 114 "data")
                                     (identifier 119 "title")])]));
     exportNamedDeclaration 130
       (functionDeclaration 137 (identifier 146 "updatePressReleaseContents")
          [identifier 173 "set"; identifier 178 "data"]
          (blockStatement 184
             [expressionStatement 188
                (callExpression 188 (identifier 188 "set")
                   [identifier 192 "myAtom";
                    memberExpression 200 (identifier 200 "data")
                                     (identifier 205 "title")])]))].

(** *** The same initializer written as a variable-bound arrow function *)

Definition arrowInitializerSource : string :=
  joinLines
    ["import {myAtom} from './recoil-basic';";
     EmptyString;
     "export const initializePressReleaseContents = (set, data) => {";
     "  set(myAtom, data.title);";
     "};"].

Definition arrowInitializerCall : json :=
  callExpression 105 (identifier 105 "set")
    [identifier 109 "myAtom";
     memberExpression 117 (identifier 117 "data") (identifier 122 "title")].

Definition arrowInitializerDeclarator : json :=
  variableDeclarator 53 (identifier 53 "initializePressReleaseContents")
    (arrowFunctionExpression 86
       [identifier 87 "set"; identifier 92 "data"]
       (blockStatement 101 [expressionStatement 105 arrowInitializerCall])).

Definition arrowInitializerAst : json :=
  parseResult
    [importDeclaration 0 [importSpecifier 8 "myAtom" "myAtom"] 21 "./recoil-basic";
     exportNamedDeclaration 40
       (variableDeclaration 47 [arrowInitializerDeclarator])].

Definition initializerFiles (path : string) : option string :=
  if String.eqb path "/test/initializer.ts" then Some initializerSource
  else if String.eqb path "/test/initializer-arrow.ts" then Some arrowInitializerSource
  else None.

Definition initializerParser (path source : string) : option json :=
  if String.eqb path "/test/initializer.ts" then Some initializerAst
  else if String.eqb path "/test/initializer-arrow.ts" then Some arrowInitializerAst
  else None.

(** *** A component that calls a setter hook directly *)

Definition componentSource : string :=
  joinLines
    ["import {useSetRecoilState} from 'recoil';";
     "import {fooState} from './atoms';";
     EmptyString;
     "export function Component() {";
     "  const setFoo = useSetRecoilState(fooState);";
     "  setFoo('direct');";
     "  return null;";
     "}"].

Definition componentAst : json :=
  parseResult
    [importDeclaration 0 [importSpecifier 8 "useSetRecoilState" "useSetRecoilState"]
                       32 "recoil";
     importDeclaration 42 [importSpecifier 50 "fooState" "fooState"] 65 "./atoms";
     exportNamedDeclaration 77
       (functionDeclaration 84 (identifier 93 "Component") []
          (blockStatement 105
             [variableDeclaration 109
                [variableDeclarator 115 (identifier 115 "setFoo")
                   (callExpression 124 (identifier 124 "useSetRecoilState")
                      [identifier 142 "fooState"])];
              expressionStatement 155
                (callExpression 155 (identifier 155 "setFoo") [literal 162 "direct"]);
              returnStatement 175 (literal 182 "null")]))].

Definition atomsSource : string :=
  joinLines
    ["import {atom} from 'recoil';";
     EmptyString;
     "export const fooState = atom({key: 'fooState', default: ''});"].

Definition atomsAst : json :=
  parseResult
    [importDeclaration 0 [importSpecifier 8 "atom" "atom"] 19 "recoil";
     exportNamedDeclaration 30
       (variableDeclaration 37
          [variableDeclarator 43 (identifier 43 "fooState")
             (callExpression 54 (identifier 54 "atom")
                [astNode "ObjectExpression" 59 []])])].

Definition componentFiles : list string := ["/test/atoms.ts"; "/test/component.tsx"].

Definition componentReadFile (path : string) : option string :=
  if String.eqb path "/test/atoms.ts" then Some atomsSource
  else if String.eqb path "/test/component.tsx" then Some componentSource
  else None.

Definition componentParser (path source : string) : option json :=
  if String.eqb path "/test/atoms.ts" then Some atomsAst
  else if String.eqb path "/test/component.tsx" then Some componentAst
  else None.

Definition componentModules (specifier fromFile : string) : option string :=
  if String.eqb specifier "./atoms" then Some "/test/atoms.ts" else None.

(** What the definition extractor records for [atoms.ts]. *)
Definition componentExtraction : ExtractionResult :=
  {| recoilDefinitions :=
       [{| def_name := "fooState"; def_kind := KAtom; def_file := "/test/atoms.ts";
           def_line := 3; def_getBodyAst := None; def_inlineDefaultGetBody := None |}] |}.

(** *** test/fixtures/wrapper-hooks: a one-level wrapper and its consumer *)

Definition wrapperSource : string :=
  joinLines
    ["import {useSetRecoilState} from 'recoil';";
     "import {fooState} from './atoms';";
     EmptyString;
     "export const useSetFoo = () => useSetRecoilState(fooState);"].

Definition wrapperAst : json :=
  parseResult
    [importDeclaration 0 [importSpecifier 8 "useSetRecoilState" "useSetRecoilState"]
                       32 "recoil";
     importDeclaration 42 [importSpecifier 50 "fooState" "fooState"] 65 "./atoms";
     exportNamedDeclaration 77
       (variableDeclaration 84
          [variableDeclarator 90 (identifier 90 "useSetFoo")
             (arrowFunctionExpression 102 []
                (callExpression 108 (identifier 108 "useSetRecoilState")
                   [identifier 126 "fooState"]))])].

Definition consumerSource : string :=
  joinLines
    ["import {useSetFoo} from './wrapper-arrow';";
     EmptyString;
     "export function DirectConsumer() {";
     "  const setFoo = useSetFoo();";
     "  setFoo('hello');";
     "  return null;";
     "}"].

Definition consumerAst : json :=
  parseResult
    [importDeclaration 0 [importSpecifier 8 "useSetFoo" "useSetFoo"] 24 "./wrapper-arrow";
     exportNamedDeclaration 44
       (functionDeclaration 51 (identifier 60 "DirectConsumer") []
          (blockStatement 77
             [variableDeclaration 81
                [variableDeclarator 87 (identifier 87 "setFoo")
                   (callExpression 96 (identifier 96 "useSetFoo") [])];
              expressionStatement 111
                (callExpression 111 (identifier 111 "setFoo") [literal 118 "hello"]);
              returnStatement 130 (literal 137 "null")]))].

Definition wrapperFiles : list string :=
  ["/test/atoms.ts"; "/test/wrapper-arrow.ts"; "/test/consumer.tsx"].

Definition wrapperReadFile (path : string) : option string :=
  if String.eqb path "/test/atoms.ts" then Some atomsSource
  else if String.eqb path "/test/wrapper-arrow.ts" then Some wrapperSource
  else if String.eqb path "/test/consumer.tsx" then Some consumerSource
  else None.

Definition wrapperParser (path source : string) : option json :=
  if String.eqb path "/test/atoms.ts" then Some atomsAst
  else if String.eqb path "/test/wrapper-arrow.ts" then Some wrapperAst
  else if String.eqb path "/test/consumer.tsx" then Some consumerAst
  else None.

Definition wrapperModules (specifier fromFile : string) : option string :=
  if String.eqb specifier "./atoms" then Some "/test/atoms.ts"
  else if String.eqb specifier "./wrapper-arrow" then Some "/test/wrapper-arrow.ts"
  else None.

(** *** test/fixtures/resolve: two files that re-export each other *)

Definition cycleASource : string := joinLines ["export * from './cycle-b';"].
Definition cycleBSource : string := joinLines ["export * from './cycle-a';"].

Definition cycleAAst : json := parseResult [exportAllDeclaration 0 14 "./cycle-b"].
Definition cycleBAst : json := parseResult [exportAllDeclaration 0 14 "./cycle-a"].

Definition cycleConsumerSource : string :=
  joinLines
    ["import {useRecoilValue} from 'recoil';";
     "import {coreAtom} from './cycle-a';";
     EmptyString;
     "export function Consumer() {";
     "  return useRecoilValue(coreAtom);";
     "}"].

Definition cycleConsumerAst : json :=
  parseResult
    [importDeclaration 0 [importSpecifier 8 "useRecoilValue" "useRecoilValue"] 29 "recoil";
     importDeclaration 39 [importSpecifier 47 "coreAtom" "coreAtom"] 62 "./cycle-a";
     exportNamedDeclaration 76
       (functionDeclaration 83 (identifier 92 "Consumer") []
          (blockStatement 103
             [returnStatement 107
                (callExpression 114 (identifier 114 "useRecoilValue")
                   [identifier 129 "coreAtom"])]))].

Definition cycleFiles : list string :=
  ["/test/cycle-a.ts"; "/test/cycle-b.ts"; "/test/consumer.tsx"].

Definition cycleReadFile (path : string) : option string :=
  if String.eqb path "/test/cycle-a.ts" then Some cycleASource
  else if String.eqb path "/test/cycle-b.ts" then Some cycleBSource
  else if String.eqb path "/test/consumer.tsx" then Some cycleConsumerSource
  else None.

Definition cycleParser (path source : string) : option json :=
  if String.eqb path "/test/cycle-a.ts" then Some cycleAAst
  else if String.eqb path "/test/cycle-b.ts" then Some cycleBAst
  else if String.eqb path "/test/consumer.tsx" then Some cycleConsumerAst
  else None.

Definition cycleModules (specifier fromFile : string) : option string :=
  if String.eqb specifier "./cycle-a" then Some "/test/cycle-a.ts"
  else if String.eqb specifier "./cycle-b" then Some "/test/cycle-b.ts"
  else None.

Definition cycleInfoA : FileInfo :=
  {| imports := []; reExports := [StarReExport "/test/cycle-b.ts"]; localExports := ∅ |}.
Definition cycleInfoB : FileInfo :=
  {| imports := []; reExports := [StarReExport "/test/cycle-a.ts"]; localExports := ∅ |}.

(** *** Graphs *)

Definition exampleDefinition (name : string) (kind : StateKind) (file : string)
    (line : nat) : RecoilDefinition :=
  {| def_name := name; def_kind := kind; def_file := file; def_line := line;
     def_getBodyAst := None; def_inlineDefaultGetBody := None |}.

Definition exampleUsage (name : string) (type : UsageType) (hook file : string)
    (line : nat) : ResolvedUsage :=
  {| ru_usage := {| u_atomName := name; u_localName := name; u_type := type;
                    u_hook := hook; u_file := file; u_line := line;
                    u_enclosingDefinition := None |};
     ru_resolvedName := name; ru_definitionFile := "/test/atoms.ts";
     ru_writerKind := None |}.

Definition fooDefinition : RecoilDefinition :=
  exampleDefinition "fooState" KAtom "/test/atoms.ts" 1.

(** A target with a reader, a factory site inside a traced wrapper and a
    factory site inside a wrapper that could not be traced. *)
Definition coverageGraph : DependencyGraph :=
  {| dependentSelectors := ∅;
     componentUsages :=
       {[ "fooState" :=
            [exampleUsage "fooState" Reader "useRecoilValue" "/test/view.tsx" 3;
             exampleUsage "fooState" Setter "useSetRecoilState" "/test/wrapper-hooks.ts" 5;
             exampleUsage "fooState" Setter "useSetRecoilState"
                          "/test/unsupported-wrapper.ts" 15] ]};
     definitions := {[ "fooState" := fooDefinition ]} |}.

Definition coverageExample : CoverageOptions :=
  {| runtimeCallsites :=
       [{| c_atomName := "fooState"; c_file := "/test/consumer.tsx"; c_line := 42;
           c_calleeName := "setFoo" |};
        {| c_atomName := "barState"; c_file := "/test/consumer.tsx"; c_line := 50;
           c_calleeName := "setBar" |}];
     resolvedFactoryKeys := {[ "/test/wrapper-hooks.ts:5" ]} |}.

(** A chain of seven selectors above [base]. *)
Definition chainGraph : DependencyGraph :=
  {| dependentSelectors :=
       list_to_map [("base", ["s1"]); ("s1", ["s2"]); ("s2", ["s3"]); ("s3", ["s4"]);
                    ("s4", ["s5"]); ("s5", ["s6"]); ("s6", ["s7"])];
     componentUsages := ∅;
     definitions := {[ "base" := exampleDefinition "base" KAtom "/test/atoms.ts" 1 ]} |}.

(** A diamond ([a] to [d] through [b] and [c]) closed into a cycle. *)
Definition diamondGraph : DependencyGraph :=
  {| dependentSelectors :=
       list_to_map [("a", ["b"; "c"]); ("b", ["d"]); ("c", ["d"]); ("d", ["a"; "b"])];
     componentUsages := ∅;
     definitions := {[ "a" := exampleDefinition "a" KAtom "/test/atoms.ts" 1 ]} |}.

Definition fileExtraction : ExtractionResult :=
  {| recoilDefinitions :=
       [exampleDefinition "fooState" KAtom "/test/atoms.ts" 1;
        exampleDefinition "barSelector" KSelector "/test/selectors.ts" 4;
        exampleDefinition "barState" KAtom "/test/atoms.ts" 9] |}.

Definition fileResolvedUsages : list ResolvedUsage :=
  [exampleUsage "fooState" Reader "useRecoilValue" "/test/view.tsx" 3;
   {| ru_usage := {| u_atomName := "fooState"; u_localName := "fooState";
                     u_type := Reader; u_hook := "get(selector)";
                     u_file := "/test/selectors.ts"; u_line := 5;
                     u_enclosingDefinition := Some "barSelector" |};
      ru_resolvedName := "fooState"; ru_definitionFile := "/test/atoms.ts";
      ru_writerKind := None |}].

(** *** A selector that reads an atom of another file *)

Definition selectorsSource : string :=
  joinLines
    ["import {selector} from 'recoil';";
     "import {fooState} from './atoms';";
     EmptyString;
     "export const barSelector = selector({";
     "  key: 'barSelector',";
     "  get: ({get}) => get(fooState),";
     "});"].

(** The [get] body of [barSelector]: the call [get(fooState)]. *)
Definition barSelectorBody : json :=
  callExpression 146 (identifier 146 "get") [identifier 150 "fooState"].

Definition property (start : nat) (key value : json) (shorthand : bool) : json :=
  astNode "Property" start
          [("key", key); ("value", value); ("shorthand", JBool shorthand)].

Definition objectExpression (start : nat) (properties : list json) : json :=
  astNode "ObjectExpression" start [("properties", JArr properties)].

Definition objectPattern (start : nat) (properties : list json) : json :=
  astNode "ObjectPattern" start [("properties", JArr properties)].

Definition selectorsAst : json :=
  parseResult
    [importDeclaration 0 [importSpecifier 8 "selector" "selector"] 23 "recoil";
     importDeclaration 33 [importSpecifier 41 "fooState" "fooState"] 56 "./atoms";
     exportNamedDeclaration 68
       (variableDeclaration 75
          [variableDeclarator 81 (identifier 81 "barSelector")
             (callExpression 95 (identifier 95 "selector")
                [objectExpression 104
                   [property 108 (identifier 108 "key") (literal 113 "barSelector") false;
                    property 130 (identifier 130 "get")
                      (arrowFunctionExpression 135
                         [objectPattern 136
                            [property 137 (identifier 137 "get") (identifier 137 "get") true]]
                         barSelectorBody)
                      false]])])].

Definition selectorFiles : list string := ["/test/atoms.ts"; "/test/selectors.ts"].

Definition selectorReadFile (path : string) : option string :=
  if String.eqb path "/test/atoms.ts" then Some atomsSource
  else if String.eqb path "/test/selectors.ts" then Some selectorsSource
  else None.

Definition selectorParser (path source : string) : option json :=
  if String.eqb path "/test/atoms.ts" then Some atomsAst
  else if String.eqb path "/test/selectors.ts" then Some selectorsAst
  else None.

(** *** A callback that takes the interface as one identifier *)

Definition callbackSource : string :=
  joinLines
    ["import {useRecoilCallback} from 'recoil';";
     "import {fooState} from './atoms';";
     EmptyString;
     "export function Resetter() {";
     "  return useRecoilCallback((api) => () => api.set(fooState, null));";
     "}"].

Definition callbackCall : json :=
  callExpression 115 (identifier 115 "useRecoilCallback")
    [arrowFunctionExpression 133 [identifier 134 "api"]
       (arrowFunctionExpression 142 []
          (callExpression 148
             (memberExpression 148 (identifier 148 "api") (identifier 152 "set"))
             [identifier 156 "fooState"; literal 166 "null"]))].

(** What the definition extractor records for these two files. *)
Definition selectorExtraction : ExtractionResult :=
  (extractDefinitions selectorReadFile selectorParser selectorFiles).1.

Definition noJotai : JotaiExtraction := {| jotaiDefinitions := []; jotaiImports := [] |}.

(** A component file that imports [fooState] under the name [foo]. *)
Definition renamedImportInfo : FileInfo :=
  {| imports := [{| i_localName := "foo"; i_exportedName := "fooState";
                    i_sourceFile := "/test/atoms.ts" |}];
     reExports := [];
     localExports := ∅ |}.

Definition renamedImportGraph : gmap string FileInfo :=
  {[ "/test/component.tsx" := renamedImportInfo ]}.

(** What an extraction records when the only state, [coreAtom], is
    defined in a file outside the cycle that nothing imports. *)
Definition cycleExtraction : ExtractionResult :=
  {| recoilDefinitions := [exampleDefinition "coreAtom" KAtom "/test/atoms.ts" 3] |}.

(** *** Two files that re-export each other, one of which defines the state *)

Definition definingCycleASource : string :=
  joinLines
    ["import {atom} from 'recoil';";
     "export const coreAtom = atom({key: 'coreAtom', default: 0});";
     "export * from './cycle-b';"].

Definition definingCycleAAst : json :=
  parseResult
    [importDeclaration 0 [importSpecifier 8 "atom" "atom"] 19 "recoil";
     exportNamedDeclaration 29
       (variableDeclaration 36
          [variableDeclarator 42 (identifier 42 "coreAtom")
             (callExpression 53 (identifier 53 "atom")
                [astNode "ObjectExpression" 58 []])]);
     exportAllDeclaration 90 104 "./cycle-b"].

Definition definingCycleConsumerSource : string :=
  joinLines
    ["import {useRecoilValue} from 'recoil';";
     "import {coreAtom} from './cycle-b';";
     EmptyString;
     "export function Consumer() {";
     "  return useRecoilValue(coreAtom);";
     "}"].

Definition definingCycleConsumerAst : json :=
  parseResult
    [importDeclaration 0 [importSpecifier 8 "useRecoilValue" "useRecoilValue"] 29 "recoil";
     importDeclaration 39 [importSpecifier 47 "coreAtom" "coreAtom"] 62 "./cycle-b";
     exportNamedDeclaration 76
       (functionDeclaration 83 (identifier 92 "Consumer") []
          (blockStatement 103
             [returnStatement 107
                (callExpression 114 (identifier 114 "useRecoilValue")
                   [identifier 129 "coreAtom"])]))].

Definition definingCycleReadFile (path : string) : option string :=
  if String.eqb path "/test/cycle-a.ts" then Some definingCycleASource
  else if String.eqb path "/test/cycle-b.ts" then Some cycleBSource
  else if String.eqb path "/test/consumer.tsx" then Some definingCycleConsumerSource
  else None.

Definition definingCycleParser (path source : string) : option json :=
  if String.eqb path "/test/cycle-a.ts" then Some definingCycleAAst
  else if String.eqb path "/test/cycle-b.ts" then Some cycleBAst
  else if String.eqb path "/test/consumer.tsx" then Some definingCycleConsumerAst
  else None.

Definition definingCycleInfoA : FileInfo :=
  {| imports := []; reExports := [StarReExport "/test/cycle-b.ts"];
     localExports := {["coreAtom"]} |}.

Definition definingCycleImport : ImportRecord :=
  {| i_localName := "coreAtom"; i_exportedName := "coreAtom";
     i_sourceFile := "/test/cycle-b.ts" |}.

Definition definingCycleConsumerInfo : FileInfo :=
  {| imports := [definingCycleImport]; reExports := [];
     localExports := {["Consumer"]} |}.

(** What the definition extractor records for these files. *)
Definition definingCycleExtraction : ExtractionResult :=
  {| recoilDefinitions := [exampleDefinition "coreAtom" KAtom "/test/cycle-a.ts" 2] |}.

(** The one usage the collector finds in the consumer. *)
Definition definingCycleUsage : Usage :=
  plainUsage "coreAtom" Reader "useRecoilValue" "/test/consumer.tsx" 5.

(** * Properties *)

(** ** The traversal loop *)

Ltac cap_lia := unfold maxDepth, maxChainDepth in *; simpl in *; lia.

Lemma bfsLoop_skip_depth fuel graph entry rest visited acc :
  maxDepth < q_depth entry →
  bfsLoop (S fuel) graph (entry :: rest) visited acc
  = bfsLoop fuel graph rest visited acc.
Proof. intros Hd. simpl. destruct (decide _) as [|Hn]; [done | by destruct Hn]. Qed.

Lemma bfsLoop_skip_visited fuel graph entry rest visited acc :
  q_selectorName entry ∈ visited →
  bfsLoop (S fuel) graph (entry :: rest) visited acc
  = bfsLoop fuel graph rest visited acc.
Proof.
  intros Hv. simpl. destruct (decide (maxDepth < _)); [done |].
  destruct (decide (_ ∈ _)) as [|Hn]; [done | by destruct Hn].
Qed.

Lemma bfsLoop_visit fuel graph entry rest visited acc :
  q_depth entry ≤ maxDepth →
  q_selectorName entry ∉ visited →
  bfsLoop (S fuel) graph (entry :: rest) visited acc
  = bfsLoop fuel graph
      (rest ++ map (λ next, mkEntry next (q_depth entry + 1))
                   (filter (λ next, next ∉ {[q_selectorName entry]} ∪ visited)
                           (dependentsOf graph (q_selectorName entry))))
      ({[q_selectorName entry]} ∪ visited)
      (acc ++ [transitiveEntry graph (q_selectorName entry) (q_depth entry)]).
Proof.
  intros Hd Hv. simpl. destruct (decide (maxDepth < _)); [cap_lia |].
  destruct (decide (_ ∈ _)); [done | reflexivity].
Qed.

Lemma queueCost_app graph q1 q2 :
  queueCost graph (q1 ++ q2) = queueCost graph q1 + queueCost graph q2.
Proof. apply sum_list_with_app. Qed.

Lemma sum_list_with_filter_le {A} (f : A → nat) (P : A → Prop) `{∀ x, Decision (P x)} l :
  sum_list_with f (filter P l) ≤ sum_list_with f l.
Proof.
  induction l as [|x l IH]; [done |].
  rewrite filter_cons. destruct (decide (P x)); simpl; lia.
Qed.

Lemma sum_list_with_map {A B} (f : B → nat) (g : A → B) l :
  sum_list_with f (map g l) = sum_list_with (f ∘ g) l.
Proof. induction l as [|x l IH]; simpl; [done | by rewrite IH]. Qed.

Lemma sum_list_with_ext {A} (f g : A → nat) l :
  (∀ x, f x = g x) → sum_list_with f l = sum_list_with g l.
Proof. intros Hfg. induction l as [|x l IH]; simpl; [done | by rewrite IH, Hfg]. Qed.

Lemma pushed_cost graph name depth (P : string → Prop) `{∀ x, Decision (P x)} :
  depth ≤ maxDepth →
  S (queueCost graph (map (λ next, mkEntry next (depth + 1))
                          (filter P (dependentsOf graph name))))
  ≤ entryCost graph (mkEntry name depth).
Proof.
  intros Hd. unfold queueCost, entryCost. simpl q_depth. simpl q_selectorName.
  replace (maxDepth + 1 - depth) with (S (maxDepth - depth)) by cap_lia.
  simpl cost. rewrite sum_list_with_map. apply le_n_S.
  etransitivity; [| apply (sum_list_with_filter_le _ P)].
  apply Nat.eq_le_incl. apply sum_list_with_ext. intros next.
  unfold compose, entryCost. simpl q_depth. simpl q_selectorName. f_equal. cap_lia.
Qed.

Lemma entryCost_pos graph entry : 1 ≤ entryCost graph entry.
Proof. unfold entryCost. destruct (maxDepth + 1 - q_depth entry); simpl; lia. Qed.

(** Enough fuel: the loop returns. *)
Lemma bfsLoop_terminates graph fuel :
  ∀ queue visited acc,
    queueCost graph queue ≤ fuel →
    ∃ result, bfsLoop fuel graph queue visited acc = Done result.
Proof.
  induction fuel as [|fuel IH]; intros queue visited acc Hcost.
  - destruct queue as [|entry rest]; [by eexists |].
    pose proof (entryCost_pos graph entry). unfold queueCost in Hcost. simpl in Hcost. lia.
  - destruct queue as [|entry rest]; [by eexists |].
    pose proof (entryCost_pos graph entry) as Hpos.
    assert (queueCost graph (entry :: rest)
            = entryCost graph entry + queueCost graph rest) as Hsplit by done.
    destruct (decide (maxDepth < q_depth entry)) as [Hd|Hd].
    { rewrite bfsLoop_skip_depth by done. apply IH. lia. }
    destruct (decide (q_selectorName entry ∈ visited)) as [Hv|Hv].
    { rewrite bfsLoop_skip_visited by done. apply IH. lia. }
    rewrite bfsLoop_visit by (done || cap_lia). apply IH.
    rewrite queueCost_app.
    pose proof (pushed_cost graph (q_selectorName entry) (q_depth entry)
                  (λ next, next ∉ {[q_selectorName entry]} ∪ visited)) as Hp.
    destruct entry as [name depth]. simpl in *. lia.
Qed.

(** More fuel does not change a result. *)
Lemma bfsLoop_fuel_mono graph fuel :
  ∀ fuel' queue visited acc result,
    bfsLoop fuel graph queue visited acc = Done result →
    fuel ≤ fuel' →
    bfsLoop fuel' graph queue visited acc = Done result.
Proof.
  induction fuel as [|fuel IH]; intros fuel' queue visited acc result Hrun Hle.
  - destruct queue; [| done]. by destruct fuel'.
  - destruct queue as [|entry rest]; [by destruct fuel' |].
    destruct fuel' as [|fuel']; [cap_lia |].
    destruct (decide (maxDepth < q_depth entry)) as [Hd|Hd].
    { rewrite bfsLoop_skip_depth in * by done. apply (IH fuel'); [done | lia]. }
    destruct (decide (q_selectorName entry ∈ visited)) as [Hv|Hv].
    { rewrite bfsLoop_skip_visited in * by done. apply (IH fuel'); [done | lia]. }
    rewrite bfsLoop_visit in * by (done || cap_lia). apply (IH fuel'); [done | lia].
Qed.

Lemma bfsLoop_invariant graph fuel :
  ∀ queue visited acc result,
    bfsInvariant visited acc →
    bfsLoop fuel graph queue visited acc = Done result →
    ∃ visited', bfsInvariant visited' result.
Proof.
  induction fuel as [|fuel IH]; intros queue visited acc result Hinv Hrun.
  - destruct queue; [| done]. injection Hrun as <-. eauto.
  - destruct queue as [|entry rest]; [injection Hrun as <-; eauto |].
    destruct (decide (maxDepth < q_depth entry)) as [Hd|Hd].
    { rewrite bfsLoop_skip_depth in Hrun by done. eauto. }
    destruct (decide (q_selectorName entry ∈ visited)) as [Hv|Hv].
    { rewrite bfsLoop_skip_visited in Hrun by done. eauto. }
    rewrite bfsLoop_visit in Hrun by (done || cap_lia).
    eapply IH; [| exact Hrun].
    destruct Hinv as (Hnd & Hvis & Hdep). split_and!.
    + rewrite map_app. simpl. apply NoDup_app. split_and!; [done | | apply NoDup_singleton].
      intros name Hin Hin'. apply list_elem_of_singleton in Hin'. subst name.
      apply list_elem_of_fmap in Hin as (t & Heq & Ht).
      apply Hv. rewrite Heq. by apply Hvis.
    + intros t Ht. apply elem_of_app in Ht as [Ht|Ht].
      * apply elem_of_union_r. by apply Hvis.
      * apply list_elem_of_singleton in Ht. subst t. simpl. set_solver.
    + apply Forall_app. split; [done |]. apply Forall_singleton. cap_lia.
Qed.

Lemma bfsInvariant_empty : bfsInvariant ∅ [].
Proof. split_and!; [constructor | by intros t Ht%elem_of_nil | constructor]. Qed.

(** With enough fuel [analyzeAtomImpact] returns a result for a known
    target, with the direct lists and the traversal the source computes. *)
Lemma analyzeAtomImpact_found fuel graph atomName options definition :
  definitions graph !! atomName = Some definition →
  bfsBound graph atomName ≤ fuel →
  ∃ result trans,
    analyzeAtomImpact fuel graph atomName options = Done (Some result)
    ∧ bfsLoop fuel graph (seedQueue graph atomName) ∅ [] = Done trans
    ∧ transitive result = trans
    ∧ setters (direct result)
      = mergeSetters definition atomName
          (filter (λ u, usageType u = Setter)
                  (default [] (componentUsages graph !! atomName))) options.
Proof.
  intros Hdef Hfuel.
  destruct (bfsLoop_terminates graph fuel (seedQueue graph atomName) ∅ [] Hfuel)
    as [trans Htrans].
  unfold analyzeAtomImpact. rewrite Hdef, Htrans. simpl.
  eexists _, trans. split_and!; reflexivity.
Qed.

(** ** Claims about the impact engine *)

(** C8.  For a name that is not a key of the graph's definitions map,
    [analyzeAtomImpact] returns the not-found value [null] as a normal
    result, whatever the fuel, the coverage options and the rest of the
    graph: the outcome is the same for every graph that has the same
    definitions map, so nothing else of the graph is consulted. *)
Theorem analyzeAtomImpact_unknown_target graph atomName :
  definitions graph !! atomName = None →
  ∀ fuel options,
    analyzeAtomImpact fuel graph atomName options = Done None
    ∧ ∀ graph' fuel' options',
        definitions graph' = definitions graph →
        analyzeAtomImpact fuel' graph' atomName options' = Done None.
Proof.
  intros Hnone fuel options. split.
  - unfold analyzeAtomImpact. by rewrite Hnone.
  - intros graph' fuel' options' Hsame. unfold analyzeAtomImpact.
    by rewrite Hsame, Hnone.
Qed.

(** C4.  Legacy mode (no coverage options): the direct setters of the
    result are exactly the target's direct usages of type setter, in
    their original order, the very records of the graph, which is the
    write list of the coverage-free computation; in particular no
    [writerKind] appears that the graph's usages did not carry. *)
Theorem legacy_mode_write_list fuel graph atomName definition :
  definitions graph !! atomName = Some definition →
  bfsBound graph atomName ≤ fuel →
  ∃ result,
    analyzeAtomImpact fuel graph atomName None = Done (Some result)
    ∧ setters (direct result) = legacyWriteList graph atomName
    ∧ setters (direct result)
      = filter (λ u, u_type (ru_usage u) = Setter)
               (default [] (componentUsages graph !! atomName))
    ∧ (Forall (λ u, ru_writerKind u = None)
              (default [] (componentUsages graph !! atomName)) →
       Forall (λ u, ru_writerKind u = None) (setters (direct result))).
Proof.
  intros Hdef Hfuel.
  destruct (analyzeAtomImpact_found fuel graph atomName None definition Hdef Hfuel)
    as (result & trans & Hrun & _ & _ & Hset).
  exists result. simpl in Hset. split_and!; [done | done | done |].
  intros Hall. rewrite Hset. rewrite Forall_forall in *.
  intros u Hu. apply Hall. by apply list_elem_of_filter in Hu as [_ ?].
Qed.

(** C1.  Coverage mode: the direct setters of the result are the runtime
    callsites of the target, in their given order, as usage-shaped
    entries with hook ['setter call'] and writer kind [runtime], followed
    by the direct setter usages of the target whose ["file:line"] key is
    not in [resolvedFactoryKeys], in their original order, with their own
    hook and writer kind [fallback].  A direct setter usage whose key is in
    [resolvedFactoryKeys] contributes nothing: its fallback entry is not in
    the list, and neither is the usage itself (unless the graph's record
    already was a runtime-tagged entry equal to one built from a
    callsite; records have no identity in this model). *)
Theorem coverage_merge_write_list fuel graph atomName definition options :
  definitions graph !! atomName = Some definition →
  bfsBound graph atomName ≤ fuel →
  let directSetters :=
    filter (λ u, u_type (ru_usage u) = Setter)
           (default [] (componentUsages graph !! atomName)) in
  let key f := (u_file (ru_usage f) +:+ ":" +:+ pretty (u_line (ru_usage f)))%string in
  let asFallback f :=
    {| ru_usage := ru_usage f; ru_resolvedName := ru_resolvedName f;
       ru_definitionFile := ru_definitionFile f; ru_writerKind := Some Fallback |} in
  ∃ result,
    analyzeAtomImpact fuel graph atomName (Some options) = Done (Some result)
    ∧ setters (direct result)
      = map (λ c, {| ru_usage := {| u_atomName := c_atomName c;
                                    u_localName := c_calleeName c;
                                    u_type := Setter;
                                    u_hook := "setter call";
                                    u_file := c_file c;
                                    u_line := c_line c;
                                    u_enclosingDefinition := None |};
                     ru_resolvedName := c_atomName c;
                     ru_definitionFile := def_file definition;
                     ru_writerKind := Some Runtime |})
            (filter (λ c, c_atomName c = atomName) (runtimeCallsites options))
        ++ map asFallback
               (filter (λ f, key f ∉ resolvedFactoryKeys options) directSetters)
    ∧ ∀ f, f ∈ directSetters → key f ∈ resolvedFactoryKeys options →
           (asFallback f ∉ setters (direct result))
           ∧ (ru_writerKind f ≠ Some Runtime → f ∉ setters (direct result)).
Proof.
  intros Hdef Hfuel directSetters key asFallback.
  destruct (analyzeAtomImpact_found fuel graph atomName (Some options) definition
              Hdef Hfuel) as (result & trans & Hrun & _ & _ & Hset).
  exists result. split; [done |]. split; [exact Hset |].
  intros f Hf Hkey.
  assert (∀ e, e ∈ setters (direct result) →
               ru_writerKind e = Some Runtime
               ∨ (ru_writerKind e = Some Fallback
                  ∧ key e ∉ resolvedFactoryKeys options)) as Hshape.
  { intros e He. rewrite Hset in He. simpl in He.
    apply elem_of_app in He as [He|He].
    - apply list_elem_of_fmap in He as (c & -> & _). by left.
    - apply list_elem_of_fmap in He as (f' & -> & Hf').
      apply list_elem_of_filter in Hf' as [Hk _]. by right. }
  split.
  - intros Hin. destruct (Hshape _ Hin) as [Hr|[_ Hk]]; [done | by apply Hk].
  - intros Hnr Hin. destruct (Hshape _ Hin) as [Hr|[_ Hk]]; [done | by apply Hk].
Qed.

(** C3.  For every graph (diamonds and cycles included) and every known
    target the traversal terminates: any fuel of at least [bfsBound]
    yields a result; and each name occurs at most once among the [via]
    names of the transitive list. *)
Theorem transitive_no_duplicates fuel graph atomName definition options :
  definitions graph !! atomName = Some definition →
  bfsBound graph atomName ≤ fuel →
  ∃ result,
    analyzeAtomImpact fuel graph atomName options = Done (Some result)
    ∧ NoDup (map t_via (transitive result)).
Proof.
  intros Hdef Hfuel.
  destruct (analyzeAtomImpact_found fuel graph atomName options definition Hdef Hfuel)
    as (result & trans & Hrun & Hloop & Htrans & _).
  exists result. split; [done |]. rewrite Htrans.
  destruct (bfsLoop_invariant graph fuel _ _ _ _ bfsInvariant_empty Hloop)
    as (visited & Hnd & _). exact Hnd.
Qed.

(** One step of the traversal on a node with a single, unvisited dependent. *)
Lemma bfsLoop_visit_single fuel graph name next depth visited acc :
  depth ≤ maxDepth →
  name ∉ visited →
  dependentSelectors graph !! name = Some [next] →
  next ∉ ({[name]} ∪ visited : gset string) →
  bfsLoop (S fuel) graph [mkEntry name depth] visited acc
  = bfsLoop fuel graph [mkEntry next (depth + 1)] ({[name]} ∪ visited)
            (acc ++ [transitiveEntry graph name depth]).
Proof.
  intros Hd Hv Hdeps Hnext. rewrite bfsLoop_visit by done. simpl.
  unfold dependentsOf. rewrite Hdeps. simpl.
  rewrite filter_cons, decide_True by done. reflexivity.
Qed.

Lemma chain_traversal graph n0 n1 n2 n3 n4 n5 n6 n7 :
  NoDup [n0; n1; n2; n3; n4; n5; n6; n7] →
  dependentSelectors graph !! n0 = Some [n1] →
  dependentSelectors graph !! n1 = Some [n2] →
  dependentSelectors graph !! n2 = Some [n3] →
  dependentSelectors graph !! n3 = Some [n4] →
  dependentSelectors graph !! n4 = Some [n5] →
  dependentSelectors graph !! n5 = Some [n6] →
  bfsLoop 6 graph (seedQueue graph n0) ∅ []
  = Done [transitiveEntry graph n1 1; transitiveEntry graph n2 2;
          transitiveEntry graph n3 3; transitiveEntry graph n4 4;
          transitiveEntry graph n5 5].
Proof.
  intros Hnd H0 H1 H2 H3 H4 H5.
  repeat (apply NoDup_cons in Hnd as [? Hnd]).
  unfold seedQueue, dependentsOf. rewrite H0. simpl map.
  rewrite (bfsLoop_visit_single _ _ n1 n2);
    [| unfold maxDepth; simpl; lia | set_solver | assumption | set_solver].
  rewrite (bfsLoop_visit_single _ _ n2 n3);
    [| unfold maxDepth; simpl; lia | set_solver | assumption | set_solver].
  rewrite (bfsLoop_visit_single _ _ n3 n4);
    [| unfold maxDepth; simpl; lia | set_solver | assumption | set_solver].
  rewrite (bfsLoop_visit_single _ _ n4 n5);
    [| unfold maxDepth; simpl; lia | set_solver | assumption | set_solver].
  rewrite (bfsLoop_visit_single _ _ n5 n6);
    [| unfold maxDepth; simpl; lia | set_solver | assumption | set_solver].
  rewrite bfsLoop_skip_depth by cap_lia. reflexivity.
Qed.

Lemma chain_bound graph n0 n1 n2 n3 n4 n5 n6 :
  dependentSelectors graph !! n0 = Some [n1] →
  dependentSelectors graph !! n1 = Some [n2] →
  dependentSelectors graph !! n2 = Some [n3] →
  dependentSelectors graph !! n3 = Some [n4] →
  dependentSelectors graph !! n4 = Some [n5] →
  dependentSelectors graph !! n5 = Some [n6] →
  bfsBound graph n0 = 6.
Proof.
  intros H0 H1 H2 H3 H4 H5.
  unfold bfsBound, queueCost, seedQueue, entryCost, dependentsOf.
  rewrite H0. simpl. unfold dependentsOf.
  rewrite H1. simpl. rewrite H2. simpl. rewrite H3. simpl. rewrite H4. simpl.
  rewrite H5. simpl. reflexivity.
Qed.

(** C2.  On a linear chain of seven derived-state nodes rooted at the
    target (node k depends on node k-1, the target being node 0) the
    traversal emits exactly five transitive entries, for nodes 1 to 5 at
    depths 1 to 5, and nodes 6 and 7 are left out; and for every graph
    and known target no transitive entry has a depth greater than 5. *)
Theorem transitive_depth_cap :
  (∀ fuel graph options definition n0 n1 n2 n3 n4 n5 n6 n7,
     NoDup [n0; n1; n2; n3; n4; n5; n6; n7] →
     definitions graph !! n0 = Some definition →
     dependentSelectors graph !! n0 = Some [n1] →
     dependentSelectors graph !! n1 = Some [n2] →
     dependentSelectors graph !! n2 = Some [n3] →
     dependentSelectors graph !! n3 = Some [n4] →
     dependentSelectors graph !! n4 = Some [n5] →
     dependentSelectors graph !! n5 = Some [n6] →
     dependentSelectors graph !! n6 = Some [n7] →
     bfsBound graph n0 ≤ fuel →
     ∃ result,
       analyzeAtomImpact fuel graph n0 options = Done (Some result)
       ∧ map (λ t, (t_via t, t_depth t)) (transitive result)
         = [(n1, 1); (n2, 2); (n3, 3); (n4, 4); (n5, 5)]
       ∧ (n6 ∉ map t_via (transitive result))
       ∧ (n7 ∉ map t_via (transitive result)))
  ∧ (∀ fuel graph atomName options definition,
       definitions graph !! atomName = Some definition →
       bfsBound graph atomName ≤ fuel →
       ∃ result,
         analyzeAtomImpact fuel graph atomName options = Done (Some result)
         ∧ Forall (λ t, t_depth t ≤ 5) (transitive result)).
Proof.
  split.
  - intros fuel graph options definition n0 n1 n2 n3 n4 n5 n6 n7
           Hnd Hdef H0 H1 H2 H3 H4 H5 H6 Hfuel.
    destruct (analyzeAtomImpact_found fuel graph n0 options definition Hdef Hfuel)
      as (result & trans & Hrun & Hloop & Htrans & _).
    exists result. split; [done |].
    rewrite (chain_bound graph n0 n1 n2 n3 n4 n5 n6) in Hfuel by done.
    pose proof (chain_traversal graph n0 n1 n2 n3 n4 n5 n6 n7 Hnd H0 H1 H2 H3 H4 H5)
      as Hchain.
    apply (bfsLoop_fuel_mono _ _ fuel) in Hchain; [| done].
    rewrite Hloop in Hchain. injection Hchain as ->. rewrite Htrans. simpl.
    repeat (apply NoDup_cons in Hnd as [? Hnd]).
    split_and!; [done | set_solver | set_solver].
  - intros fuel graph atomName options definition Hdef Hfuel.
    destruct (analyzeAtomImpact_found fuel graph atomName options definition Hdef Hfuel)
      as (result & trans & Hrun & Hloop & Htrans & _).
    exists result. split; [done |]. rewrite Htrans.
    destruct (bfsLoop_invariant graph fuel _ _ _ _ bfsInvariant_empty Hloop)
      as (visited & _ & _ & Hdepth). exact Hdepth.
Qed.

(** ** Claims about the graph builder and the file entry point *)

Lemma indexDefinitions_from defs :
  ∀ (m : gmap string RecoilDefinition) name,
    is_Some (m !! name) ∨ (∃ d, d ∈ defs ∧ def_name d = name) →
    is_Some (foldl (λ m def, <[def_name def := def]> m) m defs !! name).
Proof.
  induction defs as [|d defs IH]; intros m name Hcase; simpl.
  - destruct Hcase as [?|(d & Hd%elem_of_nil & _)]; done.
  - apply IH. destruct Hcase as [Hm|(d' & Hd' & Hname)].
    + left. destruct (decide (def_name d = name)) as [->|Hne].
      * rewrite lookup_insert_eq. eauto.
      * by rewrite lookup_insert_ne.
    + apply elem_of_cons in Hd' as [->|Hd'].
      * left. rewrite <- Hname, lookup_insert_eq. eauto.
      * right. eauto.
Qed.

Lemma buildDependencyGraph_definitions extraction resolvedUsages :
  definitions (buildDependencyGraph extraction resolvedUsages)
  = indexDefinitions (recoilDefinitions extraction).
Proof.
  unfold buildDependencyGraph.
  by destruct (foldl partitionUsage (∅, ∅) resolvedUsages).
Qed.

(** Every definition of the extraction is a key of the built graph. *)
Lemma buildDependencyGraph_indexes extraction resolvedUsages d :
  d ∈ recoilDefinitions extraction →
  is_Some (definitions (buildDependencyGraph extraction resolvedUsages) !! def_name d).
Proof.
  intros Hd. rewrite buildDependencyGraph_definitions. unfold indexDefinitions.
  apply indexDefinitions_from. right. eauto.
Qed.

Lemma analyzeDefinitions_all fuel graph options defs :
  ∀ results,
    Forall (λ d, is_Some (definitions graph !! def_name d)
                 ∧ bfsBound graph (def_name d) ≤ fuel) defs →
    ∃ out,
      analyzeDefinitions fuel graph defs options results = Done (results ++ out)
      ∧ Forall2 (λ d r, analyzeAtomImpact fuel graph (def_name d) options
                        = Done (Some r)) defs out.
Proof.
  induction defs as [|d defs IH]; intros results Hall.
  - exists []. simpl. by rewrite app_nil_r.
  - apply Forall_cons in Hall as [[[definition Hdef] Hfuel] Hall].
    destruct (analyzeAtomImpact_found fuel graph (def_name d) options definition
                Hdef Hfuel) as (r & _ & Hrun & _).
    destruct (IH (results ++ [r]) Hall) as (out & Hout & Hrel).
    exists (r :: out). simpl. rewrite Hrun. simpl. rewrite Hout.
    split; [by rewrite <- app_assoc | by constructor].
Qed.

(** C10.  On the graph built from an extraction, [analyzeFileImpact]
    returns exactly one result per definition of that extraction whose
    file is the resolved path, in order: result number i is the impact
    of definition number i, none is dropped as not-found. *)
Theorem analyzeFileImpact_one_result_per_definition
    (pathResolve : string → string) fuel extraction resolvedUsages filePath options :
  let graph := buildDependencyGraph extraction resolvedUsages in
  let inFile :=
    filter (λ d, def_file d = pathResolve filePath) (recoilDefinitions extraction) in
  Forall (λ d, bfsBound graph (def_name d) ≤ fuel) inFile →
  ∃ results,
    analyzeFileImpact pathResolve fuel graph filePath extraction options = Done results
    ∧ length results = length inFile
    ∧ Forall2 (λ d r, analyzeAtomImpact fuel graph (def_name d) options = Done (Some r))
              inFile results.
Proof.
  intros graph inFile Hfuel.
  destruct (analyzeDefinitions_all fuel graph options inFile []) as (out & Hrun & Hrel).
  { rewrite Forall_forall in *. intros d Hd. split; [| by apply Hfuel].
    apply buildDependencyGraph_indexes.
    by apply list_elem_of_filter in Hd as [_ ?]. }
  exists out. split; [exact Hrun |]. split; [| exact Hrel].
  symmetry. by eapply Forall2_length.
Qed.

(** ** Claims about the usage collector *)

(** A property of the walker's state that both callbacks preserve holds
    after the walk. *)
Lemma walk_preserves {S : Type} (P : S → Prop) (enter leave : json → S → S) node s :
  (∀ n s, P s → P (enter n s)) →
  (∀ n s, P s → P (leave n s)) →
  P s → P (walk enter leave node s).
Proof.
  intros Henter Hleave. unfold walk. generalize (events node) as evs. intros evs.
  revert s. induction evs as [|ev evs IH]; intros s Hs; simpl; [done |].
  apply IH. destruct ev; auto.
Qed.

(** A walk whose callbacks only append entries satisfying [Q] only
    appends entries satisfying [Q]. *)
Lemma walk_extends {A : Type} (Q : A → Prop) (enter leave : json → list A → list A) node :
  (∀ n l, ∃ ext, enter n l = l ++ ext ∧ Forall Q ext) →
  (∀ n l, ∃ ext, leave n l = l ++ ext ∧ Forall Q ext) →
  ∀ l, ∃ ext, walk enter leave node l = l ++ ext ∧ Forall Q ext.
Proof.
  intros Henter Hleave. unfold walk. generalize (events node) as evs.
  induction evs as [|ev evs IH]; intros l; simpl.
  - exists []. by rewrite app_nil_r.
  - destruct ev as [n|n].
    + destruct (Henter n l) as (ext1 & -> & Hq1).
      destruct (IH (l ++ ext1)) as (ext2 & -> & Hq2).
      exists (ext1 ++ ext2). rewrite app_assoc. split; [done | by apply Forall_app].
    + destruct (Hleave n l) as (ext1 & -> & Hq1).
      destruct (IH (l ++ ext1)) as (ext2 & -> & Hq2).
      exists (ext1 ++ ext2). rewrite app_assoc. split; [done | by apply Forall_app].
Qed.

Lemma pushIfNamed_extends (Q : Usage → Prop) atomName mk usages :
  (∀ name, Forall Q (mk name)) →
  ∃ ext, pushIfNamed atomName mk usages = usages ++ ext ∧ Forall Q ext.
Proof.
  intros Hmk. unfold pushIfNamed. destruct atomName as [name|].
  - destruct (truthy (Some name)).
    + by exists (mk name).
    + exists []. by rewrite app_nil_r.
  - exists []. by rewrite app_nil_r.
Qed.

Lemma pushIfNamed_preserves (Q : Usage → Prop) atomName mk usages :
  (∀ name, Forall Q (mk name)) →
  Forall Q usages → Forall Q (pushIfNamed atomName mk usages).
Proof.
  intros Hmk Hus. destruct (pushIfNamed_extends Q atomName mk usages Hmk) as (ext & -> & ?).
  by apply Forall_app.
Qed.

Lemma plainUsage_hookPassShaped name type hook filePath line :
  hook ∈ ["set(initializer)"; "useRecoilValue"; "useSetRecoilState";
          "useResetRecoilState"; "useRecoilState"; "set(callback)";
          "reset(callback)"; "getPromise(callback)"] →
  hookPassShaped (plainUsage name type hook filePath line).
Proof. intros Hin. by split. Qed.

Ltac hook_shaped :=
  intros;
  repeat first
    [ apply Forall_nil_2
    | apply Forall_cons_2; [apply plainUsage_hookPassShaped; set_solver |] ].

Lemma conditional_push_preserves (Q : Usage → Prop) (c : bool) atomName mk usages :
  (∀ name, Forall Q (mk name)) →
  Forall Q usages →
  Forall Q (if c then pushIfNamed atomName mk usages else usages).
Proof. intros Hmk Hus. destruct c; [by apply pushIfNamed_preserves | done]. Qed.

Lemma callbackEnter_preserves context filePath source ancestors node usages :
  Forall hookPassShaped usages →
  Forall hookPassShaped (callbackEnter context filePath source ancestors node usages).
Proof.
  intros Hus. unfold callbackEnter.
  destruct (negb (hasType "CallExpression" node)); [done |].
  cbv zeta.
  do 4 (apply conditional_push_preserves; [hook_shaped |]).
  exact Hus.
Qed.

Lemma walkCallbackBody_preserves body context filePath source usages ancestors :
  Forall hookPassShaped usages →
  Forall hookPassShaped (walkCallbackBody body context filePath source usages ancestors).
Proof.
  intros Hus. unfold walkCallbackBody.
  apply (walk_preserves (Forall hookPassShaped)); [| done | done].
  intros n s. apply callbackEnter_preserves.
Qed.

Lemma hookCallUsages_preserves filePath source hookName callNode ancestors usages :
  Forall hookPassShaped usages →
  Forall hookPassShaped (hookCallUsages filePath source hookName callNode ancestors usages).
Proof.
  intros Hus. unfold hookCallUsages.
  repeat (case_bool_decide; [apply pushIfNamed_preserves; [hook_shaped | done] |]).
  case_bool_decide; [| done].
  destruct (_ && _); [done |].
  destruct (arrField "params" _) as [[|parameter params]|]; try done.
  destruct (field "body" _); try done.
  by apply walkCallbackBody_preserves.
Qed.

Lemma collectEnter_preserves filePath source node st :
  Forall hookPassShaped (usages st) →
  Forall hookPassShaped (usages (collectEnter filePath source node st)).
Proof.
  intros Hus. unfold collectEnter.
  destruct (hasType "ImportDeclaration" node); [done |].
  destruct (negb (hasType "CallExpression" node)); [done |].
  destruct (negb (hasType "Identifier" (field "callee" node))); [done |].
  destruct (_ && _).
  { simpl. apply pushIfNamed_preserves; [hook_shaped | done]. }
  destruct (_ ≫= _) as [hookName|]; [| done].
  destruct (negb (truthy (Some hookName))); [done |].
  simpl. by apply hookCallUsages_preserves.
Qed.

Lemma collectFromFile_preserves parseSync filePath source collected :
  Forall hookPassShaped collected →
  Forall hookPassShaped (collectFromFile parseSync filePath source collected).
Proof.
  intros Hus. unfold collectFromFile. destruct (parseSync filePath source); [| done].
  apply (walk_preserves (λ st, Forall hookPassShaped (usages st))); [| done | done].
  intros n s. apply collectEnter_preserves.
Qed.

Lemma hookPass_shaped readFile parseSync files :
  Forall hookPassShaped (foldl (collectFileUsages readFile parseSync) [] files).
Proof.
  assert (∀ acc, Forall hookPassShaped acc →
                 Forall hookPassShaped
                   (foldl (collectFileUsages readFile parseSync) acc files)) as Hgen.
  { induction files as [|f files IH]; intros acc Hacc; simpl; [done |].
    apply IH. unfold collectFileUsages, readFileSource.
    destruct (readFile f) as [source|]; [| done].
    destruct (negb _); [done |]. by apply collectFromFile_preserves. }
  by apply Hgen.
Qed.

Lemma walkSelectorGetBody_extends body filePath source usages definitionName :
  ∃ ext,
    walkSelectorGetBody body filePath source usages definitionName = usages ++ ext
    ∧ Forall (λ u, u_hook u = "get(selector)" ∧ u_type u = Reader
                   ∧ u_enclosingDefinition u = Some definitionName
                   ∧ u_file u = filePath) ext.
Proof.
  unfold walkSelectorGetBody. apply walk_extends.
  - intros n l. unfold selectorGetEnter.
    destruct (negb _); [exists []; by rewrite app_nil_r |].
    destruct (_ && _); [| exists []; by rewrite app_nil_r].
    apply pushIfNamed_extends. intros name. by apply Forall_singleton.
  - intros n l. exists []. by rewrite app_nil_r.
Qed.

Lemma collectFromDefinition_extends readFile usages def :
  ∃ ext, collectFromDefinition readFile usages def = usages ++ ext
         ∧ Forall (ownedBy def) ext.
Proof.
  assert (∀ body source acc, ∃ ext,
             walkSelectorGetBody body (def_file def) source acc (def_name def)
             = acc ++ ext ∧ Forall (ownedBy def) ext) as Hwalk.
  { intros body source acc.
    apply (walkSelectorGetBody_extends body (def_file def) source acc (def_name def)). }
  unfold collectFromDefinition, readFileSource.
  destruct (readFile (def_file def)) as [source|]; [| exists []; by rewrite app_nil_r].
  destruct (negb _); [exists []; by rewrite app_nil_r |].
  assert (∃ ext1,
             match def_getBodyAst def with
             | Some body =>
               if isSelectorKind (def_kind def)
               then walkSelectorGetBody body (def_file def) source usages (def_name def)
               else usages
             | None => usages
             end = usages ++ ext1 ∧ Forall (ownedBy def) ext1)
    as (ext1 & -> & Hext1).
  { destruct (def_getBodyAst def) as [body|]; [| exists []; by rewrite app_nil_r].
    destruct (isSelectorKind _); [| exists []; by rewrite app_nil_r].
    apply Hwalk. }
  destruct (def_inlineDefaultGetBody def) as [body|];
    [| exists ext1; done].
  destruct (isAtomKind _); [| exists ext1; done].
  destruct (Hwalk body source (usages ++ ext1)) as (ext2 & -> & Hext2).
  exists (ext1 ++ ext2).
  rewrite app_assoc. split; [done | by apply Forall_app].
Qed.

Lemma collectFromSelectorBodies_extends readFile extraction usages :
  ∃ perDefinition,
    collectFromSelectorBodies readFile extraction usages
    = usages ++ concat perDefinition
    ∧ Forall2 (λ def emitted, Forall (ownedBy def) emitted)
              (recoilDefinitions extraction) perDefinition.
Proof.
  unfold collectFromSelectorBodies. generalize (recoilDefinitions extraction) as pending.
  intros pending. revert usages.
  induction pending as [|d pending IH]; intros acc; simpl.
  - exists []. simpl. rewrite app_nil_r. split; [done | constructor].
  - destruct (collectFromDefinition_extends readFile acc d) as (ext1 & -> & Hext1).
    destruct (IH (acc ++ ext1)) as (rest & -> & Hrest).
    exists (ext1 :: rest). simpl. rewrite app_assoc. split; [done | by constructor].
Qed.

(** ** Claims about the identifier resolver *)

(** The depth cap bounds the recursion: a call at depth [depth] returns
    with [maxChainDepth + 2 - depth] units of fuel, on every file graph. *)
Lemma resolveExportedName_terminates graph definitionLookup fuel :
  ∀ file name depth visited,
    1 ≤ fuel →
    maxChainDepth + 2 ≤ fuel + depth →
    ∃ result, resolveExportedName fuel file name graph definitionLookup depth visited
              = Done result.
Proof.
  induction fuel as [|fuel IH]; intros file name depth visited Hpos Hfuel; [lia |].
  simpl.
  destruct (decide (maxChainDepth < depth)) as [Hcap|Hcap]; [by eexists |].
  destruct (decide (_ ∈ visited)); [by eexists |].
  destruct (lookupDefinition _ _ _); [by eexists |].
  destruct (graph !! file) as [fileInfo|]; [| by eexists].
  assert (1 ≤ fuel ∧ maxChainDepth + 2 ≤ fuel + (depth + 1)) as [Hpos' Hfuel']
    by (unfold maxChainDepth in *; lia).
  assert (∀ pending visited2, ∃ result,
             (fix stars (pending : list ReExportRecord) (visited2 : gset string)
                : outcome (option Resolution * gset string) :=
                match pending with
                | StarReExport sourceFile :: pending' =>
                  '(result, visited3) ←
                    resolveExportedName fuel sourceFile name graph definitionLookup
                                        (depth + 1) visited2;
                  match result with
                  | Some _ => Done (result, visited3)
                  | None => stars pending' visited3
                  end
                | NamedReExport _ _ _ :: pending' => stars pending' visited2
                | [] =>
                  match List.find (λ importRecord,
                                     bool_decide (i_localName importRecord = name))
                                  (imports fileInfo) with
                  | Some importRecord =>
                    resolveExportedName fuel (i_sourceFile importRecord)
                                        (i_exportedName importRecord)
                                        graph definitionLookup (depth + 1) visited2
                  | None => Done (None, visited2)
                  end
                end) pending visited2 = Done result) as Hstars.
  { induction pending as [|[l e s|s] pending IHp]; intros visited2.
    - destruct (List.find _ (imports fileInfo)); [by apply IH | by eexists].
    - apply IHp.
    - destruct (IH s name (depth + 1) visited2 Hpos' Hfuel') as [[result visited3] Hrun].
      rewrite Hrun. simpl. destruct result; [by eexists | apply IHp]. }
  destruct (List.find (isNamedFor name) (reExports fileInfo)) as [[l e s|s]|].
  - by apply IH.
  - apply Hstars.
  - apply Hstars.
Qed.

Section ClosedFileSet.
Context (graph : gmap string FileInfo).
Context (definitionLookup : gmap string (gmap string string)).
Context (inSet : string → Prop).
(** No file of the set defines state. *)
Hypothesis no_definitions :
  ∀ file name, inSet file → lookupDefinition definitionLookup file name = None.
(** Every re-export and import of a file of the set names a file of the set. *)
Hypothesis closed :
  ∀ file fileInfo, inSet file → graph !! file = Some fileInfo →
    (∀ r, r ∈ reExports fileInfo → inSet (reExportSource r))
    ∧ (∀ i, i ∈ imports fileInfo → inSet (i_sourceFile i)).

Lemma closed_set_unresolved fuel :
  ∀ file name depth visited result visited',
    inSet file →
    resolveExportedName fuel file name graph definitionLookup depth visited
    = Done (result, visited') →
    result = None.
Proof.
  induction fuel as [|fuel IH]; intros file name depth visited result visited' Hin Hrun;
    [done |].
  simpl in Hrun.
  destruct (decide (maxChainDepth < depth)); [by injection Hrun as <- _ |].
  destruct (decide (_ ∈ visited)); [by injection Hrun as <- _ |].
  rewrite no_definitions in Hrun by done.
  destruct (graph !! file) as [fileInfo|] eqn:Hfile; [| by injection Hrun as <- _].
  destruct (closed file fileInfo Hin Hfile) as [HreExports Himports].
  assert (∀ pending visited2 result visited',
             (∀ r, r ∈ pending → inSet (reExportSource r)) →
             (fix stars (pending : list ReExportRecord) (visited2 : gset string)
                : outcome (option Resolution * gset string) :=
                match pending with
                | StarReExport sourceFile :: pending' =>
                  '(result, visited3) ←
                    resolveExportedName fuel sourceFile name graph definitionLookup
                                        (depth + 1) visited2;
                  match result with
                  | Some _ => Done (result, visited3)
                  | None => stars pending' visited3
                  end
                | NamedReExport _ _ _ :: pending' => stars pending' visited2
                | [] =>
                  match List.find (λ importRecord,
                                     bool_decide (i_localName importRecord = name))
                                  (imports fileInfo) with
                  | Some importRecord =>
                    resolveExportedName fuel (i_sourceFile importRecord)
                                        (i_exportedName importRecord)
                                        graph definitionLookup (depth + 1) visited2
                  | None => Done (None, visited2)
                  end
                end) pending visited2 = Done (result, visited') →
             result = None) as Hstars.
  { induction pending as [|[l e s|s] pending IHp]; intros visited2 res v' Hsub Hstar.
    - destruct (List.find _ (imports fileInfo)) as [importRecord|] eqn:Hfind;
        [| by injection Hstar as <- _].
      apply find_some in Hfind as [Hfind _]. apply list_elem_of_In in Hfind.
      eapply IH; [| exact Hstar]. by apply Himports.
    - eapply IHp; [| exact Hstar]. intros r Hr. apply Hsub. set_solver.
    - destruct (resolveExportedName fuel s name graph definitionLookup (depth + 1)
                  visited2) as [[inner visited3]|] eqn:Hinner; [| done].
      simpl in Hstar.
      assert (inner = None) as ->.
      { eapply IH; [| exact Hinner]. apply (Hsub (StarReExport s)). set_solver. }
      eapply IHp; [| exact Hstar]. intros r Hr. apply Hsub. set_solver. }
  destruct (List.find (isNamedFor name) (reExports fileInfo)) as [[l e s|s]|] eqn:Hfind.
  - apply find_some in Hfind as [Hfind _]. apply list_elem_of_In in Hfind.
    eapply IH; [| exact Hrun]. apply (HreExports _ Hfind).
  - eapply Hstars; [| exact Hrun]. done.
  - eapply Hstars; [| exact Hrun]. done.
Qed.

Lemma resolveUsage_in_set fuel resolved usage :
  maxChainDepth + 1 ≤ fuel →
  entersFileSet graph definitionLookup inSet usage →
  resolveUsage fuel graph definitionLookup resolved usage = Done resolved.
Proof.
  intros Hfuel (Hlocal & fileInfo & importRecord & Hfile & Hfind & Hin).
  unfold resolveUsage. rewrite Hlocal, Hfile, Hfind.
  destruct (resolveExportedName_terminates graph definitionLookup fuel
              (i_sourceFile importRecord) (i_exportedName importRecord) 1 ∅)
    as [[result visited'] Hrun]; [unfold maxChainDepth in *; lia.. |].
  rewrite Hrun. simpl.
  by rewrite (closed_set_unresolved fuel _ _ _ _ _ _ Hin Hrun).
Qed.
End ClosedFileSet.

Lemma resolveUsage_total graph definitionLookup fuel resolved usage :
  maxChainDepth + 1 ≤ fuel →
  ∃ out,
    resolveUsage fuel graph definitionLookup resolved usage = Done out
    ∧ (out = resolved ∨ ∃ r, out = resolved ++ [r] ∧ ru_usage r = usage).
Proof.
  intros Hfuel. unfold resolveUsage.
  destruct (lookupDefinition _ _ _); [eexists; split; [done | right; by eexists] |].
  destruct (graph !! u_file usage) as [fileInfo|]; [| eexists; split; [done | by left]].
  destruct (List.find _ _) as [importRecord|]; [| eexists; split; [done | by left]].
  destruct (resolveExportedName_terminates graph definitionLookup fuel
              (i_sourceFile importRecord) (i_exportedName importRecord) 1 ∅)
    as [[result visited'] Hrun]; [unfold maxChainDepth in *; lia.. |].
  rewrite Hrun. simpl.
  destruct result; eexists; (split; [done |]); [right; by eexists | by left].
Qed.

Lemma resolveAll_spec graph definitionLookup fuel (dropped : Usage → Prop) :
  maxChainDepth + 1 ≤ fuel →
  (∀ resolved usage, dropped usage →
     resolveUsage fuel graph definitionLookup resolved usage = Done resolved) →
  ∀ pending resolved,
    ∃ out,
      resolveAll fuel graph definitionLookup resolved pending = Done out
      ∧ ∀ r, r ∈ out → r ∈ resolved ∨ ¬ dropped (ru_usage r).
Proof.
  intros Hfuel Hdropped. induction pending as [|usage pending IH]; intros resolved; simpl.
  - exists resolved. split; [done | by left].
  - destruct (resolveUsage_total graph definitionLookup fuel resolved usage Hfuel)
      as (step & Hstep & Hshape).
    rewrite Hstep. simpl.
    destruct (IH step) as (out & Hout & Hall). exists out. split; [done |].
    intros r Hr. destruct (Hall r Hr) as [Hin|Hnot]; [| by right].
    destruct Hshape as [->|(r' & -> & Husage)]; [by left |].
    apply elem_of_app in Hin as [Hin|Hin]; [by left |].
    apply list_elem_of_singleton in Hin. subst r'. right. intros Hd.
    rewrite (Hdropped resolved usage) in Hstep by (by rewrite <- Husage).
    injection Hstep as Hstep. apply (f_equal length) in Hstep.
    rewrite length_app in Hstep. simpl in Hstep. lia.
Qed.

Lemma buildDefinitionLookup_none extraction file :
  Forall (λ d, def_file d ≠ file) (recoilDefinitions extraction) →
  buildDefinitionLookup extraction !! file = None.
Proof.
  unfold buildDefinitionLookup. generalize (recoilDefinitions extraction) as defs.
  assert (∀ defs (m : gmap string (gmap string string)),
             Forall (λ d, def_file d ≠ file) defs →
             foldl (λ lookup def,
                      <[def_file def :=
                          <[def_name def := def_name def]>
                            (default ∅ (lookup !! def_file def))]> lookup) m defs !! file
             = m !! file) as Hgen.
  { induction defs as [|d defs IH]; intros m Hall; simpl; [done |].
    apply Forall_cons in Hall as [Hd Hall]. rewrite IH by done.
    by rewrite lookup_insert_ne. }
  intros defs Hall. by rewrite Hgen.
Qed.

(** ** The two rules singled out above, in general *)

Lemma hasType_true ty node : hasType ty node = true → strField "type" node = Some ty.
Proof. unfold hasType. by intros ?%bool_decide_eq_true. Qed.

Lemma hasType_other ty ty' node :
  hasType ty node = true → ty ≠ ty' → hasType ty' node = false.
Proof.
  intros Hty Hne. apply hasType_true in Hty. unfold hasType.
  apply bool_decide_eq_false. rewrite Hty. congruence.
Qed.

(** In the standalone-[set] branch of [collectFromFile] a call is an
    initializer write exactly through the innermost named function
    declaration: when the top of the function-name stack starts with
    "initialize", the call emits one initializer usage and nothing else. *)
Lemma collectEnter_set_under_initialize_declaration
    filePath source node st currentFunction atomName :
  hasType "CallExpression" node = true →
  hasType "Identifier" (field "callee" node) = true →
  strField "name" (field "callee" node) = Some "set" →
  last (functionNameStack st) = Some (Some currentFunction) →
  startsWithInitialize currentFunction = true →
  extractAtomName (firstArgument node) = Some atomName →
  atomName ≠ EmptyString →
  usages (collectEnter filePath source node st)
  = usages st ++ [{| u_atomName := atomName; u_localName := atomName;
                     u_type := Initializer; u_hook := "set(initializer)";
                     u_file := filePath;
                     u_line := offsetToLine source (numField "start" node);
                     u_enclosingDefinition := None |}].
Proof.
  intros Hcall Hcallee Hname Hlast Hinit Hatom Hne.
  unfold collectEnter.
  assert (isNamedFunctionDeclaration node = false) as ->.
  { unfold isNamedFunctionDeclaration.
    by rewrite (hasType_other "CallExpression" "FunctionDeclaration"). }
  rewrite (hasType_other "CallExpression" "ImportDeclaration") by done.
  rewrite Hcall, Hcallee, Hname. simpl negb. cbv iota.
  rewrite Hlast. simpl default.
  assert (currentFunction ≠ EmptyString) as Hcur by (by intros ->).
  assert (functionNameStack st ≠ []) as Hstack by (by intros Heq; rewrite Heq in Hlast).
  rewrite bool_decide_eq_true_2 by done.
  rewrite (bool_decide_eq_false_2 _ Hstack). simpl.
  destruct currentFunction as [|c rest]; [done |]. simpl truthy. cbv iota.
  rewrite Hinit. simpl. unfold pushIfNamed. rewrite Hatom.
  destruct atomName as [|c' rest']; [done |]. reflexivity.
Qed.

(** Outside every named function declaration, a call to an identifier
    [set] that is no hook alias emits nothing, whatever encloses it. *)
Lemma collectEnter_set_outside_declarations filePath source node st :
  hasType "CallExpression" node = true →
  hasType "Identifier" (field "callee" node) = true →
  strField "name" (field "callee" node) = Some "set" →
  functionNameStack st = [] →
  hookAliases st !! "set" = None →
  usages (collectEnter filePath source node st) = usages st.
Proof.
  intros Hcall Hcallee Hname Hstack Halias.
  unfold collectEnter.
  assert (isNamedFunctionDeclaration node = false) as ->.
  { unfold isNamedFunctionDeclaration.
    by rewrite (hasType_other "CallExpression" "FunctionDeclaration"). }
  rewrite (hasType_other "CallExpression" "ImportDeclaration") by done.
  rewrite Hcall, Hcallee, Hname, Hstack. simpl. by rewrite Halias.
Qed.

(** A declarator whose initializer is itself a setter or tuple hook call
    is bound, and [resolvedFactoryKeys] is left as it was. *)
Lemma bindingsEnter_direct_hook
    readFile parseSync resolveModulePath fuel file aliases node st binding :
  hasType "VariableDeclarator" node = true →
  hasType "CallExpression" (field "init" node) = true →
  resolveDirectHookWriteBinding (field "init" node) aliases = Some binding →
  bindingsEnter readFile parseSync resolveModulePath fuel file aliases node st
  = Done {| setterBindings := bindSetterIdentifiers node binding file (setterBindings st);
            wrapperCache := wrapperCache st;
            resolvedKeys := resolvedKeys st |}.
Proof.
  intros Hdecl Hinit Hdirect. unfold bindingsEnter, resolveHookWriteBinding.
  rewrite Hdecl, Hinit, Hdirect. reflexivity.
Qed.

(** ** Claims about the writer-binding resolver and the initializer rule,
       evaluated on the fixtures *)

(** The wrapper path does record a key: the consumer of a one-level
    wrapper marks the wrapper's definition site as resolved. *)
Example wrapper_factory_key_recorded :
  buildSetterBindings wrapperReadFile wrapperParser wrapperModules 6 wrapperFiles
                      componentExtraction
  = Done ({[ "/test/consumer.tsx:setFoo" := "fooState" ]},
          {[ "/test/wrapper-arrow.ts:4" ]}).
Proof. vm_compute; reflexivity. Qed.

(** C5.  A component binds [setFoo] with a direct [useSetRecoilState]
    call at line 5 and calls [setFoo] at line 6.  [buildSetterBindings]
    binds the identifier and the callsite scan finds the runtime callsite
    bound to it, yet the declarator's key ["/test/component.tsx:5"] is not
    in the returned [resolvedFactoryKeys] (the set is empty); the impact
    of [fooState] therefore lists the runtime callsite and, as a fallback,
    the factory site as well. *)
Theorem direct_hook_factory_key_not_recorded :
  let bindings : gmap string string := {[ "/test/component.tsx:setFoo" := "fooState" ]} in
  let keys : gset string := ∅ in
  let callsites :=
    [{| c_atomName := "fooState"; c_file := "/test/component.tsx"; c_line := 6;
        c_calleeName := "setFoo" |}] in
  let factorySite :=
    {| u_atomName := "fooState"; u_localName := "fooState"; u_type := Setter;
       u_hook := "useSetRecoilState"; u_file := "/test/component.tsx"; u_line := 5;
       u_enclosingDefinition := None |} in
  let resolved :=
    [{| ru_usage := factorySite; ru_resolvedName := "fooState";
        ru_definitionFile := "/test/atoms.ts"; ru_writerKind := None |}] in
  buildSetterBindings componentReadFile componentParser componentModules 6
                      componentFiles componentExtraction = Done (bindings, keys)
  ∧ collectRuntimeWriteCallsites componentReadFile componentParser componentFiles bindings
    = callsites
  ∧ ("/test/component.tsx:5" ∉ keys)
  ∧ collectUsages componentReadFile componentParser componentFiles componentExtraction
    = [factorySite]
  ∧ resolveUsages componentReadFile componentParser componentModules 6 componentFiles
                  componentExtraction [factorySite] = Done resolved
  ∧ ∃ result,
      analyzeAtomImpact 0 (buildDependencyGraph componentExtraction resolved) "fooState"
        (Some {| runtimeCallsites := callsites; resolvedFactoryKeys := keys |})
      = Done (Some result)
      ∧ map (λ u, (u_file (ru_usage u), u_line (ru_usage u), u_hook (ru_usage u),
                   ru_writerKind u)) (setters (direct result))
        = [("/test/component.tsx", 6, "setter call", Some Runtime);
           ("/test/component.tsx", 5, "useSetRecoilState", Some Fallback)].
Proof.
  intros bindings keys callsites factorySite resolved.
  split; [vm_compute; reflexivity |].
  split; [vm_compute; reflexivity |].
  split; [apply not_elem_of_empty |].
  split; [vm_compute; reflexivity |].
  split; [vm_compute; reflexivity |].
  eexists. split; vm_compute; reflexivity.
Qed.

(** C6.  A bare [set(myAtom, ...)] call inside the variable-bound
    function [initializePressReleaseContents] produces no usage at all, so
    no usage of type initializer, although [isInsideInitializer], the test
    the callback pass uses, recognises the enclosing declarator; written as
    a function declaration the same initializer yields the initializer
    usage. *)
Theorem variable_bound_initializer_not_collected :
  collectUsages initializerFiles initializerParser ["/test/initializer-arrow.ts"]
                emptyExtraction = []
  ∧ hasType "Identifier" (field "callee" arrowInitializerCall) = true
  ∧ strField "name" (field "callee" arrowInitializerCall) = Some "set"
  ∧ extractAtomName (firstArgument arrowInitializerCall) = Some "myAtom"
  ∧ isInsideInitializer [arrowInitializerDeclarator] = true
  ∧ collectUsages initializerFiles initializerParser ["/test/initializer.ts"]
                  emptyExtraction
    = [{| u_atomName := "myAtom"; u_localName := "myAtom"; u_type := Initializer;
          u_hook := "set(initializer)"; u_file := "/test/initializer.ts"; u_line := 4;
          u_enclosingDefinition := None |}].
Proof. split_and!; vm_compute; reflexivity. Qed.

(** ** Witnesses *)

Lemma analyzeAtomImpact_unknown_target_witness :
  definitions coverageGraph !! "doesNotExist" = None
  ∧ analyzeAtomImpact 0 coverageGraph "doesNotExist" (Some coverageExample) = Done None.
Proof.
  assert (definitions coverageGraph !! "doesNotExist" = None) as Hnone
    by (vm_compute; reflexivity).
  split; [exact Hnone |].
  exact (proj1 (analyzeAtomImpact_unknown_target coverageGraph "doesNotExist" Hnone
                  0 (Some coverageExample))).
Defined.

Lemma legacy_mode_write_list_witness :
  ∃ result,
    analyzeAtomImpact 0 coverageGraph "fooState" None = Done (Some result)
    ∧ setters (direct result)
      = [exampleUsage "fooState" Setter "useSetRecoilState" "/test/wrapper-hooks.ts" 5;
         exampleUsage "fooState" Setter "useSetRecoilState"
                      "/test/unsupported-wrapper.ts" 15].
Proof.
  destruct (legacy_mode_write_list 0 coverageGraph "fooState" fooDefinition)
    as (result & Hrun & Hlegacy & _).
  - vm_compute; reflexivity.
  - vm_compute; lia.
  - exists result. split; [exact Hrun |]. rewrite Hlegacy. vm_compute; reflexivity.
Defined.

Lemma coverage_merge_write_list_witness :
  ∃ result,
    analyzeAtomImpact 0 coverageGraph "fooState" (Some coverageExample)
    = Done (Some result)
    ∧ map (λ u, (u_file (ru_usage u), u_line (ru_usage u), u_hook (ru_usage u),
                 ru_writerKind u)) (setters (direct result))
      = [("/test/consumer.tsx", 42, "setter call", Some Runtime);
         ("/test/unsupported-wrapper.ts", 15, "useSetRecoilState", Some Fallback)].
Proof.
  destruct (coverage_merge_write_list 0 coverageGraph "fooState" fooDefinition
              coverageExample) as (result & Hrun & Hmerge & _).
  - vm_compute; reflexivity.
  - vm_compute; lia.
  - exists result. split; [exact Hrun |]. rewrite Hmerge. vm_compute; reflexivity.
Defined.

Lemma transitive_no_duplicates_witness :
  ∃ result,
    analyzeAtomImpact 36 diamondGraph "a" None = Done (Some result)
    ∧ NoDup (map t_via (transitive result)).
Proof.
  apply (transitive_no_duplicates 36 diamondGraph "a"
           (exampleDefinition "a" KAtom "/test/atoms.ts" 1) None).
  - vm_compute; reflexivity.
  - vm_compute; lia.
Defined.

Lemma transitive_depth_cap_witness :
  ∃ result,
    analyzeAtomImpact 6 chainGraph "base" None = Done (Some result)
    ∧ map (λ t, (t_via t, t_depth t)) (transitive result)
      = [("s1", 1); ("s2", 2); ("s3", 3); ("s4", 4); ("s5", 5)]
    ∧ ("s6" ∉ map t_via (transitive result))
    ∧ ("s7" ∉ map t_via (transitive result)).
Proof.
  apply (proj1 transitive_depth_cap 6 chainGraph None
           (exampleDefinition "base" KAtom "/test/atoms.ts" 1)
           "base" "s1" "s2" "s3" "s4" "s5" "s6" "s7").
  - apply (bool_decide_unpack _). vm_compute; reflexivity.
  - vm_compute; reflexivity.
  - vm_compute; reflexivity.
  - vm_compute; reflexivity.
  - vm_compute; reflexivity.
  - vm_compute; reflexivity.
  - vm_compute; reflexivity.
  - vm_compute; reflexivity.
  - vm_compute; reflexivity.
  - vm_compute; lia.
Defined.

Lemma analyzeFileImpact_one_result_per_definition_witness :
  ∃ results,
    analyzeFileImpact (λ path, path) 1
      (buildDependencyGraph fileExtraction fileResolvedUsages)
      "/test/atoms.ts" fileExtraction None = Done results
    ∧ length results = 2.
Proof.
  destruct (analyzeFileImpact_one_result_per_definition (λ path, path) 1
              fileExtraction fileResolvedUsages "/test/atoms.ts" None)
    as (results & Hrun & Hlength & _).
  - vm_compute. repeat constructor.
  - exists results. split; [exact Hrun |]. rewrite Hlength. vm_compute; reflexivity.
Defined.

(** * Further properties *)

(** ** The graph builder *)

Lemma partitionUsage_step dependents components u :
  partitionUsage (dependents, components) u
  = if isDependencyEdge u
    then (<[ru_resolvedName u :=
              setAdd (default EmptyString (u_enclosingDefinition (ru_usage u)))
                     (default [] (dependents !! ru_resolvedName u))]> dependents,
          components)
    else (dependents,
          <[ru_resolvedName u := default [] (components !! ru_resolvedName u) ++ [u]]>
            components).
Proof. reflexivity. Qed.

Lemma partitionUsage_components resolvedUsages name :
  ∀ dependents components,
    default [] ((foldl partitionUsage (dependents, components) resolvedUsages).2 !! name)
    = default [] (components !! name)
      ++ filter (λ u, ru_resolvedName u = name ∧ isDependencyEdge u = false) resolvedUsages.
Proof.
  induction resolvedUsages as [|u us IH]; intros dependents components; cbn [foldl].
  - simpl. by rewrite app_nil_r.
  - rewrite partitionUsage_step.
    rewrite filter_cons. destruct (isDependencyEdge u) eqn:Hedge.
    + rewrite IH. destruct (decide _) as [[_ ?]|_]; [done | reflexivity].
    + rewrite IH. destruct (decide (ru_resolvedName u = name)) as [->|Hne].
      * rewrite lookup_insert_eq. simpl.
        destruct (decide _) as [_|Hn]; [| by destruct Hn].
        by rewrite <- app_assoc.
      * rewrite lookup_insert_ne by done.
        destruct (decide _) as [[? _]|_]; [done | reflexivity].
Qed.

Lemma partitionUsage_components_key resolvedUsages name :
  ∀ dependents components,
    (foldl partitionUsage (dependents, components) resolvedUsages).2 !! name = None
    ↔ components !! name = None
      ∧ filter (λ u, ru_resolvedName u = name ∧ isDependencyEdge u = false)
               resolvedUsages = [].
Proof.
  induction resolvedUsages as [|u us IH]; intros dependents components; cbn [foldl].
  - simpl. naive_solver.
  - rewrite partitionUsage_step.
    rewrite filter_cons. destruct (isDependencyEdge u) eqn:Hedge.
    + rewrite IH. destruct (decide _) as [[_ ?]|_]; [done | reflexivity].
    + rewrite IH. destruct (decide (ru_resolvedName u = name)) as [->|Hne].
      * rewrite lookup_insert_eq.
        destruct (decide _) as [_|Hn]; [| by destruct Hn]. naive_solver.
      * rewrite lookup_insert_ne by done.
        destruct (decide _) as [[? _]|_]; [done | reflexivity].
Qed.

(** X1.  The component usages that the built graph files under a name are
    exactly the resolved usages of that name that are not selector
    dependency edges, in their original order; the name is a key of the
    map only when there is at least one. *)
Theorem buildDependencyGraph_componentUsages extraction resolvedUsages name :
  let graph := buildDependencyGraph extraction resolvedUsages in
  let kept :=
    filter (λ u, ru_resolvedName u = name ∧ isDependencyEdge u = false) resolvedUsages in
  default [] (componentUsages graph !! name) = kept
  ∧ (componentUsages graph !! name = None ↔ kept = []).
Proof.
  intros graph kept. subst graph kept. unfold buildDependencyGraph.
  pose proof (partitionUsage_components resolvedUsages name ∅ ∅) as Hc.
  pose proof (partitionUsage_components_key resolvedUsages name ∅ ∅) as Hk.
  destruct (foldl partitionUsage (∅, ∅) resolvedUsages) as [dependents components].
  simpl in *. rewrite lookup_empty in Hc. split; [exact Hc |].
  rewrite Hk, lookup_empty. naive_solver.
Qed.

Lemma setAdd_NoDup x s : NoDup s → NoDup (setAdd x s).
Proof.
  intros Hnd. unfold setAdd. destruct (decide (x ∈ s)); [done |].
  apply NoDup_app. split_and!; [done | | apply NoDup_singleton].
  intros y Hy Hy'. apply list_elem_of_singleton in Hy'. by subst.
Qed.

Lemma setAdd_elem_of x y s : y ∈ setAdd x s ↔ y = x ∨ y ∈ s.
Proof.
  unfold setAdd. destruct (decide (x ∈ s)).
  - naive_solver.
  - rewrite elem_of_app, list_elem_of_singleton. naive_solver.
Qed.

Lemma isDependencyEdge_true u :
  isDependencyEdge u = true
  ↔ ∃ selector, u_hook (ru_usage u) = "get(selector)"
                ∧ u_enclosingDefinition (ru_usage u) = Some selector
                ∧ selector ≠ EmptyString.
Proof.
  unfold isDependencyEdge, truthy. rewrite andb_true_iff, bool_decide_eq_true.
  destruct (u_enclosingDefinition (ru_usage u)) as [s|].
  - rewrite negb_true_iff. split.
    + intros [Hh Hs]. exists s. split_and!; [done | done |].
      intros ->. by rewrite String.eqb_refl in Hs.
    + intros (s' & Hh & [= <-] & Hne). split; [done |].
      by apply String.eqb_neq.
  - split; [by intros [_ ?] | by intros (? & _ & ? & _)].
Qed.

Lemma partitionUsage_dependents resolvedUsages name :
  ∀ dependents components,
    NoDup (default [] (dependents !! name)) →
    let result := (foldl partitionUsage (dependents, components) resolvedUsages).1 in
    NoDup (default [] (result !! name))
    ∧ ∀ selector,
        selector ∈ default [] (result !! name)
        ↔ selector ∈ default [] (dependents !! name)
          ∨ ∃ u, u ∈ resolvedUsages ∧ dependsThrough name selector u.
Proof.
  induction resolvedUsages as [|u us IH]; intros dependents components Hnd; cbn [foldl].
  - simpl. split; [done |]. intros selector. split; [by left |].
    intros [?|(u & Hu%elem_of_nil & _)]; done.
  - rewrite partitionUsage_step.
    destruct (isDependencyEdge u) eqn:Hedge.
    + apply isDependencyEdge_true in Hedge as (s & Hh & He & Hs).
      rewrite He. simpl.
      destruct (decide (ru_resolvedName u = name)) as [Hname|Hne].
      * edestruct (IH (<[ru_resolvedName u := setAdd s (default [] (dependents !! ru_resolvedName u))]> dependents) components) as [Hnd' Hin'].
        { rewrite Hname, lookup_insert_eq. simpl. by apply setAdd_NoDup. }
        split; [exact Hnd' |]. intros selector. rewrite Hin'.
        rewrite Hname, lookup_insert_eq. simpl. rewrite setAdd_elem_of.
        split.
        -- intros [[->|?]|(u' & Hu' & Hd)].
           ++ right. exists u. split; [apply elem_of_cons; by left | done].
           ++ by left.
           ++ right. exists u'. split; [apply elem_of_cons; by right | done].
        -- intros [?|(u' & Hu' & Hd)]; [left; by right |].
           apply elem_of_cons in Hu' as [->|Hu'].
           ++ left. left. destruct Hd as (_ & _ & Hd & _). congruence.
           ++ right. eauto.
      * edestruct (IH (<[ru_resolvedName u := setAdd s (default [] (dependents !! ru_resolvedName u))]> dependents) components) as [Hnd' Hin'].
        { by rewrite lookup_insert_ne. }
        split; [exact Hnd' |]. intros selector. rewrite Hin'.
        rewrite lookup_insert_ne by done. split.
        -- intros [?|(u' & Hu' & Hd)]; [by left |].
           right. exists u'. split; [apply elem_of_cons; by right | done].
        -- intros [?|(u' & Hu' & Hd)]; [by left |].
           apply elem_of_cons in Hu' as [->|Hu']; [by destruct Hd | right; eauto].
    + destruct (IH dependents
                  (<[ru_resolvedName u := default [] (components !! ru_resolvedName u) ++ [u]]> components) Hnd)
        as [Hnd' Hin'].
      split; [exact Hnd' |]. intros selector. rewrite Hin'. split.
      * intros [?|(u' & Hu' & Hd)]; [by left |].
        right. exists u'. split; [apply elem_of_cons; by right | done].
      * intros [?|(u' & Hu' & Hd)]; [by left |].
        apply elem_of_cons in Hu' as [->|Hu']; [| right; eauto].
        exfalso. assert (isDependencyEdge u = true) as Ht; [| congruence].
        apply isDependencyEdge_true. destruct Hd as (_ & ? & ? & ?). eauto.
Qed.

(** X2.  The dependent selectors that the built graph lists under a name
    are pairwise distinct, and a selector is listed exactly when some
    resolved usage of that name was read by [get] inside that selector's
    body. *)
Theorem buildDependencyGraph_dependentSelectors extraction resolvedUsages name :
  let graph := buildDependencyGraph extraction resolvedUsages in
  NoDup (dependentsOf graph name)
  ∧ ∀ selector,
      selector ∈ dependentsOf graph name
      ↔ ∃ u, u ∈ resolvedUsages
             ∧ ru_resolvedName u = name
             ∧ u_hook (ru_usage u) = "get(selector)"
             ∧ u_enclosingDefinition (ru_usage u) = Some selector
             ∧ selector ≠ EmptyString.
Proof.
  intros graph. subst graph. unfold dependentsOf, buildDependencyGraph.
  destruct (partitionUsage_dependents resolvedUsages name ∅ ∅) as [Hnd Hin].
  { rewrite lookup_empty. constructor. }
  destruct (foldl partitionUsage (∅, ∅) resolvedUsages) as [dependents components].
  simpl in *. split; [exact Hnd |]. intros selector. rewrite Hin, lookup_empty.
  simpl. split.
  - intros [Hnil%elem_of_nil|Hu]; [done | exact Hu].
  - intros Hu. by right.
Qed.

Lemma indexDefinitions_last defs name :
  indexDefinitions defs !! name = last (filter (λ d, def_name d = name) defs).
Proof.
  unfold indexDefinitions. induction defs as [|d defs IH] using rev_ind.
  - apply lookup_empty.
  - rewrite foldl_app, filter_app. simpl. rewrite filter_cons, filter_nil.
    destruct (decide (def_name d = name)) as [->|Hne].
    + by rewrite lookup_insert_eq, last_snoc.
    + rewrite lookup_insert_ne by done. by rewrite app_nil_r.
Qed.

(** X3.  The definitions map of the built graph is keyed by name only:
    a name maps to the last definition of the extraction that bears it,
    so of two definitions with one name in different files only the later
    one can be a target; and every stored definition bears its key. *)
Theorem buildDependencyGraph_definitions_last_wins extraction resolvedUsages name :
  let graph := buildDependencyGraph extraction resolvedUsages in
  definitions graph !! name
  = last (filter (λ d, def_name d = name) (recoilDefinitions extraction))
  ∧ ∀ d, definitions graph !! name = Some d →
         def_name d = name ∧ d ∈ recoilDefinitions extraction.
Proof.
  intros graph. subst graph. rewrite buildDependencyGraph_definitions.
  rewrite indexDefinitions_last. split; [done |].
  intros d Hlast. apply last_Some in Hlast as [l' Heq].
  assert (d ∈ filter (λ d, def_name d = name) (recoilDefinitions extraction)) as Hin.
  { rewrite Heq. apply elem_of_app. right. by apply list_elem_of_singleton. }
  by apply list_elem_of_filter in Hin.
Qed.

(** ** The traversal, level by level *)

(** What the loop maintains and what it delivers: the emitted list only
    grows, stays ordered by depth, answers every queue entry within the
    cap, and is closed under the edges of every entry below the cap. *)
Lemma bfsLoop_levels graph fuel :
  ∀ queue visited acc result lo,
    bfsLoop fuel graph queue visited acc = Done result →
    (∀ name, name ∈ visited → ∃ t, t ∈ acc ∧ t_via t = name) →
    Forall (λ t, t_depth t ≤ lo) acc →
    StronglySorted le (map t_depth acc) →
    StronglySorted le (map q_depth queue) →
    Forall (λ q, lo ≤ q_depth q ≤ lo + 1) queue →
    ∃ ext,
      result = acc ++ ext
      ∧ StronglySorted le (map t_depth result)
      ∧ (∀ q, q ∈ queue → q_depth q ≤ maxDepth →
              ∃ t, t ∈ result ∧ t_via t = q_selectorName q ∧ t_depth t ≤ q_depth q)
      ∧ (∀ t, t ∈ ext → t_depth t < maxDepth →
              ∀ next, next ∈ dependentsOf graph (t_via t) →
                      ∃ t', t' ∈ result ∧ t_via t' = next ∧ t_depth t' ≤ t_depth t + 1).
Proof.
  induction fuel as [|fuel IH]; intros queue visited acc result lo Hrun Hvis Hacc Hsa Hsq Hq.
  - destruct queue; [| done]. injection Hrun as <-. exists [].
    rewrite app_nil_r. split_and!; [done | done | |].
    + by intros q Hq'%elem_of_nil.
    + by intros t Ht%elem_of_nil.
  - destruct queue as [|entry rest].
    { injection Hrun as <-. exists []. rewrite app_nil_r. split_and!; [done | done | |].
      - by intros q Hq'%elem_of_nil.
      - by intros t Ht%elem_of_nil. }
    simpl in Hsq. apply StronglySorted_inv in Hsq as [Hsrest Hhead].
    apply Forall_cons in Hq as [Hentry Hrest].
    destruct (decide (maxDepth < q_depth entry)) as [Hd|Hd].
    { rewrite bfsLoop_skip_depth in Hrun by done.
      destruct (IH rest visited acc result lo Hrun Hvis Hacc Hsa Hsrest Hrest)
        as (ext & Heq & Hsorted & Hans & Hclosed).
      exists ext. split_and!; [done | done | | done].
      intros q Hin Hcap. apply elem_of_cons in Hin as [->|Hin]; [lia | by apply Hans]. }
    destruct (decide (q_selectorName entry ∈ visited)) as [Hv|Hv].
    { rewrite bfsLoop_skip_visited in Hrun by done.
      destruct (IH rest visited acc result lo Hrun Hvis Hacc Hsa Hsrest Hrest)
        as (ext & Heq & Hsorted & Hans & Hclosed).
      exists ext. split_and!; [done | done | | done].
      intros q Hin Hcap. apply elem_of_cons in Hin as [->|Hin]; [| by apply Hans].
      destruct (Hvis _ Hv) as (t & Ht & Hname).
      exists t. split_and!; [rewrite Heq; apply elem_of_app; by left | done |].
      rewrite Forall_forall in Hacc. specialize (Hacc t Ht). lia. }
    rewrite bfsLoop_visit in Hrun by (done || lia).
    destruct entry as [name depth]. simpl in *.
    set (visited' := {[name]} ∪ visited) in *.
    set (pushed := map (λ next, mkEntry next (depth + 1))
                       (filter (λ next, next ∉ visited') (dependentsOf graph name))) in *.
    destruct (IH (rest ++ pushed) visited' (acc ++ [transitiveEntry graph name depth])
                 result depth Hrun) as (ext & Heq & Hsorted & Hans & Hclosed).
    + intros n Hn. apply elem_of_union in Hn as [Hn|Hn].
      * apply elem_of_singleton in Hn. subst n.
        exists (transitiveEntry graph name depth). split; [| done].
        apply elem_of_app. right. by apply list_elem_of_singleton.
      * destruct (Hvis n Hn) as (t & Ht & Hname). exists t. split; [| done].
        apply elem_of_app. by left.
    + apply Forall_app. split.
      * eapply Forall_impl; [exact Hacc |]. simpl. intros t Ht. lia.
      * apply Forall_singleton. simpl. lia.
    + rewrite map_app. apply StronglySorted_app_2; [| done |].
      * intros x1 x2 Hx1 Hx2. simpl in Hx2. apply list_elem_of_singleton in Hx2. subst x2.
        apply list_elem_of_fmap in Hx1 as (t & -> & Ht).
        rewrite Forall_forall in Hacc. specialize (Hacc t Ht). lia.
      * simpl. repeat constructor.
    + rewrite map_app. apply StronglySorted_app_2; [| done |].
      * intros x1 x2 Hx1 Hx2.
        apply list_elem_of_fmap in Hx1 as (q1 & -> & Hq1).
        apply list_elem_of_fmap in Hx2 as (q2 & -> & Hq2).
        unfold pushed in Hq2. apply list_elem_of_fmap in Hq2 as (next & -> & _). simpl.
        rewrite Forall_forall in Hrest. specialize (Hrest q1 Hq1). lia.
      * unfold pushed. rewrite <- list_fmap_compose.
        generalize (filter (λ next, next ∉ visited') (dependentsOf graph name)).
        intros l. induction l as [|x l IHl]; simpl; [constructor |].
        constructor; [exact IHl |]. apply Forall_forall. intros y Hy.
        apply list_elem_of_fmap in Hy as (? & -> & _). simpl. lia.
    + apply Forall_app. split.
      * apply Forall_forall. intros q Hin. split.
        -- rewrite Forall_forall in Hhead. apply Hhead. apply list_elem_of_fmap. eauto.
        -- rewrite Forall_forall in Hrest. specialize (Hrest q Hin). lia.
      * unfold pushed. apply Forall_forall. intros q Hin.
        apply list_elem_of_fmap in Hin as (next & -> & _). simpl. lia.
    + exists (transitiveEntry graph name depth :: ext).
      split_and!; [by rewrite Heq, <- app_assoc | done | |].
      * intros q Hin Hcap. apply elem_of_cons in Hin as [->|Hin].
        -- exists (transitiveEntry graph name depth). simpl. split_and!; [| done | done].
           rewrite Heq. apply elem_of_app. left. apply elem_of_app. right.
           by apply list_elem_of_singleton.
        -- apply Hans; [| done]. apply elem_of_app. by left.
      * intros t Hin Hcap next Hnext. apply elem_of_cons in Hin as [->|Hin].
        -- simpl in *. destruct (decide (next ∈ visited')) as [Hseen|Hnew].
           ++ assert (∃ t, t ∈ acc ++ [transitiveEntry graph name depth]
                           ∧ t_via t = next ∧ t_depth t ≤ depth) as (t & Ht & Hn & Hdt).
              { apply elem_of_union in Hseen as [Hseen|Hseen].
                - apply elem_of_singleton in Hseen. subst next.
                  exists (transitiveEntry graph name depth). split_and!; [| done | done].
                  apply elem_of_app. right. by apply list_elem_of_singleton.
                - destruct (Hvis next Hseen) as (t & Ht & Hname). exists t.
                  split_and!; [apply elem_of_app; by left | done |].
                  rewrite Forall_forall in Hacc. specialize (Hacc t Ht). lia. }
              exists t. split_and!; [| done | lia].
              rewrite Heq. apply elem_of_app. by left.
           ++ destruct (Hans (mkEntry next (depth + 1))) as (t & Ht & Hn & Hdt).
              { apply elem_of_app. right. unfold pushed. apply list_elem_of_fmap.
                exists next. split; [done |]. by apply list_elem_of_filter. }
              { simpl. lia. }
              exists t. simpl in *. split_and!; [done | done | lia].
        -- by apply Hclosed.
Qed.

Lemma seedQueue_levels graph atomName :
  StronglySorted le (map q_depth (seedQueue graph atomName))
  ∧ Forall (λ q, 0 ≤ q_depth q ≤ 0 + 1) (seedQueue graph atomName).
Proof.
  unfold seedQueue. generalize (dependentsOf graph atomName). intros l.
  induction l as [|x l [IH1 IH2]]; simpl; [split; constructor |]. split.
  - constructor; [done |]. apply Forall_forall. intros y Hy.
    apply list_elem_of_fmap in Hy as (q & -> & Hq).
    apply list_elem_of_fmap in Hq as (? & -> & _). simpl. lia.
  - constructor; [simpl; lia | done].
Qed.

(** The traversal from a target, with all it delivers. *)
Lemma analyzeAtomImpact_levels fuel graph atomName options definition :
  definitions graph !! atomName = Some definition →
  bfsBound graph atomName ≤ fuel →
  ∃ result,
    analyzeAtomImpact fuel graph atomName options = Done (Some result)
    ∧ StronglySorted le (map t_depth (transitive result))
    ∧ (∀ selector, selector ∈ dependentsOf graph atomName →
                   ∃ t, t ∈ transitive result ∧ t_via t = selector ∧ t_depth t ≤ 1)
    ∧ (∀ t, t ∈ transitive result → t_depth t < maxDepth →
            ∀ next, next ∈ dependentsOf graph (t_via t) →
                    ∃ t', t' ∈ transitive result ∧ t_via t' = next
                          ∧ t_depth t' ≤ t_depth t + 1).
Proof.
  intros Hdef Hfuel.
  destruct (analyzeAtomImpact_found fuel graph atomName options definition Hdef Hfuel)
    as (result & trans & Hrun & Hloop & Htrans & _).
  exists result. split; [done |]. rewrite Htrans.
  destruct (seedQueue_levels graph atomName) as [Hsorted Hspan].
  destruct (bfsLoop_levels graph fuel _ _ _ _ 0 Hloop) as (ext & Heq & Hs & Hans & Hclosed);
    [by intros name Hn%elem_of_empty | constructor | constructor | done | done |].
  simpl in Heq. subst ext. split_and!; [done | | done].
  intros selector Hsel. apply (Hans (mkEntry selector 1)); [| cap_lia].
  unfold seedQueue. apply list_elem_of_fmap. eauto.
Qed.

(** X4.  Breadth-first order: the transitive list is ordered by depth,
    every selector of one level comes before every selector of the
    next. *)
Theorem transitive_sorted_by_depth fuel graph atomName definition options :
  definitions graph !! atomName = Some definition →
  bfsBound graph atomName ≤ fuel →
  ∃ result,
    analyzeAtomImpact fuel graph atomName options = Done (Some result)
    ∧ StronglySorted le (map t_depth (transitive result)).
Proof.
  intros Hdef Hfuel.
  destruct (analyzeAtomImpact_levels fuel graph atomName options definition Hdef Hfuel)
    as (result & Hrun & Hsorted & _).
  by exists result.
Qed.

(** X5.  Completeness of the traversal: every selector that depends on
    the target through at most [maxDepth] edges is reported, at a depth no
    larger than the number of edges. *)
Theorem transitive_complete_within_cap fuel graph atomName definition options :
  definitions graph !! atomName = Some definition →
  bfsBound graph atomName ≤ fuel →
  ∃ result,
    analyzeAtomImpact fuel graph atomName options = Done (Some result)
    ∧ ∀ hops selector,
        dependsWithin graph atomName hops selector →
        hops ≤ maxDepth →
        ∃ t, t ∈ transitive result ∧ t_via t = selector ∧ t_depth t ≤ hops.
Proof.
  intros Hdef Hfuel.
  destruct (analyzeAtomImpact_levels fuel graph atomName options definition Hdef Hfuel)
    as (result & Hrun & _ & Hseeds & Hclosed).
  exists result. split; [done |].
  intros hops selector Hpath. induction Hpath as [selector Hsel|hops via selector Hpath IH Hsel];
    intros Hcap.
  - by apply Hseeds.
  - destruct IH as (t & Ht & Hvia & Hdepth); [lia |].
    destruct (Hclosed t Ht ltac:(lia) selector) as (t' & Ht' & Hvia' & Hdepth').
    { by rewrite Hvia. }
    exists t'. split_and!; [done | done | lia].
Qed.

Lemma bfsLoop_sound graph atomName fuel :
  let justified name depth t :=
    t_via t = name ∧ t_depth t = depth ∧ t = transitiveEntry graph name depth in
  ∀ queue visited acc result,
    bfsLoop fuel graph queue visited acc = Done result →
    Forall (λ q, dependsWithin graph atomName (q_depth q) (q_selectorName q)) queue →
    Forall (λ t, dependsWithin graph atomName (t_depth t) (t_via t)
                 ∧ justified (t_via t) (t_depth t) t) acc →
    Forall (λ t, dependsWithin graph atomName (t_depth t) (t_via t)
                 ∧ justified (t_via t) (t_depth t) t) result.
Proof.
  intros justified.
  induction fuel as [|fuel IH]; intros queue visited acc result Hrun Hq Hacc.
  - destruct queue; [| done]. by injection Hrun as <-.
  - destruct queue as [|entry rest]; [by injection Hrun as <- |].
    apply Forall_cons in Hq as [Hentry Hrest].
    destruct (decide (maxDepth < q_depth entry)) as [Hd|Hd].
    { rewrite bfsLoop_skip_depth in Hrun by done. eauto. }
    destruct (decide (q_selectorName entry ∈ visited)) as [Hv|Hv].
    { rewrite bfsLoop_skip_visited in Hrun by done. eauto. }
    rewrite bfsLoop_visit in Hrun by (done || lia).
    eapply IH; [exact Hrun | |].
    + apply Forall_app. split; [done |]. apply Forall_forall. intros q Hin.
      apply list_elem_of_fmap in Hin as (next & -> & Hnext). simpl.
      apply list_elem_of_filter in Hnext as [_ Hnext].
      replace (q_depth entry + 1) with (S (q_depth entry)) by lia.
      by eapply within_step.
    + apply Forall_app. split; [done |]. apply Forall_singleton. by split.
Qed.

Lemma NoDup_fmap_eq {A B} (f : A → B) (l : list A) x y :
  NoDup (map f l) → x ∈ l → y ∈ l → f x = f y → x = y.
Proof.
  induction l as [|z l IH]; intros Hnd Hx Hy Heq; [by apply elem_of_nil in Hx |].
  simpl in Hnd. apply NoDup_cons in Hnd as [Hz Hnd].
  apply elem_of_cons in Hx as [->|Hx]; apply elem_of_cons in Hy as [->|Hy].
  - done.
  - destruct Hz. rewrite Heq. apply list_elem_of_fmap. eauto.
  - destruct Hz. rewrite <- Heq. apply list_elem_of_fmap. eauto.
  - by apply IH.
Qed.

(** X6.  Soundness of the traversal, and the meaning of [depth]: every
    entry of the transitive list names a selector that does depend on the
    target through [depth] edges of the graph, no shorter chain exists,
    and the entry carries the definition and the reader and setter usages
    that the graph holds for that selector. *)
Theorem transitive_depth_is_shortest_chain fuel graph atomName definition options :
  definitions graph !! atomName = Some definition →
  bfsBound graph atomName ≤ fuel →
  ∃ result,
    analyzeAtomImpact fuel graph atomName options = Done (Some result)
    ∧ ∀ t, t ∈ transitive result →
           dependsWithin graph atomName (t_depth t) (t_via t)
           ∧ (∀ hops, dependsWithin graph atomName hops (t_via t) → t_depth t ≤ hops)
           ∧ t = transitiveEntry graph (t_via t) (t_depth t).
Proof.
  intros Hdef Hfuel.
  destruct (analyzeAtomImpact_levels fuel graph atomName options definition Hdef Hfuel)
    as (result & Hrun & _ & Hseeds & Hclosed).
  destruct (analyzeAtomImpact_found fuel graph atomName options definition Hdef Hfuel)
    as (result' & trans & Hrun' & Hloop & Htrans & _).
  rewrite Hrun in Hrun'. injection Hrun' as <-. subst trans.
  exists result. split; [done |].
  destruct (bfsLoop_invariant graph fuel _ _ _ _ bfsInvariant_empty Hloop)
    as (visited & Hnd & _ & Hcap).
  assert (Forall (λ t, dependsWithin graph atomName (t_depth t) (t_via t)
                       ∧ t_via t = t_via t ∧ t_depth t = t_depth t
                       ∧ t = transitiveEntry graph (t_via t) (t_depth t))
                 (transitive result)) as Hsound.
  { apply (bfsLoop_sound graph atomName fuel _ _ _ _ Hloop); [| constructor].
    unfold seedQueue. apply Forall_forall. intros q Hin.
    apply list_elem_of_fmap in Hin as (selector & -> & Hsel). by constructor. }
  rewrite Forall_forall in Hsound. rewrite Forall_forall in Hcap.
  intros t Ht. destruct (Hsound t Ht) as (Hpath & _ & _ & Hentry).
  split_and!; [done | | done].
  intros hops Hhops. destruct (decide (hops ≤ maxDepth)) as [Hle|Hgt].
  - assert (∃ t', t' ∈ transitive result ∧ t_via t' = t_via t ∧ t_depth t' ≤ hops)
      as (t' & Ht' & Hvia & Hdepth).
    { clear Hentry Hpath. remember (t_via t) as selector eqn:Hsel. clear Hsel.
      induction Hhops as [selector Hsel|hops via selector Hp IH Hsel].
      - destruct (Hseeds selector Hsel) as (t' & ? & ? & ?). exists t'.
        split_and!; [done | done | lia].
      - destruct IH as (t1 & Ht1 & Hvia1 & Hdepth1); [lia |].
        destruct (Hclosed t1 Ht1 ltac:(lia) selector) as (t2 & Ht2 & Hvia2 & Hdepth2).
        { by rewrite Hvia1. }
        exists t2. split_and!; [done | done | lia]. }
    assert (t' = t) as -> by (by eapply NoDup_fmap_eq). done.
  - specialize (Hcap t Ht). simpl in Hcap. lia.
Qed.

Lemma filter_by_type_partition (l : list ResolvedUsage) :
  filter (λ u, usageType u = Reader) l
  ++ filter (λ u, usageType u = Setter) l
  ++ filter (λ u, usageType u = Initializer) l ≡ₚ l.
Proof.
  induction l as [|u l IH]; [done |].
  rewrite !filter_cons. destruct (usageType u) eqn:Htype; simpl.
  - by rewrite IH.
  - rewrite <- Permutation_middle. by rewrite IH.
  - rewrite app_assoc, <- Permutation_middle, <- app_assoc. by rewrite IH.
Qed.

(** X7.  Without coverage options the three direct lists partition the
    target's component usages: every usage the graph files under the
    target is reported in exactly one of readers, setters and
    initializers, and nothing else is. *)
Theorem direct_lists_partition_usages fuel graph atomName definition :
  definitions graph !! atomName = Some definition →
  bfsBound graph atomName ≤ fuel →
  ∃ result,
    analyzeAtomImpact fuel graph atomName None = Done (Some result)
    ∧ readers (direct result) ++ setters (direct result) ++ initializers (direct result)
      ≡ₚ default [] (componentUsages graph !! atomName).
Proof.
  intros Hdef Hfuel.
  destruct (bfsLoop_terminates graph fuel (seedQueue graph atomName) ∅ [] Hfuel)
    as [trans Htrans].
  unfold analyzeAtomImpact. rewrite Hdef, Htrans. simpl.
  eexists. split; [reflexivity |]. simpl. apply filter_by_type_partition.
Qed.

Lemma size_list_to_set_le (l : list string) :
  size (list_to_set l : gset string) ≤ length l.
Proof.
  induction l as [|x l IH]; [rewrite list_to_set_nil, size_empty; simpl; lia |].
  rewrite list_to_set_cons, size_union_alt, size_singleton. simpl length.
  assert (size ((list_to_set l : gset string) ∖ {[x]}) ≤ size (list_to_set l : gset string)).
  { apply subseteq_size. set_solver. }
  lia.
Qed.

Lemma size_union_le (X Y : gset string) : size (X ∪ Y) ≤ size X + size Y.
Proof.
  rewrite size_union_alt.
  assert (size (Y ∖ X) ≤ size Y) by (apply subseteq_size; set_solver). lia.
Qed.

(** X8.  The summary counts are consistent: the selector count is the
    length of the transitive list, the component files are among the
    files, at most one further file is counted per transitive selector,
    and there are no more component files than direct usages plus
    transitive usages. *)
Theorem summary_counts_consistent fuel graph atomName definition options :
  definitions graph !! atomName = Some definition →
  bfsBound graph atomName ≤ fuel →
  ∃ result,
    analyzeAtomImpact fuel graph atomName options = Done (Some result)
    ∧ totalSelectors (summary result) = length (transitive result)
    ∧ totalComponents (summary result) ≤ totalFiles (summary result)
    ∧ totalFiles (summary result)
      ≤ totalComponents (summary result) + totalSelectors (summary result)
    ∧ totalComponents (summary result)
      ≤ length (readers (direct result)) + length (setters (direct result))
        + length (initializers (direct result))
        + sum_list_with (λ t, length (t_readers t) + length (t_setters t))
                        (transitive result).
Proof.
  intros Hdef Hfuel.
  destruct (bfsLoop_terminates graph fuel (seedQueue graph atomName) ∅ [] Hfuel)
    as [trans Htrans].
  unfold analyzeAtomImpact. rewrite Hdef, Htrans. simpl.
  eexists. split; [reflexivity |]. simpl. split_and!.
  - done.
  - apply subseteq_size. set_solver.
  - etransitivity; [apply size_union_le |]. apply Nat.add_le_mono_l.
    unfold transitiveDefinitionFiles. etransitivity; [apply size_list_to_set_le |].
    etransitivity; [apply length_filter |]. by rewrite length_map.
  - etransitivity; [apply size_union_le |]. apply Nat.add_le_mono.
    + unfold usageFiles. etransitivity; [apply size_list_to_set_le |].
      rewrite length_map, !length_app. lia.
    + unfold transitiveUsageFiles. generalize trans. intros l.
      induction l as [|t l IH];
        [change (size (∅ : gset string) ≤ 0); by rewrite size_empty |].
      cbn [map union_list sum_list_with foldr].
      etransitivity; [apply size_union_le |]. apply Nat.add_le_mono; [| exact IH].
      unfold usageFiles. etransitivity; [apply size_list_to_set_le |].
      by rewrite length_map, length_app.
Qed.

(** ** The writers section of the report *)

Lemma filter_length_all {A} (P : A → Prop) `{∀ x, Decision (P x)} (l : list A) :
  Forall P l → length (filter P l) = length l.
Proof.
  induction 1 as [|x l Hx Hl IH]; [done |].
  rewrite filter_cons. destruct (decide (P x)); [simpl; by rewrite IH | done].
Qed.

Lemma filter_length_none {A} (P : A → Prop) `{∀ x, Decision (P x)} (l : list A) :
  Forall (λ x, ¬ P x) l → length (filter P l) = 0.
Proof.
  induction 1 as [|x l Hx Hl IH]; [done |].
  rewrite filter_cons. destruct (decide (P x)); [done | exact IH].
Qed.

(** X9.  Coverage mode, from the engine to the report: every direct
    setter of the result is tagged, the runtime entries are as many as the
    callsites of the target and the fallback entries as many as its setter
    usages with an unresolved key, and when there is any setter the
    section printed for them opens with a [WRITERS] header that states
    these two counts, followed by one line per setter. *)
Theorem coverage_writers_section
    (relativePath : string → string → string)
    fuel graph atomName definition options targetDirectory :
  definitions graph !! atomName = Some definition →
  bfsBound graph atomName ≤ fuel →
  let runtime := filter (λ c, c_atomName c = atomName) (runtimeCallsites options) in
  let fallback :=
    filter (λ f, factoryKey f ∉ resolvedFactoryKeys options)
           (filter (λ u, usageType u = Setter)
                   (default [] (componentUsages graph !! atomName))) in
  ∃ result,
    analyzeAtomImpact fuel graph atomName (Some options) = Done (Some result)
    ∧ Forall (λ s, is_Some (ru_writerKind s)) (setters (direct result))
    ∧ length (setters (direct result)) = length runtime + length fallback
    ∧ (setters (direct result) ≠ [] →
       formatSetterSection relativePath (setters (direct result)) targetDirectory
       = ("    WRITERS (" +:+ pretty (length runtime) +:+ " runtime, "
          +:+ pretty (length fallback) +:+ " fallback):")
           :: map (λ usage, formatWriterLine relativePath usage targetDirectory)
                  (setters (direct result))).
Proof.
  intros Hdef Hfuel runtime fallback.
  destruct (analyzeAtomImpact_found fuel graph atomName (Some options) definition
              Hdef Hfuel) as (result & trans & Hrun & _ & _ & Hset).
  exists result. split; [done |]. simpl in Hset. fold runtime in Hset. fold fallback in Hset.
  rewrite Hset.
  assert (Forall (λ s, ru_writerKind s = Some Runtime) (map (runtimeUsage definition) runtime))
    as Hruntime by (apply Forall_forall; by intros s (c & -> & _)%list_elem_of_fmap).
  assert (Forall (λ s, ru_writerKind s = Some Fallback) (map markFallback fallback))
    as Hfallback by (apply Forall_forall; by intros s (c & -> & _)%list_elem_of_fmap).
  split_and!.
  - apply Forall_app. split.
    + eapply Forall_impl; [exact Hruntime |]. intros s ->. by eexists.
    + eapply Forall_impl; [exact Hfallback |]. intros s ->. by eexists.
  - by rewrite length_app, !length_map.
  - intros Hne. unfold formatSetterSection.
    assert (isCoverageMode (map (runtimeUsage definition) runtime ++ map markFallback fallback)
            = true) as ->.
    { unfold isCoverageMode. apply existsb_exists.
      destruct (map (runtimeUsage definition) runtime ++ map markFallback fallback)
        as [|s l] eqn:Heq; [done |].
      exists s. split; [by left |]. apply bool_decide_eq_true.
      assert (s ∈ map (runtimeUsage definition) runtime ++ map markFallback fallback) as Hin
        by (rewrite Heq; by left).
      apply elem_of_app in Hin as [Hin|Hin].
      - rewrite Forall_forall in Hruntime. by rewrite (Hruntime s Hin).
      - rewrite Forall_forall in Hfallback. by rewrite (Hfallback s Hin). }
    rewrite !filter_app, !length_app.
    rewrite (filter_length_all _ _ Hruntime).
    rewrite (filter_length_all _ _ Hfallback).
    rewrite (filter_length_none (λ s, ru_writerKind s = Some Runtime) (map markFallback fallback)).
    2: { eapply Forall_impl; [exact Hfallback |]. intros s ->. done. }
    rewrite (filter_length_none (λ s, ru_writerKind s = Some Fallback)
               (map (runtimeUsage definition) runtime)).
    2: { eapply Forall_impl; [exact Hruntime |]. intros s ->. done. }
    rewrite !length_map. by rewrite Nat.add_0_r.
Qed.

(** ** The git entry point *)

(** X10.  [analyzeGitImpact] on the graph built from an extraction, with
    fuel sufficient for its definitions, returns for every list of changed
    files: its result is the concatenation, in order, of what
    [analyzeFileImpact] returns for each file (a file listed twice is
    analysed twice, a file without definitions contributes nothing). *)
Theorem analyzeGitImpact_concatenates_files
    (pathResolve : string → string) fuel extraction resolvedUsages changedFiles options :
  let graph := buildDependencyGraph extraction resolvedUsages in
  Forall (λ d, bfsBound graph (def_name d) ≤ fuel) (recoilDefinitions extraction) →
  ∃ perFile,
    Forall2 (λ filePath results,
               analyzeFileImpact pathResolve fuel graph filePath extraction options
               = Done results) changedFiles perFile
    ∧ analyzeGitImpact pathResolve fuel graph changedFiles extraction options
      = Done (concat perFile).
Proof.
  intros graph Hfuel.
  assert (∀ filePath, ∃ results,
             analyzeFileImpact pathResolve fuel graph filePath extraction options
             = Done results) as Hfile.
  { intros filePath. unfold analyzeFileImpact.
    destruct (analyzeDefinitions_all fuel graph options
                (filter (λ d, def_file d = pathResolve filePath)
                        (recoilDefinitions extraction)) []) as (out & Hrun & _).
    - rewrite Forall_forall in Hfuel. apply Forall_forall. intros d Hd.
      apply list_elem_of_filter in Hd as [_ Hd]. split; [| by apply Hfuel].
      by apply buildDependencyGraph_indexes.
    - by exists out. }
  induction changedFiles as [|filePath rest (perFile & Hall & Hrun)].
  - exists []. split; [constructor | done].
  - destruct (Hfile filePath) as [here Hhere].
    exists (here :: perFile). split; [by constructor |].
    simpl. rewrite Hhere. simpl. by rewrite Hrun.
Qed.

(** ** The identifier resolver *)

Lemma lookupDefinition_insert (m : gmap string (gmap string string)) d file name :
  lookupDefinition
    (<[def_file d := <[def_name d := def_name d]> (default ∅ (m !! def_file d))]> m)
    file name
  = if decide (def_file d = file ∧ def_name d = name) then Some name
    else lookupDefinition m file name.
Proof.
  unfold lookupDefinition. destruct (decide (def_file d = file)) as [<-|Hf].
  - rewrite lookup_insert_eq. simpl.
    destruct (decide (def_name d = name)) as [<-|Hn].
    + rewrite lookup_insert_eq. by destruct (decide _) as [|[]].
    + rewrite lookup_insert_ne by done.
      destruct (decide _) as [[_ ?]|_]; [done |].
      by destruct (m !! def_file d).
  - rewrite lookup_insert_ne by done. by destruct (decide _) as [[? _]|_].
Qed.

(** The lookup table answers with the name itself, exactly for the
    (file, name) pairs of the recorded definitions. *)
Lemma buildDefinitionLookup_spec extraction file name resolved :
  lookupDefinition (buildDefinitionLookup extraction) file name = Some resolved
  ↔ resolved = name
    ∧ ∃ d, d ∈ recoilDefinitions extraction ∧ def_name d = name ∧ def_file d = file.
Proof.
  unfold buildDefinitionLookup. generalize (recoilDefinitions extraction) as defs.
  induction defs as [|d defs IH] using rev_ind.
  - simpl. unfold lookupDefinition. rewrite lookup_empty. simpl.
    split; [done |]. by intros (_ & d & Hd%elem_of_nil & _).
  - rewrite foldl_app. cbn [foldl]. rewrite lookupDefinition_insert.
    destruct (decide _) as [[Hf Hn]|Hno].
    + split.
      * intros [= <-]. split; [done |]. exists d.
        split_and!; [| done | done]. apply elem_of_app. right. by left.
      * by intros [-> _].
    + rewrite IH. split.
      * intros (-> & d' & Hd' & ? & ?). split; [done |]. exists d'.
        split_and!; [| done | done]. apply elem_of_app. by left.
      * intros (-> & d' & Hd' & ? & ?). split; [done |].
        apply elem_of_app in Hd' as [Hd'|Hd']; [by exists d' |].
        apply list_elem_of_singleton in Hd'. subst d'. by destruct Hno.
Qed.

(** Whatever [resolveExportedName] returns was found in the lookup table
    under the returned file. *)
Lemma resolveExportedName_sound graph definitionLookup fuel :
  ∀ file name depth visited r visited',
    resolveExportedName fuel file name graph definitionLookup depth visited
    = Done (Some r, visited') →
    ∃ name', lookupDefinition definitionLookup (definitionFile r) name'
             = Some (resolvedName r).
Proof.
  induction fuel as [|fuel IH]; intros file name depth visited r visited' Hrun; [done |].
  simpl in Hrun.
  destruct (decide (maxChainDepth < depth)); [done |].
  destruct (decide (_ ∈ visited)); [done |].
  destruct (lookupDefinition definitionLookup file name) as [resolved|] eqn:Hlocal.
  { injection Hrun as <- _. simpl. eauto. }
  destruct (graph !! file) as [fileInfo|] eqn:Hfile; [| done].
  assert (∀ pending visited2 visited',
             (fix stars (pending : list ReExportRecord) (visited2 : gset string)
                : outcome (option Resolution * gset string) :=
                match pending with
                | StarReExport sourceFile :: pending' =>
                  '(result, visited3) ←
                    resolveExportedName fuel sourceFile name graph definitionLookup
                                        (depth + 1) visited2;
                  match result with
                  | Some _ => Done (result, visited3)
                  | None => stars pending' visited3
                  end
                | NamedReExport _ _ _ :: pending' => stars pending' visited2
                | [] =>
                  match List.find (λ importRecord,
                                     bool_decide (i_localName importRecord = name))
                                  (imports fileInfo) with
                  | Some importRecord =>
                    resolveExportedName fuel (i_sourceFile importRecord)
                                        (i_exportedName importRecord)
                                        graph definitionLookup (depth + 1) visited2
                  | None => Done (None, visited2)
                  end
                end) pending visited2 = Done (Some r, visited') →
             ∃ name', lookupDefinition definitionLookup (definitionFile r) name'
                      = Some (resolvedName r)) as Hstars.
  { induction pending as [|[l e s|s] pending IHp]; intros visited2 v' Hstar.
    - destruct (List.find _ (imports fileInfo)) as [importRecord|]; [| done].
      by eapply IH.
    - by eapply IHp.
    - destruct (resolveExportedName fuel s name graph definitionLookup (depth + 1)
                  visited2) as [[inner visited3]|] eqn:Hinner; [| done].
      simpl in Hstar. destruct inner as [r'|].
      + injection Hstar as -> _. by eapply IH.
      + by eapply IHp. }
  destruct (List.find (isNamedFor name) (reExports fileInfo)) as [[l e s|s]|].
  - by eapply IH.
  - by eapply Hstars.
  - by eapply Hstars.
Qed.

Lemma resolveUsage_sound graph definitionLookup fuel resolved usage out :
  resolveUsage fuel graph definitionLookup resolved usage = Done out →
  out = resolved
  ∨ ∃ r, out = resolved ++ [r]
         ∧ ru_usage r = usage
         ∧ ru_writerKind r = None
         ∧ ∃ name', lookupDefinition definitionLookup (ru_definitionFile r) name'
                    = Some (ru_resolvedName r).
Proof.
  unfold resolveUsage.
  destruct (lookupDefinition _ _ _) as [localDefinition|] eqn:Hlocal.
  { intros [= <-]. right. eexists. split_and!; [done | done | done |]. simpl. eauto. }
  destruct (graph !! u_file usage) as [fileInfo|]; [| intros [= <-]; by left].
  destruct (List.find _ _) as [importRecord|]; [| intros [= <-]; by left].
  destruct (resolveExportedName fuel _ _ _ _ _ _) as [[result visited']|] eqn:Hrun; [| done].
  simpl. destruct result as [r|]; intros [= <-]; [| by left].
  right. eexists. split_and!; [done | done | done |]. simpl.
  by eapply resolveExportedName_sound.
Qed.

Lemma resolveAll_sound graph definitionLookup fuel :
  ∀ pending resolved out,
    resolveAll fuel graph definitionLookup resolved pending = Done out →
    ∃ ext,
      out = resolved ++ ext
      ∧ sublist (map ru_usage ext) pending
      ∧ Forall (λ r, ru_writerKind r = None
                     ∧ ∃ name', lookupDefinition definitionLookup (ru_definitionFile r) name'
                                = Some (ru_resolvedName r)) ext.
Proof.
  induction pending as [|usage pending IH]; intros resolved out Hrun; simpl in Hrun.
  - injection Hrun as <-. exists []. rewrite app_nil_r. split_and!; [done | constructor | constructor].
  - destruct (resolveUsage fuel graph definitionLookup resolved usage) as [step|] eqn:Hstep;
      [| done].
    simpl in Hrun. destruct (IH step out Hrun) as (ext & -> & Hsub & Hall).
    apply resolveUsage_sound in Hstep as [->|(r & -> & Husage & Hkind & Hname)].
    + exists ext. split_and!; [done | by constructor | done].
    + exists (r :: ext). split_and!; [by rewrite <- app_assoc | | by constructor].
      simpl. rewrite Husage. by constructor.
Qed.

Lemma resolveUsages_returns
    (readFile : string → option string) (parseSync : string → string → option json)
    (resolveModulePath : string → string → option string)
    fuel files extraction usages :
  maxChainDepth + 1 ≤ fuel →
  ∃ resolved,
    resolveUsages readFile parseSync resolveModulePath fuel files extraction usages
    = Done resolved.
Proof.
  intros Hfuel. unfold resolveUsages.
  destruct (resolveAll_spec (buildFileGraph readFile parseSync resolveModulePath files)
              (buildDefinitionLookup extraction) fuel (λ _, False) Hfuel)
    with (pending := usages) (resolved := @nil ResolvedUsage) as (out & Hout & _);
    [done | by exists out].
Qed.

(** X11.  The resolver never guesses and only drops: with the fuel the
    depth cap calls for it returns; the usages of its result are a
    subsequence of the usages it was given (at most one [ResolvedUsage]
    per usage, in the same order); every [ResolvedUsage] names a
    definition of the extraction, by name and by file, and carries no
    [writerKind]. *)
Theorem resolveUsages_sound
    (readFile : string → option string) (parseSync : string → string → option json)
    (resolveModulePath : string → string → option string)
    fuel files extraction usages :
  maxChainDepth + 1 ≤ fuel →
  ∃ resolved,
    resolveUsages readFile parseSync resolveModulePath fuel files extraction usages
    = Done resolved
    ∧ sublist (map ru_usage resolved) usages
    ∧ Forall (λ r, namesDefinition extraction r ∧ ru_writerKind r = None) resolved.
Proof.
  intros Hfuel.
  destruct (resolveUsages_returns readFile parseSync resolveModulePath fuel files
              extraction usages Hfuel) as [resolved Hrun].
  exists resolved. split; [done |]. unfold resolveUsages in Hrun.
  apply resolveAll_sound in Hrun as (ext & -> & Hsub & Hall). simpl. split; [done |].
  eapply Forall_impl; [exact Hall |]. intros r (Hkind & name' & Hname). split; [| done].
  apply buildDefinitionLookup_spec in Hname as (Heq & d & Hd & Hdn & Hdf).
  exists d. split_and!; [done | congruence | done].
Qed.



(** From [cycle-a.ts] the re-exports of the cycle fixture lead to
    [cycle-b.ts] and back, and nowhere else. *)
Lemma cycle_reaches_only_cycle file :
  reaches (buildFileGraph cycleReadFile cycleParser cycleModules cycleFiles)
          "/test/cycle-a.ts" file →
  file ∈ ["/test/cycle-a.ts"; "/test/cycle-b.ts"].
Proof.
  induction 1 as [|via info target _ IH Hvia Href]; [apply list_elem_of_here |].
  apply elem_of_cons in IH as [->|IH].
  - vm_compute in Hvia. injection Hvia as <-.
    destruct Href as [(r & Hr & <-)|(i & Hi & _)]; [| by apply elem_of_nil in Hi].
    apply list_elem_of_singleton in Hr as ->. simpl. set_solver.
  - apply list_elem_of_singleton in IH as ->.
    vm_compute in Hvia. injection Hvia as <-.
    destruct Href as [(r & Hr & <-)|(i & Hi & _)]; [| by apply elem_of_nil in Hi].
    apply list_elem_of_singleton in Hr as ->. simpl. set_solver.
Qed.


(** X12.  A name defined in the usage's own file resolves to that
    definition without consulting imports, files or fuel: when every usage
    is of this kind the result is the usages themselves, each completed
    with its own name and file, for every file system and any fuel. *)
Theorem resolveUsages_local_definitions
    (readFile : string → option string) (parseSync : string → string → option json)
    (resolveModulePath : string → string → option string)
    fuel files extraction usages :
  Forall (definedLocally extraction) usages →
  resolveUsages readFile parseSync resolveModulePath fuel files extraction usages
  = Done (map (λ usage, withResolution usage (u_localName usage) (u_file usage)) usages).
Proof.
  unfold resolveUsages. intros Hall.
  generalize (buildFileGraph readFile parseSync resolveModulePath files) as graph.
  intros graph.
  assert (∀ resolved,
             resolveAll fuel graph (buildDefinitionLookup extraction) resolved usages
             = Done (resolved
                     ++ map (λ usage, withResolution usage (u_localName usage) (u_file usage))
                            usages)) as Hgen.
  { induction Hall as [|usage usages (d & Hd & Hn & Hf) Hall IH]; intros resolved; simpl.
    - by rewrite app_nil_r.
    - unfold resolveUsage.
      assert (lookupDefinition (buildDefinitionLookup extraction) (u_file usage)
                               (u_localName usage) = Some (u_localName usage)) as ->.
      { apply buildDefinitionLookup_spec. split; [done |]. by exists d. }
      simpl. rewrite IH. by rewrite <- app_assoc. }
  apply (Hgen []).
Qed.

(** X13.  One import hop, renaming included: a usage whose local name is
    not defined in its own file, bound there by an import of [exported]
    from a file that defines [exported], resolves to that definition under
    its exported name, with one unit of fuel. *)
Theorem resolveUsage_through_import
    graph extraction fuel resolved usage fileInfo importRecord :
  lookupDefinition (buildDefinitionLookup extraction) (u_file usage) (u_localName usage)
  = None →
  graph !! u_file usage = Some fileInfo →
  List.find (λ importRecord, bool_decide (i_localName importRecord = u_localName usage))
            (imports fileInfo) = Some importRecord →
  (∃ d, d ∈ recoilDefinitions extraction
        ∧ def_name d = i_exportedName importRecord
        ∧ def_file d = i_sourceFile importRecord) →
  1 ≤ fuel →
  resolveUsage fuel graph (buildDefinitionLookup extraction) resolved usage
  = Done (resolved ++ [withResolution usage (i_exportedName importRecord)
                                      (i_sourceFile importRecord)]).
Proof.
  intros Hlocal Hfile Hfind Hdef Hfuel. unfold resolveUsage.
  rewrite Hlocal, Hfile, Hfind. destruct fuel as [|fuel]; [lia |]. simpl.
  destruct (decide (maxChainDepth < 1)) as [Hcap|_]; [cap_lia |].
  destruct (decide (_ ∈ ∅)) as [Hin|_]; [by apply elem_of_empty in Hin |].
  assert (lookupDefinition (buildDefinitionLookup extraction) (i_sourceFile importRecord)
                           (i_exportedName importRecord)
          = Some (i_exportedName importRecord)) as ->.
  { by apply buildDefinitionLookup_spec. }
  reflexivity.
Qed.

(** ** Line numbers *)

Lemma offsetToLineFrom_newlines source :
  ∀ offset line, offsetToLineFrom source offset line = line + newlinesBefore source offset.
Proof.
  induction source as [|c rest IH]; intros offset line.
  - destruct offset; simpl; lia.
  - destruct offset as [|offset]; simpl; [lia |].
    rewrite IH. destruct (Ascii.eqb c _); lia.
Qed.

Lemma newlinesBefore_mono source :
  ∀ offset extra, newlinesBefore source offset ≤ newlinesBefore source (offset + extra).
Proof.
  induction source as [|c rest IH]; intros offset extra.
  - destruct offset, extra; simpl; lia.
  - destruct offset as [|offset]; simpl; [lia |]. specialize (IH offset extra). lia.
Qed.

Lemma newlinesBefore_saturates source :
  ∀ offset, String.length source ≤ offset →
            newlinesBefore source offset = newlinesBefore source (String.length source).
Proof.
  induction source as [|c rest IH]; intros offset Hlen.
  - by destruct offset.
  - destruct offset as [|offset]; simpl in *; [lia |]. rewrite (IH offset) by lia. done.
Qed.

Lemma newlinesBefore_le source : ∀ offset, newlinesBefore source offset ≤ offset.
Proof.
  induction source as [|c rest IH]; intros offset.
  - destruct offset; simpl; lia.
  - destruct offset as [|offset]; simpl; [lia |].
    specialize (IH offset). destruct (Ascii.eqb c _); lia.
Qed.

Lemma offsetToLine_within source offset : 1 ≤ offsetToLine source offset ≤ lineCount source.
Proof.
  unfold offsetToLine, lineCount. rewrite offsetToLineFrom_newlines. split; [lia |].
  apply Nat.add_le_mono_l.
  destruct (decide (offset ≤ String.length source)) as [Hle|Hgt].
  - replace (String.length source) with (offset + (String.length source - offset)) by lia.
    apply newlinesBefore_mono.
  - rewrite newlinesBefore_saturates by lia. done.
Qed.

(** X14.  [offsetToLine] returns the 1-based line of a character offset:
    one more than the number of line breaks before the offset.  Hence it is
    at least 1, grows with the offset by at most one line per character,
    and an offset at or beyond the end of the text yields the last line
    instead of failing. *)
Theorem offsetToLine_counts_line_breaks source offset :
  offsetToLine source offset = 1 + newlinesBefore source offset
  ∧ 1 ≤ offsetToLine source offset ≤ 1 + offset
  ∧ (∀ extra, offsetToLine source offset ≤ offsetToLine source (offset + extra))
  ∧ offsetToLine source offset ≤ lineCount source
  ∧ offsetToLine source (String.length source + offset) = lineCount source.
Proof.
  unfold offsetToLine. rewrite offsetToLineFrom_newlines. split_and!.
  - done.
  - lia.
  - pose proof (newlinesBefore_le source offset). lia.
  - intros extra. rewrite offsetToLineFrom_newlines.
    pose proof (newlinesBefore_mono source offset extra). lia.
  - pose proof (offsetToLine_within source offset) as [_ H]. unfold offsetToLine in H.
    by rewrite offsetToLineFrom_newlines in H.
  - rewrite offsetToLineFrom_newlines. unfold lineCount.
    rewrite newlinesBefore_saturates by lia. done.
Qed.

(** ** The usage collector: what a usage record looks like *)

Lemma truthy_nonempty name : truthy (Some name) = true → name ≠ EmptyString.
Proof. simpl. intros H ->. done. Qed.

Lemma pushIfNamed_extends_named (Q : Usage → Prop) atomName mk usages :
  (∀ name, name ≠ EmptyString → Forall Q (mk name)) →
  ∃ ext, pushIfNamed atomName mk usages = usages ++ ext ∧ Forall Q ext.
Proof.
  intros Hmk. unfold pushIfNamed. destruct atomName as [name|].
  - destruct (truthy (Some name)) eqn:Htruthy.
    + exists (mk name). split; [done |]. by apply Hmk, truthy_nonempty.
    + exists []. by rewrite app_nil_r.
  - exists []. by rewrite app_nil_r.
Qed.

Lemma plainUsage_emittedAt name type hook filePath source offset :
  name ≠ EmptyString →
  (hook, type) ∈ hookTypes →
  emittedAt filePath source (plainUsage name type hook filePath (offsetToLine source offset)).
Proof. intros Hname Hin. split_and!; [done | done | done | done | by exists offset]. Qed.

Ltac emitted :=
  intros;
  repeat first
    [ apply Forall_nil_2
    | apply Forall_cons_2;
      [apply plainUsage_emittedAt; [assumption | unfold hookTypes; set_solver] |] ].

Lemma extends_refl {A} (Q : A → Prop) (l : list A) : ∃ ext, l = l ++ ext ∧ Forall Q ext.
Proof. exists []. by rewrite app_nil_r. Qed.

Lemma extends_trans {A} (Q : A → Prop) (l1 l2 l3 : list A) :
  (∃ ext, l2 = l1 ++ ext ∧ Forall Q ext) →
  (∃ ext, l3 = l2 ++ ext ∧ Forall Q ext) →
  ∃ ext, l3 = l1 ++ ext ∧ Forall Q ext.
Proof.
  intros (e1 & -> & H1) (e2 & -> & H2). exists (e1 ++ e2).
  split; [by rewrite app_assoc | by apply Forall_app].
Qed.

Lemma conditional_push_extends (Q : Usage → Prop) (c : bool) atomName mk usages :
  (∀ name, name ≠ EmptyString → Forall Q (mk name)) →
  ∃ ext, (if c then pushIfNamed atomName mk usages else usages) = usages ++ ext
         ∧ Forall Q ext.
Proof.
  intros Hmk. destruct c; [by apply pushIfNamed_extends_named | apply extends_refl].
Qed.

Lemma callbackEnter_extends context filePath source ancestors node usages :
  ∃ ext, callbackEnter context filePath source ancestors node usages = usages ++ ext
         ∧ Forall (emittedAt filePath source) ext.
Proof.
  unfold callbackEnter.
  destruct (negb (hasType "CallExpression" node)); [apply extends_refl |].
  cbv zeta.
  eapply extends_trans; [| apply conditional_push_extends; emitted].
  eapply extends_trans; [| apply conditional_push_extends; emitted].
  eapply extends_trans; [| apply conditional_push_extends; emitted].
  apply conditional_push_extends. intros name Hname.
  apply Forall_singleton. apply plainUsage_emittedAt; [done |].
  destruct (isInsideInitializer ancestors); unfold hookTypes; set_solver.
Qed.

Lemma walkCallbackBody_extends body context filePath source usages ancestors :
  ∃ ext, walkCallbackBody body context filePath source usages ancestors = usages ++ ext
         ∧ Forall (emittedAt filePath source) ext.
Proof.
  unfold walkCallbackBody. apply walk_extends.
  - intros n l. apply callbackEnter_extends.
  - intros n l. apply extends_refl.
Qed.

Lemma hookCallUsages_extends filePath source hookName callNode ancestors usages :
  ∃ ext, hookCallUsages filePath source hookName callNode ancestors usages = usages ++ ext
         ∧ Forall (emittedAt filePath source) ext.
Proof.
  unfold hookCallUsages.
  repeat (case_bool_decide; [apply pushIfNamed_extends_named; emitted |]).
  case_bool_decide; [| apply extends_refl].
  destruct (_ && _); [apply extends_refl |].
  destruct (arrField "params" _) as [[|parameter params]|]; try apply extends_refl.
  destruct (field "body" _); try apply extends_refl.
  apply walkCallbackBody_extends.
Qed.

Lemma collectEnter_extends filePath source node st :
  ∃ ext, usages (collectEnter filePath source node st) = usages st ++ ext
         ∧ Forall (emittedAt filePath source) ext.
Proof.
  unfold collectEnter.
  destruct (hasType "ImportDeclaration" node); [apply extends_refl |].
  destruct (negb (hasType "CallExpression" node)); [apply extends_refl |].
  destruct (negb (hasType "Identifier" (field "callee" node))); [apply extends_refl |].
  destruct (_ && _).
  { simpl. apply pushIfNamed_extends_named. emitted. }
  destruct (_ ≫= _) as [hookName|]; [| apply extends_refl].
  destruct (negb (truthy (Some hookName))); [apply extends_refl |].
  simpl. apply hookCallUsages_extends.
Qed.

Lemma collectFromFile_extends parseSync filePath source collected :
  ∃ ext, collectFromFile parseSync filePath source collected = collected ++ ext
         ∧ Forall (emittedAt filePath source) ext.
Proof.
  unfold collectFromFile. destruct (parseSync filePath source) as [ast|];
    [| apply extends_refl].
  apply (walk_preserves
           (λ st, ∃ ext, usages st = collected ++ ext
                         ∧ Forall (emittedAt filePath source) ext)).
  - intros n s Hs. eapply extends_trans; [exact Hs | apply collectEnter_extends].
  - intros n s Hs. exact Hs.
  - apply extends_refl.
Qed.

Lemma emittedAt_wellFormed (readFile : string → option string) filePath source u :
  readFile filePath = Some source →
  emittedAt filePath source u → wellFormedUsage readFile u.
Proof.
  intros Hread (Hlocal & Hname & Hhook & Hfile & offset & Hline).
  split_and!; [done | done | done |]. exists source. rewrite Hfile, Hline.
  split; [done |]. apply offsetToLine_within.
Qed.

Lemma hookPass_wellFormed readFile parseSync files :
  Forall (λ u, wellFormedUsage readFile u ∧ u_file u ∈ files)
         (foldl (collectFileUsages readFile parseSync) [] files).
Proof.
  assert (∀ pending acc,
             Forall (λ u, wellFormedUsage readFile u ∧ u_file u ∈ files) acc →
             (∀ f, f ∈ pending → f ∈ files) →
             Forall (λ u, wellFormedUsage readFile u ∧ u_file u ∈ files)
                    (foldl (collectFileUsages readFile parseSync) acc pending)) as Hgen.
  { induction pending as [|f pending IH]; intros acc Hacc Hsub; simpl; [done |].
    apply IH; [| intros f' Hf'; apply Hsub; by right].
    unfold collectFileUsages, readFileSource.
    destruct (readFile f) as [source|] eqn:Hread; [| done].
    destruct (negb _); [done |].
    destruct (collectFromFile_extends parseSync f source acc) as (ext & -> & Hext).
    apply Forall_app. split; [done |].
    eapply Forall_impl; [exact Hext |]. intros u Hu. split.
    - by eapply emittedAt_wellFormed.
    - destruct Hu as (_ & _ & _ & -> & _). apply Hsub. by left. }
  apply Hgen; [constructor | done].
Qed.

Lemma walkSelectorGetBody_emitted body filePath source usages definitionName :
  ∃ ext,
    walkSelectorGetBody body filePath source usages definitionName = usages ++ ext
    ∧ Forall (emittedAt filePath source) ext.
Proof.
  unfold walkSelectorGetBody. apply walk_extends.
  - intros n l. unfold selectorGetEnter.
    destruct (negb _); [apply extends_refl |].
    destruct (_ && _); [| apply extends_refl].
    apply pushIfNamed_extends_named. intros name Hname. apply Forall_singleton.
    split_and!; [done | done | unfold hookTypes; set_solver | done |].
    by exists (numField "start" n).
  - intros n l. apply extends_refl.
Qed.

Lemma collectFromDefinition_wellFormed readFile usages def :
  ∃ ext, collectFromDefinition readFile usages def = usages ++ ext
         ∧ Forall (wellFormedUsage readFile) ext.
Proof.
  unfold collectFromDefinition, readFileSource.
  destruct (readFile (def_file def)) as [source|] eqn:Hread; [| apply extends_refl].
  destruct (negb _); [apply extends_refl |].
  assert (∀ body acc, ∃ ext,
             walkSelectorGetBody body (def_file def) source acc (def_name def) = acc ++ ext
             ∧ Forall (wellFormedUsage readFile) ext) as Hwalk.
  { intros body acc.
    destruct (walkSelectorGetBody_emitted body (def_file def) source acc (def_name def))
      as (ext & -> & Hext).
    exists ext. split; [done |]. eapply Forall_impl; [exact Hext |].
    intros u Hu. by eapply emittedAt_wellFormed. }
  assert (∃ ext1,
             match def_getBodyAst def with
             | Some body =>
               if isSelectorKind (def_kind def)
               then walkSelectorGetBody body (def_file def) source usages (def_name def)
               else usages
             | None => usages
             end = usages ++ ext1 ∧ Forall (wellFormedUsage readFile) ext1)
    as (ext1 & -> & Hext1).
  { destruct (def_getBodyAst def) as [body|]; [| apply extends_refl].
    destruct (isSelectorKind _); [apply Hwalk | apply extends_refl]. }
  destruct (def_inlineDefaultGetBody def) as [body|]; [| by exists ext1].
  destruct (isAtomKind _); [| by exists ext1].
  destruct (Hwalk body (usages ++ ext1)) as (ext2 & -> & Hext2).
  exists (ext1 ++ ext2). rewrite app_assoc. split; [done | by apply Forall_app].
Qed.

(** X15.  Every usage that [collectUsages] returns is well formed: its
    local name is the name of the state it uses, that name is not empty,
    its hook tag and usage type agree (a reader tag never comes with a
    write type, [set(initializer)] only with type initializer, and so on),
    and it points at an existing line of a file that was read, which is
    one of the scanned files or the file of a recorded definition. *)
Theorem collectUsages_well_formed
    (readFile : string → option string) (parseSync : string → string → option json)
    (files : list string) (extraction : ExtractionResult) :
  Forall (λ u, wellFormedUsage readFile u
               ∧ (u_file u ∈ files
                  ∨ ∃ d, d ∈ recoilDefinitions extraction ∧ u_file u = def_file d))
         (collectUsages readFile parseSync files extraction).
Proof.
  assert (∀ defs acc,
             Forall (wellFormedUsage readFile) acc →
             Forall (wellFormedUsage readFile)
                    (foldl (collectFromDefinition readFile) acc defs)) as Hgen.
  { induction defs as [|d defs IH]; intros acc Hacc; simpl; [done |].
    apply IH. destruct (collectFromDefinition_wellFormed readFile acc d) as (ext & -> & Hext).
    by apply Forall_app. }
  pose proof (hookPass_wellFormed readFile parseSync files) as Hhook.
  apply Forall_forall. intros u Hu. split.
  - revert u Hu. apply Forall_forall. unfold collectUsages, collectFromSelectorBodies.
    apply Hgen. eapply Forall_impl; [exact Hhook |]. by intros u [? _].
  - unfold collectUsages in Hu.
    destruct (collectFromSelectorBodies_extends readFile extraction
                (foldl (collectFileUsages readFile parseSync) [] files))
      as (perDefinition & Heq & Hbody).
    rewrite Heq in Hu. apply elem_of_app in Hu as [Hu|Hu].
    + left. rewrite Forall_forall in Hhook. by destruct (Hhook u Hu).
    + right. apply list_elem_of_In, in_concat in Hu as (emitted & Hemitted & Hu).
      apply list_elem_of_In in Hemitted. apply list_elem_of_In in Hu.
      apply list_elem_of_lookup in Hemitted as [i Hi].
      destruct (Forall2_lookup_r _ _ _ i emitted Hbody Hi) as (def & Hdef & Hall).
      rewrite Forall_forall in Hall. destruct (Hall u Hu) as (_ & _ & _ & Hfile).
      exists def. split; [| done]. by eapply list_elem_of_lookup_2.
Qed.

Lemma callbackEnter_emptyContext filePath source ancestors node usages :
  callbackEnter emptyContext filePath source ancestors node usages = usages.
Proof.
  unfold callbackEnter. destruct (negb (hasType "CallExpression" node)); [done |].
  reflexivity.
Qed.

(** X16.  A [useRecoilCallback] whose callback does not destructure its
    first parameter (it takes the interface as one identifier, say)
    contributes no usage, whatever the callback body does with it. *)
Theorem callback_without_destructuring_is_ignored
    filePath source callNode ancestors usages parameter rest :
  arrField "params" (firstArgument callNode) = Some (parameter :: rest) →
  hasType "ObjectPattern" parameter = false →
  hookCallUsages filePath source "useRecoilCallback" callNode ancestors usages = usages.
Proof.
  intros Hparams Hpattern. unfold hookCallUsages.
  repeat (case_bool_decide; [done |]). case_bool_decide; [| done].
  destruct (_ && _); [done |]. rewrite Hparams.
  destruct (field "body" (firstArgument callNode)); try done.
  unfold parseCallbackParameter. rewrite Hpattern. simpl negb. cbv iota.
  unfold walkCallbackBody.
  apply (walk_preserves (λ l, l = usages)); [| done | done].
  intros n s ->. apply callbackEnter_emptyContext.
Qed.

(** A property of the walker's state that the callbacks preserve on the
    nodes of the tree holds after the walk. *)
Lemma walk_preserves_on {S : Type} (P : S → Prop) (ok : json → Prop)
    (enter leave : json → S → S) node s :
  Forall (λ ev, match ev with Enter n => ok n | Leave _ => True end) (events node) →
  (∀ n s, ok n → P s → P (enter n s)) →
  (∀ n s, P s → P (leave n s)) →
  P s → P (walk enter leave node s).
Proof.
  intros Hok Henter Hleave. unfold walk. revert s.
  induction Hok as [|ev evs Hev Hevs IH]; intros s Hs; simpl; [done |].
  apply IH. destruct ev; auto.
Qed.

Lemma importAliases_other_source hooks node aliases :
  strField "value" (field "source" node) ≠ Some "recoil" →
  importAliases hooks node aliases = aliases.
Proof.
  intros Hsource. unfold importAliases. by rewrite bool_decide_eq_false_2.
Qed.

(** X17.  Hook calls are recognised only through the imports from
    ['recoil'] of the file itself: a file with no such import contributes
    nothing but [set(initializer)] usages of type initializer (calls of
    [set] inside a function declaration named initialize...), for every
    tree the parser may return for it. *)
Theorem no_recoil_import_no_hook_usage
    (parseSync : string → string → option json) filePath source ast collected :
  parseSync filePath source = Some ast →
  importsNothingFromRecoil (field "program" ast) →
  ∃ emitted,
    collectFromFile parseSync filePath source collected = collected ++ emitted
    ∧ Forall (λ u, u_hook u = "set(initializer)" ∧ u_type u = Initializer) emitted.
Proof.
  intros Hparse Himports. unfold collectFromFile. rewrite Hparse.
  set (Q := λ u, u_hook u = "set(initializer)" ∧ u_type u = Initializer).
  assert (∀ st, hookAliases st = ∅ ∧ (∃ ext, usages st = collected ++ ext ∧ Forall Q ext) →
                ∃ ext, usages st = collected ++ ext ∧ Forall Q ext) as Hout by naive_solver.
  apply Hout.
  apply (walk_preserves_on
           (λ st, hookAliases st = ∅
                  ∧ ∃ ext, usages st = collected ++ ext ∧ Forall Q ext)
           (λ node, hasType "ImportDeclaration" node = true →
                    strField "value" (field "source" node) ≠ Some "recoil")).
  - exact Himports.
  - intros n st Hok [Haliases Hext]. unfold collectEnter.
    destruct (hasType "ImportDeclaration" n) eqn:Himport.
    { simpl. rewrite importAliases_other_source by auto. done. }
    destruct (negb (hasType "CallExpression" n)); [done |].
    destruct (negb (hasType "Identifier" (field "callee" n))); [done |].
    destruct (_ && _).
    { simpl. split; [done |]. eapply extends_trans; [exact Hext |].
      apply pushIfNamed_extends. intros name. by apply Forall_singleton. }
    rewrite Haliases.
    destruct (strField "name" (field "callee" n)) as [name|]; simpl;
      [rewrite lookup_empty |]; done.
  - intros n st [Haliases Hext]. done.
  - split; [done | apply extends_refl].
Qed.

(** ** The writer-binding resolver and the callsite scan *)

Section SetterBindingsTermination.
Context (readFile : string → option string).
Context (parseSync : string → string → option json).
Context (resolveModulePath : string → string → option string).

Lemma followExportChain_terminates fuel :
  ∀ name filePath depth visited,
    1 ≤ fuel →
    maxChainDepth + 2 ≤ fuel + depth →
    ∃ result, followExportChain readFile parseSync resolveModulePath fuel name filePath
                                depth visited = Done result.
Proof.
  induction fuel as [|fuel IH]; intros name filePath depth visited Hpos Hfuel; [lia |].
  simpl.
  destruct (decide (maxChainDepth < depth)) as [Hcap|Hcap]; [by eexists |].
  destruct (decide (_ ∈ visited)); [by eexists |].
  destruct (findFunctionInFile _ _ _ _); [by eexists |].
  destruct (parseFile readFile parseSync filePath) as [parsed|]; [| by eexists].
  unfold collectFileImportsAndExports.
  generalize (walk (importsEnter resolveModulePath filePath) noLeave (p_ast parsed)
                   noFileInfo) as info.
  intros info. cbv beta iota zeta.
  set (fileImports := imports info). set (fileReExports := reExports info).
  assert (1 ≤ fuel ∧ maxChainDepth + 2 ≤ fuel + (depth + 1)) as [Hpos' Hfuel']
    by (unfold maxChainDepth in *; lia).
  assert (∀ pending visited2, ∃ result,
             (fix stars (pending : list ReExportRecord) (visited2 : gset string)
                : outcome (option (string * string) * gset string) :=
                match pending with
                | StarReExport sourceFile :: pending' =>
                  '(result, visited3) ←
                    followExportChain readFile parseSync resolveModulePath fuel name
                                      sourceFile (depth + 1) visited2;
                  match result with
                  | Some _ => Done (result, visited3)
                  | None => stars pending' visited3
                  end
                | NamedReExport _ _ _ :: pending' => stars pending' visited2
                | [] =>
                  match List.find (λ importRecord,
                                     bool_decide (i_localName importRecord = name))
                                  fileImports with
                  | Some importRecord =>
                    followExportChain readFile parseSync resolveModulePath fuel
                                      (i_exportedName importRecord)
                                      (i_sourceFile importRecord) (depth + 1) visited2
                  | None => Done (None, visited2)
                  end
                end) pending visited2 = Done result) as Hstars.
  { induction pending as [|[l e s|s] pending IHp]; intros visited2.
    - destruct (List.find _ fileImports); [by apply IH | by eexists].
    - apply IHp.
    - destruct (IH name s (depth + 1) visited2 Hpos' Hfuel') as [[result visited3] Hrun].
      rewrite Hrun. simpl. destruct result; [by eexists | apply IHp]. }
  destruct (List.find (isNamedFor name) fileReExports) as [[l e s|s]|].
  - by apply IH.
  - apply Hstars.
  - apply Hstars.
Qed.

Lemma resolveThroughImports_terminates fuel calleeName pending :
  maxChainDepth + 1 ≤ fuel →
  ∃ result, resolveThroughImports readFile parseSync resolveModulePath fuel calleeName
                                  pending = Done result.
Proof.
  intros Hfuel. induction pending as [|importRecord pending IH]; simpl; [by eexists |].
  destruct (bool_decide _); [| exact IH].
  destruct (followExportChain_terminates fuel (i_exportedName importRecord)
              (i_sourceFile importRecord) 1 ∅) as [[resolved visited] Hrun];
    [unfold maxChainDepth in *; lia.. |].
  rewrite Hrun. simpl. destruct resolved as [[sourceFile exportedName]|]; [by eexists |].
  destruct (findFunctionInFile _ _ _ _); [by eexists | exact IH].
Qed.

Lemma resolveCalleeToFunctionDefinition_terminates fuel calleeName file :
  maxChainDepth + 1 ≤ fuel →
  ∃ result, resolveCalleeToFunctionDefinition readFile parseSync resolveModulePath fuel
                                              calleeName file = Done result.
Proof.
  intros Hfuel. unfold resolveCalleeToFunctionDefinition.
  destruct (findFunctionInFile _ _ _ _); [by eexists |].
  destruct (parseFile _ _ _); [| by eexists].
  by apply resolveThroughImports_terminates.
Qed.

Lemma resolveDirectHookWriteBinding_named callExpr hookAliases binding :
  resolveDirectHookWriteBinding callExpr hookAliases = Some binding →
  b_stateId binding ≠ EmptyString.
Proof.
  unfold resolveDirectHookWriteBinding.
  destruct (negb _); [done |].
  destruct (_ ≫= _) as [canonicalHook|]; [| done].
  destruct (negb (truthy (Some canonicalHook))); [done |].
  destruct (extractAtomName _) as [atomName|]; [| done].
  destruct (negb (truthy (Some atomName))) eqn:Htruthy; [done |].
  apply negb_false_iff, truthy_nonempty in Htruthy.
  repeat case_bool_decide; intros [= <-]; done.
Qed.

Lemma analyzeWrapperReturnExpression_named functionDef binding :
  analyzeWrapperReturnExpression functionDef = Some binding →
  b_stateId binding ≠ EmptyString.
Proof.
  unfold analyzeWrapperReturnExpression.
  destruct (getReturnExpression functionDef) as [returnExpr|]; [| done].
  destruct (hasType "CallExpression" returnExpr); [| done].
  apply resolveDirectHookWriteBinding_named.
Qed.

Lemma resolveHookWriteBinding_terminates fuel callExpr file hookAliases cache :
  maxChainDepth + 1 ≤ fuel →
  cacheNamed cache →
  ∃ binding cache',
    resolveHookWriteBinding readFile parseSync resolveModulePath fuel callExpr file
                            hookAliases cache = Done (binding, cache')
    ∧ cacheNamed cache'
    ∧ ∀ b, binding = Some b → b_stateId b ≠ EmptyString.
Proof.
  intros Hfuel Hcache. unfold resolveHookWriteBinding.
  destruct (resolveDirectHookWriteBinding callExpr hookAliases) as [direct|] eqn:Hdirect.
  { eexists _, _. split_and!; [done | done |]. intros b [= <-].
    by eapply resolveDirectHookWriteBinding_named. }
  destruct (negb _); [eexists _, _; split_and!; done |].
  destruct (resolveCalleeToFunctionDefinition_terminates fuel
              (default EmptyString (strField "name" (field "callee" callExpr))) file Hfuel)
    as [functionDef Hrun].
  rewrite Hrun. simpl. destruct functionDef as [functionDef|];
    [| eexists _, _; split_and!; done].
  destruct (cache !! _) as [cached|] eqn:Hcached.
  - eexists _, _. split_and!; [done | done |]. intros b ->. by eapply Hcache.
  - eexists _, _. split_and!; [done | |].
    + intros key binding Hlookup.
      destruct (decide (key = fileLineKey (f_file functionDef) (f_line functionDef)))
        as [->|Hne].
      * rewrite lookup_insert_eq in Hlookup. injection Hlookup as Hlookup.
        by eapply analyzeWrapperReturnExpression_named.
      * rewrite lookup_insert_ne in Hlookup by done. by eapply Hcache.
    + intros b Hb. by eapply analyzeWrapperReturnExpression_named.
Qed.

Lemma bindSetterIdentifiers_shaped files declarator binding file bindings :
  file ∈ files →
  b_stateId binding ≠ EmptyString →
  map_Forall (bindingShaped files) bindings →
  map_Forall (bindingShaped files) (bindSetterIdentifiers declarator binding file bindings).
Proof.
  intros Hfile Hname Hall. unfold bindSetterIdentifiers.
  assert (∀ name, map_Forall (bindingShaped files)
                    (<[fileNameKey file name := b_stateId binding]> bindings)) as Hins.
  { intros name. apply map_Forall_insert_2; [| done]. split; eauto. }
  destruct (b_kind binding).
  - destruct (hasType "Identifier" _); [apply Hins | done].
  - destruct (hasType "ArrayPattern" _); [| done].
    destruct (arrField "elements" _) as [[|first [|setterElement elements]]|]; try done.
    destruct (hasType "Identifier" setterElement); [apply Hins | done].
Qed.

Lemma bindingsEnter_invariant files fuel file hookAliases node st :
  maxChainDepth + 1 ≤ fuel →
  file ∈ files →
  bindingInvariant files
    (wrapperDefinitionKey readFile parseSync resolveModulePath fuel files) st →
  ∃ st', bindingsEnter readFile parseSync resolveModulePath fuel file hookAliases node st
         = Done st'
         ∧ bindingInvariant files
             (wrapperDefinitionKey readFile parseSync resolveModulePath fuel files) st'.
Proof.
  intros Hfuel Hfile (Hbindings & Hcache & Hkeys). unfold bindingsEnter.
  destruct (_ || _); [by exists st |].
  destruct (resolveHookWriteBinding_terminates fuel (field "init" node) file hookAliases
              (wrapperCache st) Hfuel Hcache) as (binding & cache' & Hrun & Hcache' & Hnamed).
  rewrite Hrun. simpl. destruct binding as [binding|]; [| by eexists].
  pose proof (bindSetterIdentifiers_shaped files node binding file (setterBindings st)
                Hfile (Hnamed binding eq_refl) Hbindings) as Hbound.
  destruct (resolveDirectHookWriteBinding _ _); [by eexists |].
  destruct (truthy _); [| by eexists].
  destruct (resolveCalleeToFunctionDefinition_terminates fuel
              (default EmptyString (strField "name" (field "callee" (field "init" node))))
              file Hfuel) as [functionDef Hdef].
  rewrite Hdef. simpl. eexists. split; [done |]. split_and!; [done | done |]. simpl.
  destruct functionDef as [functionDef|]; [| done].
  intros key Hkey. apply elem_of_union in Hkey as [Hkey|Hkey]; [| by apply Hkeys].
  apply elem_of_singleton in Hkey. subst key. by eexists _, file, functionDef.
Qed.

Lemma bindFile_invariant files fuel file st :
  maxChainDepth + 1 ≤ fuel →
  file ∈ files →
  bindingInvariant files
    (wrapperDefinitionKey readFile parseSync resolveModulePath fuel files) st →
  ∃ st', bindFile readFile parseSync resolveModulePath fuel (Done st) file = Done st'
         ∧ bindingInvariant files
             (wrapperDefinitionKey readFile parseSync resolveModulePath fuel files) st'.
Proof.
  intros Hfuel Hfile Hinv. unfold bindFile.
  destruct (parseFile readFile parseSync file) as [parsed|]; [| by exists st].
  apply (walk_preserves
           (λ out, ∃ st', out = Done st'
                          ∧ bindingInvariant files
                              (wrapperDefinitionKey readFile parseSync resolveModulePath
                                                    fuel files) st')).
  - intros n out (st' & -> & Hinv'). simpl. by apply bindingsEnter_invariant.
  - intros n out Hout. exact Hout.
  - by exists st.
Qed.
End SetterBindingsTermination.

(** X18.  [buildSetterBindings] returns on every set of files once the
    fuel covers the chain-depth cap.  Every entry of the map it returns
    binds an identifier of a scanned file to a non-empty state name, and
    every resolved factory key is the [file:line] of the definition of a
    function that a callee of a scanned file resolves to (the line where
    the wrapper is defined, not the line of a hook call). *)
Theorem buildSetterBindings_returns
    (readFile : string → option string) (parseSync : string → string → option json)
    (resolveModulePath : string → string → option string) fuel files extraction :
  maxChainDepth + 1 ≤ fuel →
  ∃ bindings resolvedFactoryKeys,
    buildSetterBindings readFile parseSync resolveModulePath fuel files extraction
    = Done (bindings, resolvedFactoryKeys)
    ∧ map_Forall (bindingShaped files) bindings
    ∧ ∀ key, key ∈ resolvedFactoryKeys →
             wrapperDefinitionKey readFile parseSync resolveModulePath fuel files key.
Proof.
  intros Hfuel. unfold buildSetterBindings.
  assert (∀ pending st,
             (∀ f, f ∈ pending → f ∈ files) →
             bindingInvariant files
               (wrapperDefinitionKey readFile parseSync resolveModulePath fuel files) st →
             ∃ st', foldl (bindFile readFile parseSync resolveModulePath fuel) (Done st)
                          pending = Done st'
                    ∧ bindingInvariant files
                        (wrapperDefinitionKey readFile parseSync resolveModulePath fuel
                                              files) st') as Hgen.
  { induction pending as [|f pending IH]; intros st Hsub Hinv; simpl; [by exists st |].
    destruct (bindFile_invariant readFile parseSync resolveModulePath files fuel f st Hfuel)
      as (st1 & -> & Hinv1); [apply Hsub; by left | done |].
    apply IH; [| done]. intros f' Hf'. apply Hsub. by right. }
  destruct (Hgen files {| setterBindings := ∅; wrapperCache := ∅; resolvedKeys := ∅ |})
    as (st & Hrun & Hbindings & _ & Hkeys).
  - done.
  - split_and!; [apply map_Forall_empty | by intros key binding Hlookup |].
    intros key Hkey. by apply elem_of_empty in Hkey.
  - rewrite Hrun. simpl. by eexists _, _.
Qed.

Lemma callsiteEnter_extends file source bindings node callsites :
  ∃ ext, callsiteEnter file source bindings node callsites = callsites ++ ext
         ∧ Forall (λ c, bindings !! fileNameKey file (c_calleeName c) = Some (c_atomName c)
                        ∧ c_atomName c ≠ EmptyString
                        ∧ c_file c = file
                        ∧ ∃ offset, c_line c = offsetToLine source offset) ext.
Proof.
  unfold callsiteEnter.
  destruct (negb (hasType "CallExpression" node)); [apply extends_refl |].
  destruct (negb (hasType "Identifier" (field "callee" node))); [apply extends_refl |].
  destruct (bindings !! _) as [atomName|] eqn:Hbound; [| apply extends_refl].
  destruct (negb (truthy (Some atomName))) eqn:Htruthy; [apply extends_refl |].
  apply negb_false_iff, truthy_nonempty in Htruthy.
  eexists. split; [done |]. apply Forall_singleton. simpl.
  split_and!; [done | done | done | by eexists].
Qed.

(** X19.  The callsite scan reports nothing it was not told: every
    runtime callsite is a call, in a scanned and readable file, of an
    identifier that the binding map binds for that very file, it carries
    the state name the map gives, which is not empty, and an existing line
    of the file. *)
Theorem runtime_callsites_are_bound
    (readFile : string → option string) (parseSync : string → string → option json)
    files bindings :
  Forall (λ c, bindings !! fileNameKey (c_file c) (c_calleeName c) = Some (c_atomName c)
               ∧ c_atomName c ≠ EmptyString
               ∧ c_file c ∈ files
               ∧ ∃ source, readFile (c_file c) = Some source
                           ∧ 1 ≤ c_line c ≤ lineCount source)
         (collectRuntimeWriteCallsites readFile parseSync files bindings).
Proof.
  set (Q := λ c, bindings !! fileNameKey (c_file c) (c_calleeName c) = Some (c_atomName c)
                 ∧ c_atomName c ≠ EmptyString
                 ∧ c_file c ∈ files
                 ∧ ∃ source, readFile (c_file c) = Some source
                             ∧ 1 ≤ c_line c ≤ lineCount source).
  unfold collectRuntimeWriteCallsites.
  assert (∀ pending acc,
             (∀ f, f ∈ pending → f ∈ files) →
             Forall Q acc →
             Forall Q
               (foldl (λ callsites file,
                         match readFile file with
                         | None => callsites
                         | Some source =>
                           match parseSync file source with
                           | None => callsites
                           | Some ast =>
                             walk (callsiteEnter file source bindings) noLeave
                                  (field "program" ast) callsites
                           end
                         end) acc pending)) as Hgen.
  { induction pending as [|f pending IH]; intros acc Hsub Hacc; simpl; [done |].
    apply IH; [intros f' Hf'; apply Hsub; by right |].
    destruct (readFile f) as [source|] eqn:Hread; [| done].
    destruct (parseSync f source) as [ast|]; [| done].
    destruct (walk_extends
                (λ c, bindings !! fileNameKey f (c_calleeName c) = Some (c_atomName c)
                      ∧ c_atomName c ≠ EmptyString
                      ∧ c_file c = f
                      ∧ ∃ offset, c_line c = offsetToLine source offset)
                (callsiteEnter f source bindings) noLeave (field "program" ast))
      with (l := acc) as (ext & -> & Hext).
    - intros n l. apply callsiteEnter_extends.
    - intros n l. apply extends_refl.
    - apply Forall_app. split; [done |]. eapply Forall_impl; [exact Hext |].
      intros c (Hbound & Hname & Hfile & offset & Hline). unfold Q. rewrite Hfile.
      split_and!; [done | done | apply Hsub; by left |].
      exists source. split; [done |]. rewrite Hline. apply offsetToLine_within. }
  apply (Hgen files []); [done | constructor].
Qed.

(** ** The checks *)

Lemma nonempty_length {A} (l : list A) : 0 < length l ↔ l ≠ [].
Proof. destruct l; simpl; split; (done || lia || intros; lia). Qed.

Lemma checkOrphanedAtom_elem extraction resolvedUsages v :
  v ∈ checkOrphanedAtom extraction resolvedUsages
  ↔ ∃ d, d ∈ recoilDefinitions extraction
         ∧ isAtomKind (def_kind d) = true
         ∧ readersOf resolvedUsages (def_name d) ≠ []
         ∧ runtimeSettersOf resolvedUsages (def_name d) = []
         ∧ v = orphanViolation d (readersOf resolvedUsages (def_name d)).
Proof.
  unfold checkOrphanedAtom. generalize (recoilDefinitions extraction) as defs.
  induction defs as [|d defs IH] using rev_ind.
  - simpl. split; [by intros ?%elem_of_nil | by intros (d & ?%elem_of_nil & _)].
  - rewrite foldl_app. cbn [foldl].
    destruct (isAtomKind (def_kind d)) eqn:Hkind; simpl negb; cbv iota.
    + destruct (bool_decide (0 < length _)) eqn:Hreaders;
        [destruct (bool_decide (length _ = 0)) eqn:Hsetters |]; simpl andb; cbv iota.
      * apply bool_decide_eq_true, nonempty_length in Hreaders.
        apply bool_decide_eq_true, length_zero_iff_nil in Hsetters.
        rewrite elem_of_app, IH, list_elem_of_singleton. split.
        -- intros [(d' & Hd' & ?)| ->].
           ++ exists d'. split; [apply elem_of_app; by left | done].
           ++ exists d. split; [apply elem_of_app; right; by left | done].
        -- intros (d' & Hd' & Hk & Hr & Hs & ->).
           apply elem_of_app in Hd' as [Hd'|Hd']; [left; by exists d' |].
           apply list_elem_of_singleton in Hd'. subst d'. by right.
      * apply bool_decide_eq_false in Hsetters. rewrite IH. split.
        -- intros (d' & Hd' & ?). exists d'. split; [apply elem_of_app; by left | done].
        -- intros (d' & Hd' & Hk & Hr & Hs & ->).
           apply elem_of_app in Hd' as [Hd'|Hd']; [by exists d' |].
           apply list_elem_of_singleton in Hd'. subst d'.
           destruct Hsetters. by rewrite Hs.
      * apply bool_decide_eq_false in Hreaders. rewrite IH. split.
        -- intros (d' & Hd' & ?). exists d'. split; [apply elem_of_app; by left | done].
        -- intros (d' & Hd' & Hk & Hr & Hs & ->).
           apply elem_of_app in Hd' as [Hd'|Hd']; [by exists d' |].
           apply list_elem_of_singleton in Hd'. subst d'.
           destruct Hreaders. by apply nonempty_length.
    + rewrite IH. split.
      * intros (d' & Hd' & ?). exists d'. split; [apply elem_of_app; by left | done].
      * intros (d' & Hd' & Hk & Hr & Hs & ->).
        apply elem_of_app in Hd' as [Hd'|Hd']; [by exists d' |].
        apply list_elem_of_singleton in Hd'. subst d'. congruence.
Qed.

Lemma checkUnusedAtom_elem extraction resolvedUsages v :
  v ∈ checkUnusedAtom extraction resolvedUsages
  ↔ ∃ d, d ∈ recoilDefinitions extraction
         ∧ isAtomKind (def_kind d) = true
         ∧ filter (λ u, ru_resolvedName u = def_name d) resolvedUsages = []
         ∧ (def_name d ∉ selectorDependenciesOf extraction)
         ∧ v = unusedViolation d.
Proof.
  unfold checkUnusedAtom. cbv zeta.
  generalize (selectorDependenciesOf extraction) as dependencies. intros dependencies.
  generalize (recoilDefinitions extraction) as defs.
  induction defs as [|d defs IH] using rev_ind.
  - simpl. split; [by intros ?%elem_of_nil | by intros (d & ?%elem_of_nil & _)].
  - rewrite foldl_app. cbn [foldl].
    destruct (isAtomKind (def_kind d)) eqn:Hkind; simpl negb; cbv iota.
    + destruct (bool_decide (length _ = 0)) eqn:Husages;
        [destruct (bool_decide (def_name d ∈ dependencies)) eqn:Hdep |];
        simpl negb; simpl andb; cbv iota.
      * apply bool_decide_eq_true in Hdep. rewrite IH. split.
        -- intros (d' & Hd' & ?). exists d'. split; [apply elem_of_app; by left | done].
        -- intros (d' & Hd' & Hk & Hu & Hn & ->).
           apply elem_of_app in Hd' as [Hd'|Hd']; [by exists d' |].
           apply list_elem_of_singleton in Hd'. by subst d'.
      * apply bool_decide_eq_false in Hdep.
        apply bool_decide_eq_true, length_zero_iff_nil in Husages.
        rewrite elem_of_app, IH, list_elem_of_singleton. split.
        -- intros [(d' & Hd' & ?)| ->].
           ++ exists d'. split; [apply elem_of_app; by left | done].
           ++ exists d. split; [apply elem_of_app; right; by left | done].
        -- intros (d' & Hd' & Hk & Hu & Hn & ->).
           apply elem_of_app in Hd' as [Hd'|Hd']; [left; by exists d' |].
           apply list_elem_of_singleton in Hd'. subst d'. by right.
      * apply bool_decide_eq_false in Husages. rewrite IH. split.
        -- intros (d' & Hd' & ?). exists d'. split; [apply elem_of_app; by left | done].
        -- intros (d' & Hd' & Hk & Hu & Hn & ->).
           apply elem_of_app in Hd' as [Hd'|Hd']; [by exists d' |].
           apply list_elem_of_singleton in Hd'. subst d'.
           destruct Husages. by rewrite Hu.
    + rewrite IH. split.
      * intros (d' & Hd' & ?). exists d'. split; [apply elem_of_app; by left | done].
      * intros (d' & Hd' & Hk & Hu & Hn & ->).
        apply elem_of_app in Hd' as [Hd'|Hd']; [by exists d' |].
        apply list_elem_of_singleton in Hd'. subst d'. congruence.
Qed.

Lemma filter_nil_iff {A} (P : A → Prop) `{∀ x, Decision (P x)} (l : list A) :
  filter P l = [] ↔ ∀ x, x ∈ l → ¬ P x.
Proof.
  split.
  - intros Hnil x Hx HP.
    assert (x ∈ filter P l) as Hin by (by apply list_elem_of_filter).
    rewrite Hnil in Hin. by apply elem_of_nil in Hin.
  - intros Hall. destruct (filter P l) as [|x l'] eqn:Heq; [done |].
    assert (x ∈ filter P l) as Hin by (rewrite Heq; by left).
    apply list_elem_of_filter in Hin as [HP Hx]. by destruct (Hall x Hx).
Qed.

Lemma filter_nonempty_iff {A} (P : A → Prop) `{∀ x, Decision (P x)} (l : list A) :
  filter P l ≠ [] ↔ ∃ x, x ∈ l ∧ P x.
Proof.
  split.
  - destruct (filter P l) as [|x l'] eqn:Heq; [done |]. intros _.
    assert (x ∈ filter P l) as Hin by (rewrite Heq; by left).
    apply list_elem_of_filter in Hin as [HP Hx]. eauto.
  - intros (x & Hx & HP) Hnil.
    assert (x ∈ filter P l) as Hin by (by apply list_elem_of_filter).
    rewrite Hnil in Hin. by apply elem_of_nil in Hin.
Qed.

(** X20.  Check 2 reports a name exactly when it is the name of an atom
    or atom family of the extraction that has at least one resolved reader
    and no resolved usage of type setter; writes of type initializer do
    not count as setters.  Each report is an error of check 2 placed at the
    definition, with one detail line per reader. *)
Theorem orphaned_atom_reported_iff extraction resolvedUsages :
  (∀ name,
     name ∈ map v_atomOrSelectorName (checkOrphanedAtom extraction resolvedUsages)
     ↔ ∃ d, d ∈ recoilDefinitions extraction
            ∧ def_name d = name
            ∧ (def_kind d = KAtom ∨ def_kind d = KAtomFamily)
            ∧ (∃ u, u ∈ resolvedUsages ∧ ru_resolvedName u = name ∧ usageType u = Reader)
            ∧ (∀ u, u ∈ resolvedUsages → ru_resolvedName u = name →
                    usageType u ≠ Setter))
  ∧ Forall (λ v, v_check v = 2
                 ∧ v_severity v = SeverityError
                 ∧ (∃ d, d ∈ recoilDefinitions extraction
                         ∧ v_location v = {| loc_file := def_file d;
                                             loc_line := def_line d |})
                 ∧ length (v_details v)
                   = length (readersOf resolvedUsages (v_atomOrSelectorName v)))
           (checkOrphanedAtom extraction resolvedUsages).
Proof.
  assert (∀ k, isAtomKind k = true ↔ k = KAtom ∨ k = KAtomFamily) as Hkind.
  { intros k. unfold isAtomKind. rewrite orb_true_iff, !bool_decide_eq_true. done. }
  split.
  - intros name. rewrite list_elem_of_fmap. split.
    + intros (v & -> & Hv). apply checkOrphanedAtom_elem in Hv
        as (d & Hd & Hk & Hr & Hs & ->).
      exists d. simpl. split_and!; [done | done | by apply Hkind | |].
      * apply filter_nonempty_iff in Hr as (u & Hu & Hn & Ht). eauto.
      * intros u Hu Hn Ht. apply (proj1 (filter_nil_iff _ _) Hs u Hu). done.
    + intros (d & Hd & <- & Hk & (u & Hu & Hn & Ht) & Hnone).
      exists (orphanViolation d (readersOf resolvedUsages (def_name d))).
      split; [done |]. apply checkOrphanedAtom_elem. exists d.
      split_and!; [done | by apply Hkind | | | done].
      * apply filter_nonempty_iff. eauto.
      * apply filter_nil_iff. intros u' Hu' [Hn' Ht']. by apply (Hnone u' Hu').
  - apply Forall_forall. intros v Hv.
    apply checkOrphanedAtom_elem in Hv as (d & Hd & Hk & Hr & Hs & ->). simpl.
    split_and!; [done | done | by exists d | by rewrite length_map].
Qed.

(** X21.  Check 3 reports a name exactly when it is the name of an atom
    or atom family of the extraction that no resolved usage resolves to
    and that no get() body mentions; each report is a warning of check 3
    without details. *)
Theorem unused_atom_reported_iff extraction resolvedUsages :
  (∀ name,
     name ∈ map v_atomOrSelectorName (checkUnusedAtom extraction resolvedUsages)
     ↔ ∃ d, d ∈ recoilDefinitions extraction
            ∧ def_name d = name
            ∧ (def_kind d = KAtom ∨ def_kind d = KAtomFamily)
            ∧ (∀ u, u ∈ resolvedUsages → ru_resolvedName u ≠ name)
            ∧ (name ∉ selectorDependenciesOf extraction))
  ∧ Forall (λ v, v_check v = 3 ∧ v_severity v = SeverityWarning ∧ v_details v = [])
           (checkUnusedAtom extraction resolvedUsages).
Proof.
  assert (∀ k, isAtomKind k = true ↔ k = KAtom ∨ k = KAtomFamily) as Hkind.
  { intros k. unfold isAtomKind. rewrite orb_true_iff, !bool_decide_eq_true. done. }
  split.
  - intros name. rewrite list_elem_of_fmap. split.
    + intros (v & -> & Hv). apply checkUnusedAtom_elem in Hv
        as (d & Hd & Hk & Hu & Hn & ->).
      exists d. simpl. split_and!; [done | done | by apply Hkind | | done].
      intros u Hin. apply (proj1 (filter_nil_iff _ _) Hu u Hin).
    + intros (d & Hd & <- & Hk & Hnone & Hdep).
      exists (unusedViolation d). split; [done |]. apply checkUnusedAtom_elem.
      exists d. split_and!; [done | by apply Hkind | | done | done].
      apply filter_nil_iff. intros u Hu. by apply Hnone.
  - apply Forall_forall. intros v Hv.
    by apply checkUnusedAtom_elem in Hv as (d & Hd & Hk & Hu & Hn & ->).
Qed.

(** X22.  Checks 2 and 3 never report the same name: an atom reported as
    orphaned has a reader, an atom reported as unused has no usage. *)
Theorem orphaned_and_unused_are_disjoint extraction resolvedUsages :
  ∀ name,
    ¬ (name ∈ map v_atomOrSelectorName (checkOrphanedAtom extraction resolvedUsages)
       ∧ name ∈ map v_atomOrSelectorName (checkUnusedAtom extraction resolvedUsages)).
Proof.
  intros name [H2 H3].
  apply list_elem_of_fmap in H2 as (v2 & Hn2 & H2).
  apply list_elem_of_fmap in H3 as (v3 & Hn3 & H3).
  apply checkOrphanedAtom_elem in H2 as (d2 & _ & _ & Hr & _ & ->).
  apply checkUnusedAtom_elem in H3 as (d3 & _ & _ & Hu & _ & ->).
  simpl in Hn2, Hn3. apply filter_nonempty_iff in Hr as (u & Hin & Hn & _).
  apply (proj1 (filter_nil_iff _ _) Hu u Hin). congruence.
Qed.

Lemma boundaryEnter_invariant jotai source definition collected node st :
  ("get" ∈ localVariableNames st
   ∧ ∃ ext, violations st = collected ++ ext ∧ Forall (boundaryShaped jotai definition) ext) →
  let st' := boundaryEnter (jotaiNamesOf jotai) (jotaiLocalNamesIn jotai (def_file definition))
                           source definition node st in
  "get" ∈ localVariableNames st'
  ∧ ∃ ext, violations st' = collected ++ ext ∧ Forall (boundaryShaped jotai definition) ext.
Proof.
  intros [Hget Hext]. unfold boundaryEnter.
  set (locals := if hasType "VariableDeclarator" node && _ then _ else _).
  assert ("get" ∈ locals) as Hlocals.
  { unfold locals. destruct (_ && _); [| done]. destruct (_ || _); [| done].
    destruct (strField "name" (field "id" node)); [set_solver | done]. }
  clearbody locals. cbv zeta. destruct (negb (hasType "Identifier" node)); [done |].
  destruct (strField "name" node) as [name|]; [| done].
  case_bool_decide as Hlocal; [done |].
  destruct (_ || _) eqn:Hjotai; [| done]. simpl. split; [done |].
  eapply extends_trans; [exact Hext |]. eexists. split; [done |].
  apply Forall_singleton. eexists name, _. split_and!; [done | by intros -> |].
  apply orb_true_iff in Hjotai as [Hj|Hj]; apply bool_decide_eq_true in Hj; auto.
Qed.

Lemma checkBody_extends readFile jotai collected ast definition :
  ∃ ext, checkBody readFile jotai collected (ast, definition) = collected ++ ext
         ∧ Forall (boundaryShaped jotai definition) ext.
Proof.
  unfold checkBody.
  apply (walk_preserves
           (λ st, "get" ∈ localVariableNames st
                  ∧ ∃ ext, violations st = collected ++ ext
                           ∧ Forall (boundaryShaped jotai definition) ext)).
  - intros n st Hst. by apply boundaryEnter_invariant.
  - intros n st Hst. exact Hst.
  - split; [set_solver | apply extends_refl].
Qed.

Lemma bodiesOf_elem body d defs :
  (body, d) ∈ concat (map bodiesOf defs) →
  d ∈ defs
  ∧ ((isSelectorKind (def_kind d) = true ∧ def_getBodyAst d = Some body)
     ∨ (isAtomKind (def_kind d) = true ∧ def_inlineDefaultGetBody d = Some body)).
Proof.
  intros Hin. apply list_elem_of_In, in_concat in Hin as (l & Hl & Hin).
  apply list_elem_of_In in Hl. apply list_elem_of_In in Hin.
  apply list_elem_of_fmap in Hl as (d' & -> & Hd'). unfold bodiesOf in Hin.
  apply elem_of_app in Hin as [Hin|Hin].
  - destruct (def_getBodyAst d') as [body'|] eqn:Hbody; [| by apply elem_of_nil in Hin].
    destruct (isSelectorKind (def_kind d')) eqn:Hkind; [| by apply elem_of_nil in Hin].
    apply list_elem_of_singleton in Hin. injection Hin as -> ->. split; [done | by left].
  - destruct (def_inlineDefaultGetBody d') as [body'|] eqn:Hbody;
      [| by apply elem_of_nil in Hin].
    destruct (isAtomKind (def_kind d')) eqn:Hkind; [| by apply elem_of_nil in Hin].
    apply list_elem_of_singleton in Hin. injection Hin as -> ->. split; [done | by right].
Qed.

Lemma checkCrossSystemBoundary_shape readFile extraction jotai :
  Forall (λ v, ∃ d, d ∈ recoilDefinitions extraction
                    ∧ ((isSelectorKind (def_kind d) = true ∧ is_Some (def_getBodyAst d))
                       ∨ (isAtomKind (def_kind d) = true
                          ∧ is_Some (def_inlineDefaultGetBody d)))
                    ∧ boundaryShaped jotai d v)
         (checkCrossSystemBoundary readFile extraction jotai).
Proof.
  unfold checkCrossSystemBoundary.
  set (Q := λ v, ∃ d, d ∈ recoilDefinitions extraction
                      ∧ ((isSelectorKind (def_kind d) = true ∧ is_Some (def_getBodyAst d))
                         ∨ (isAtomKind (def_kind d) = true
                            ∧ is_Some (def_inlineDefaultGetBody d)))
                      ∧ boundaryShaped jotai d v).
  assert (∀ bodies acc,
             (∀ entry, entry ∈ bodies →
                       entry ∈ concat (map bodiesOf (recoilDefinitions extraction))) →
             Forall Q acc →
             Forall Q (foldl (checkBody readFile jotai) acc bodies)) as Hgen.
  { induction bodies as [|[body d] bodies IH]; intros acc Hsub Hacc; cbn [foldl]; [done |].
    apply IH; [intros entry Hentry; apply Hsub; by right |].
    destruct (checkBody_extends readFile jotai acc body d) as (ext & -> & Hext).
    apply Forall_app. split; [done |]. eapply Forall_impl; [exact Hext |].
    intros v Hv. exists d.
    destruct (bodiesOf_elem body d (recoilDefinitions extraction)) as [Hd Hbody];
      [apply Hsub; by left |].
    split_and!; [done | | done].
    destruct Hbody as [[? ->]|[? ->]]; [left | right]; eauto. }
  apply Hgen; [done | constructor].
Qed.

(** X23.  Check 1 reports only what it found: every violation is an error
    of check 1 against a selector with a get() body or an atom with an
    inline default, and the identifier it quotes is not [get] and is the
    name of a Jotai definition or a Jotai import of the definition's own
    file.  Without Jotai definitions and imports nothing is reported. *)
Theorem cross_system_violations_are_jotai_references
    (readFile : string → option string) extraction jotai :
  Forall (λ v, v_check v = 1
               ∧ v_severity v = SeverityError
               ∧ ∃ d name line,
                   d ∈ recoilDefinitions extraction
                   ∧ ((isSelectorKind (def_kind d) = true ∧ is_Some (def_getBodyAst d))
                      ∨ (isAtomKind (def_kind d) = true
                         ∧ is_Some (def_inlineDefaultGetBody d)))
                   ∧ v = boundaryViolation d name line
                   ∧ name ≠ "get"
                   ∧ (name ∈ map jd_name (jotaiDefinitions jotai)
                      ∨ ∃ i, i ∈ jotaiImports jotai
                             ∧ ji_file i = def_file d ∧ ji_localName i = name))
         (checkCrossSystemBoundary readFile extraction jotai)
  ∧ (jotaiDefinitions jotai = [] → jotaiImports jotai = [] →
     checkCrossSystemBoundary readFile extraction jotai = []).
Proof.
  pose proof (checkCrossSystemBoundary_shape readFile extraction jotai) as Hshape.
  assert (Forall (λ v, v_check v = 1
               ∧ v_severity v = SeverityError
               ∧ ∃ d name line,
                   d ∈ recoilDefinitions extraction
                   ∧ ((isSelectorKind (def_kind d) = true ∧ is_Some (def_getBodyAst d))
                      ∨ (isAtomKind (def_kind d) = true
                         ∧ is_Some (def_inlineDefaultGetBody d)))
                   ∧ v = boundaryViolation d name line
                   ∧ name ≠ "get"
                   ∧ (name ∈ map jd_name (jotaiDefinitions jotai)
                      ∨ ∃ i, i ∈ jotaiImports jotai
                             ∧ ji_file i = def_file d ∧ ji_localName i = name))
         (checkCrossSystemBoundary readFile extraction jotai)) as Hall.
  { eapply Forall_impl; [exact Hshape |].
    intros v (d & Hd & Hbody & name & line & -> & Hget & Hjotai).
    split_and!; [done | done |]. exists d, name, line.
    split_and!; [done | done | done | done |].
    destruct Hjotai as [Hj|Hj].
    - left. unfold jotaiNamesOf in Hj. by apply elem_of_list_to_set in Hj.
    - right. unfold jotaiLocalNamesIn in Hj. apply elem_of_list_to_set in Hj.
      apply list_elem_of_fmap in Hj as (i & -> & Hi).
      apply list_elem_of_filter in Hi as [Hfile Hi]. by exists i. }
  split; [exact Hall |]. intros Hdefs Himports.
  destruct (checkCrossSystemBoundary readFile extraction jotai) as [|v l]; [done |].
  apply Forall_cons in Hall as [(_ & _ & d & name & line & _ & _ & _ & _ & Hjotai) _].
  rewrite Hdefs, Himports in Hjotai.
  destruct Hjotai as [Hj%elem_of_nil|(i & Hi%elem_of_nil & _)]; done.
Qed.

Lemma getExitCode_zero found :
  getExitCode found = 0 ↔ Forall (λ v, v_severity v ≠ SeverityError) found.
Proof.
  unfold getExitCode. induction found as [|v found IH]; simpl; [by split |].
  case_bool_decide as Hsev; simpl.
  - split; [done |]. intros [Hv _]%Forall_cons. done.
  - rewrite IH. split; [by constructor | by intros [_ ?]%Forall_cons].
Qed.

(** X24.  The exit code of a run: it is 0 or 1, and it is 0 exactly when
    checks 1 and 2 found nothing; any number of unused-atom warnings
    leaves it at 0. *)
Theorem exit_code_of_runChecks
    (readFile : string → option string) extraction jotai resolvedUsages :
  let code := getExitCode (runChecks readFile extraction jotai resolvedUsages) in
  (code = 0 ∨ code = 1)
  ∧ (code = 0
     ↔ checkCrossSystemBoundary readFile extraction jotai = []
       ∧ checkOrphanedAtom extraction resolvedUsages = []).
Proof.
  intros code. split.
  - subst code. unfold getExitCode. destruct (existsb _ _); auto.
  - subst code. rewrite getExitCode_zero. unfold runChecks. rewrite !Forall_app.
    pose proof (checkCrossSystemBoundary_shape readFile extraction jotai) as H1.
    split.
    + intros (Hc1 & Hc2 & _). split.
      * destruct (checkCrossSystemBoundary readFile extraction jotai) as [|v l]; [done |].
        apply Forall_cons in H1 as [(d & _ & _ & name & line & -> & _) _].
        apply Forall_cons in Hc1 as [Hv _]. by destruct Hv.
      * destruct (checkOrphanedAtom extraction resolvedUsages) as [|v l] eqn:Heq; [done |].
        assert (v ∈ checkOrphanedAtom extraction resolvedUsages) as Hv
          by (rewrite Heq; by left).
        apply checkOrphanedAtom_elem in Hv as (d & _ & _ & _ & _ & ->).
        apply Forall_cons in Hc2 as [Hv _]. by destruct Hv.
    + intros [-> ->]. split_and!; [constructor | constructor |].
      apply Forall_forall. intros v Hv.
      by apply checkUnusedAtom_elem in Hv as (d & _ & _ & _ & _ & ->).
Qed.

(** Two walks of one tree whose callbacks preserve a relation between
    their states end in related states. *)
Lemma walk_related {S T : Type} (R : S → T → Prop)
    (enter1 leave1 : json → S → S) (enter2 leave2 : json → T → T) node s t :
  (∀ n s t, R s t → R (enter1 n s) (enter2 n t)) →
  (∀ n s t, R s t → R (leave1 n s) (leave2 n t)) →
  R s t → R (walk enter1 leave1 node s) (walk enter2 leave2 node t).
Proof.
  intros Henter Hleave. unfold walk. generalize (events node) as evs. intros evs.
  revert s t. induction evs as [|ev evs IH]; intros s t Hst; simpl; [done |].
  apply IH. destruct ev; auto.
Qed.

Lemma collectGetEnter_grows node dependencies :
  dependencies ⊆ collectGetEnter node dependencies.
Proof.
  unfold collectGetEnter. destruct (negb _); [done |]. destruct (_ || _); [done |].
  destruct (falsy _); [done |].
  set (dependencies1 := if hasType "Identifier" _ then _ else _).
  assert (dependencies ⊆ dependencies1) as H1.
  { unfold dependencies1. destruct (hasType _ _); [| done].
    destruct (strField _ _); set_solver. }
  clearbody dependencies1. cbv zeta.
  destruct (hasType "CallExpression" _ && _); [| done].
  destruct (strField "name" _); [| done].
  apply union_subseteq_r'. exact H1.
Qed.

Lemma collectGetEnter_adds node dependencies name :
  hasType "CallExpression" node = true →
  hasType "Identifier" (field "callee" node) = true →
  strField "name" (field "callee" node) = Some "get" →
  extractAtomName (firstArgument node) = Some name →
  name ∈ collectGetEnter node dependencies.
Proof.
  intros Hcall Hcallee Hget Hname. unfold collectGetEnter.
  rewrite Hcall, Hcallee, Hget.
  rewrite (bool_decide_eq_true_2 (Some "get" = Some "get")) by done.
  cbn [negb orb]. unfold extractAtomName in Hname.
  destruct (hasType "Identifier" (firstArgument node)) eqn:Hident.
  - assert (falsy (firstArgument node) = false) as ->.
    { apply hasType_true in Hident. unfold strField, field in Hident.
      by destruct (firstArgument node). }
    rewrite Hname.
    destruct (_ && _);
      [destruct (strField "name" (field "callee" (firstArgument node))) |]; set_solver.
  - destruct (hasType "CallExpression" (firstArgument node)
              && hasType "Identifier" (field "callee" (firstArgument node))) eqn:Hfamily;
      [| done].
    assert (falsy (firstArgument node) = false) as ->.
    { apply andb_true_iff in Hfamily as [Hfamily _].
      apply hasType_true in Hfamily. unfold strField, field in Hfamily.
      by destruct (firstArgument node). }
    rewrite Hname. set_solver.
Qed.

Lemma walkSelectorGetBody_dependencies (known : Usage → Prop)
    body filePath source usages definitionName dependencies :
  Forall (λ u, known u ∨ u_atomName u ∈ dependencies) usages →
  dependencies ⊆ collectGetDependencies body dependencies
  ∧ Forall (λ u, known u ∨ u_atomName u ∈ collectGetDependencies body dependencies)
           (walkSelectorGetBody body filePath source usages definitionName).
Proof.
  intros Husages. unfold walkSelectorGetBody, collectGetDependencies.
  apply (walk_related
           (λ (l : list Usage) (deps : gset string),
              dependencies ⊆ deps ∧ Forall (λ u, known u ∨ u_atomName u ∈ deps) l)).
  - intros n l deps [Hsub Hall].
    pose proof (collectGetEnter_grows n deps) as Hgrow. split; [set_solver |].
    assert (Forall (λ u, known u ∨ u_atomName u ∈ collectGetEnter n deps) l) as Hold.
    { eapply Forall_impl; [exact Hall |]. intros u [?|?]; [by left | right; set_solver]. }
    unfold selectorGetEnter.
    destruct (negb (hasType "CallExpression" n)) eqn:Hcall; [done |].
    apply negb_false_iff in Hcall.
    destruct (hasType "Identifier" (field "callee" n)) eqn:Hcallee; [| done].
    case_bool_decide as Hget; [| done]. simpl.
    unfold pushIfNamed.
    destruct (extractAtomName (firstArgument n)) as [name|] eqn:Hname; [| done].
    destruct (truthy (Some name)); [| done].
    apply Forall_app. split; [done |]. apply Forall_singleton. right. simpl.
    by apply collectGetEnter_adds.
  - intros n l deps Hrel. exact Hrel.
  - done.
Qed.

Lemma collectFromDefinition_dependencies (known : Usage → Prop)
    readFile usages def dependencies :
  Forall (λ u, known u ∨ u_atomName u ∈ dependencies) usages →
  let dependencies1 :=
    match def_getBodyAst def with
    | Some body =>
      if isSelectorKind (def_kind def) then collectGetDependencies body dependencies
      else dependencies
    | None => dependencies
    end in
  let dependencies2 :=
    match def_inlineDefaultGetBody def with
    | Some body =>
      if isAtomKind (def_kind def) then collectGetDependencies body dependencies1
      else dependencies1
    | None => dependencies1
    end in
  Forall (λ u, known u ∨ u_atomName u ∈ dependencies2)
         (collectFromDefinition readFile usages def).
Proof.
  intros Husages dependencies1 dependencies2.
  assert (∀ l (d1 d2 : gset string),
             d1 ⊆ d2 → Forall (λ u, known u ∨ u_atomName u ∈ d1) l →
             Forall (λ u, known u ∨ u_atomName u ∈ d2) l) as Hmono.
  { intros l d1 d2 Hsub Hl. eapply Forall_impl; [exact Hl |].
    intros u [?|?]; [by left | right; set_solver]. }
  assert (dependencies ⊆ dependencies1) as Hsub1.
  { unfold dependencies1. destruct (def_getBodyAst def) as [body|]; [| done].
    destruct (isSelectorKind _); [| done].
    apply (walkSelectorGetBody_dependencies known body EmptyString EmptyString []
             EmptyString dependencies). constructor. }
  assert (dependencies1 ⊆ dependencies2) as Hsub2.
  { unfold dependencies2. destruct (def_inlineDefaultGetBody def) as [body|]; [| done].
    destruct (isAtomKind _); [| done].
    apply (walkSelectorGetBody_dependencies known body EmptyString EmptyString []
             EmptyString dependencies1). constructor. }
  unfold collectFromDefinition, readFileSource.
  destruct (readFile (def_file def)) as [source|];
    [| apply (Hmono _ dependencies); [set_solver | done]].
  destruct (negb _); [apply (Hmono _ dependencies); [set_solver | done] |].
  set (usages1 := match def_getBodyAst def with Some _ => _ | None => _ end).
  assert (Forall (λ u, known u ∨ u_atomName u ∈ dependencies1) usages1) as Husages1.
  { unfold usages1, dependencies1. destruct (def_getBodyAst def) as [body|]; [| done].
    destruct (isSelectorKind _); [| done].
    by apply walkSelectorGetBody_dependencies. }
  unfold dependencies2. destruct (def_inlineDefaultGetBody def) as [body|]; [| done].
  destruct (isAtomKind _); [| done].
  by apply walkSelectorGetBody_dependencies.
Qed.

(** X25.  The collector and check 3 agree on selector reads: every
    [get(selector)] usage that [collectUsages] returns names a state that
    is in the selector-dependency set of check 3, so a state read in a
    get() body is never reported as unused, whether or not the resolver
    resolves the read. *)
Theorem selector_reads_are_never_unused
    (readFile : string → option string) (parseSync : string → string → option json)
    (files : list string) (extraction : ExtractionResult) :
  Forall (λ u, u_hook u = "get(selector)" →
               u_atomName u ∈ selectorDependenciesOf extraction
               ∧ ∀ resolvedUsages,
                   u_atomName u
                   ∉ map v_atomOrSelectorName (checkUnusedAtom extraction resolvedUsages))
         (collectUsages readFile parseSync files extraction).
Proof.
  set (known := λ u : Usage, u_hook u ≠ "get(selector)").
  assert (Forall (λ u, known u ∨ u_atomName u ∈ selectorDependenciesOf extraction)
                 (collectUsages readFile parseSync files extraction)) as Hall.
  { unfold collectUsages, collectFromSelectorBodies, selectorDependenciesOf.
    assert (Forall (λ u, known u ∨ u_atomName u ∈ (∅ : gset string))
                   (foldl (collectFileUsages readFile parseSync) [] files)) as Hhook.
    { eapply Forall_impl; [apply hookPass_shaped |]. intros u [_ Hin]. left.
      intros Heq. rewrite Heq in Hin. set_solver. }
    revert Hhook. generalize (foldl (collectFileUsages readFile parseSync) [] files) as acc.
    generalize (∅ : gset string) as dependencies.
    generalize (recoilDefinitions extraction) as defs.
    induction defs as [|d defs IH]; intros dependencies acc Hacc; simpl; [done |].
    apply IH. by apply collectFromDefinition_dependencies. }
  eapply Forall_impl; [exact Hall |]. intros u Hu Hhook.
  destruct Hu as [Hknown|Hdep]; [by destruct Hknown |].
  split; [done |]. intros resolvedUsages Hin.
  apply list_elem_of_fmap in Hin as (v & Hname & Hv).
  apply checkUnusedAtom_elem in Hv as (d & _ & _ & _ & Hnot & ->).
  simpl in Hname. apply Hnot. by rewrite <- Hname.
Qed.

(** ** The usage collector, file by file *)

Lemma pushIfNamed_prefix atomName mk (acc l : list Usage) :
  pushIfNamed atomName mk (acc ++ l) = acc ++ pushIfNamed atomName mk l.
Proof.
  unfold pushIfNamed. destruct atomName as [name|]; [| done].
  destruct (truthy (Some name)); [by rewrite app_assoc | done].
Qed.

Lemma conditional_push_prefix (c : bool) atomName mk (acc l : list Usage) :
  (if c then pushIfNamed atomName mk (acc ++ l) else acc ++ l)
  = acc ++ (if c then pushIfNamed atomName mk l else l).
Proof. destruct c; [apply pushIfNamed_prefix | done]. Qed.

Lemma callbackEnter_prefix context filePath source ancestors node (acc l : list Usage) :
  callbackEnter context filePath source ancestors node (acc ++ l)
  = acc ++ callbackEnter context filePath source ancestors node l.
Proof.
  unfold callbackEnter. destruct (negb (hasType "CallExpression" node)); [done |].
  cbv zeta. by rewrite !conditional_push_prefix.
Qed.

(** A walk whose callbacks only append commutes with a prefix of its
    accumulator. *)
Lemma walk_prefix {A : Type} (enter leave : json → list A → list A) node (acc : list A) :
  (∀ n l, enter n (acc ++ l) = acc ++ enter n l) →
  (∀ n l, leave n (acc ++ l) = acc ++ leave n l) →
  ∀ l, walk enter leave node (acc ++ l) = acc ++ walk enter leave node l.
Proof.
  intros Henter Hleave l.
  apply (walk_related (λ l1 l2, l1 = acc ++ l2)); [| | done].
  - intros n l1 l2 ->. apply Henter.
  - intros n l1 l2 ->. apply Hleave.
Qed.

Lemma walkCallbackBody_prefix body context filePath source ancestors (acc l : list Usage) :
  walkCallbackBody body context filePath source (acc ++ l) ancestors
  = acc ++ walkCallbackBody body context filePath source l ancestors.
Proof.
  unfold walkCallbackBody. apply walk_prefix; [| done].
  intros n l'. apply callbackEnter_prefix.
Qed.

Lemma hookCallUsages_prefix filePath source hookName callNode ancestors
    (acc l : list Usage) :
  hookCallUsages filePath source hookName callNode ancestors (acc ++ l)
  = acc ++ hookCallUsages filePath source hookName callNode ancestors l.
Proof.
  unfold hookCallUsages.
  repeat (case_bool_decide; [apply pushIfNamed_prefix |]).
  case_bool_decide; [| done].
  destruct (_ && _); [done |].
  destruct (arrField "params" _) as [[|parameter params]|]; try done.
  destruct (field "body" _); try done.
  apply walkCallbackBody_prefix.
Qed.

Lemma collectEnter_prefix filePath source node st1 st2 (acc : list Usage) :
  hookAliases st1 = hookAliases st2 →
  ancestors st1 = ancestors st2 →
  functionNameStack st1 = functionNameStack st2 →
  usages st1 = acc ++ usages st2 →
  let st1' := collectEnter filePath source node st1 in
  let st2' := collectEnter filePath source node st2 in
  hookAliases st1' = hookAliases st2'
  ∧ ancestors st1' = ancestors st2'
  ∧ functionNameStack st1' = functionNameStack st2'
  ∧ usages st1' = acc ++ usages st2'.
Proof.
  intros Haliases Hancestors Hstack Husages. unfold collectEnter.
  rewrite Haliases, Hancestors, Hstack, Husages.
  destruct (hasType "ImportDeclaration" node); [done |].
  destruct (negb (hasType "CallExpression" node)); [done |].
  destruct (negb (hasType "Identifier" (field "callee" node))); [done |].
  destruct (_ && _).
  { simpl. split_and!; [done | done | done | apply pushIfNamed_prefix]. }
  destruct (_ ≫= _) as [hookName|]; [| done].
  destruct (negb (truthy (Some hookName))); [done |].
  simpl. split_and!; [done | done | done | apply hookCallUsages_prefix].
Qed.

Lemma collectFromFile_prefix parseSync filePath source (acc : list Usage) :
  collectFromFile parseSync filePath source acc
  = acc ++ collectFromFile parseSync filePath source [].
Proof.
  unfold collectFromFile. destruct (parseSync filePath source) as [ast|];
    [| by rewrite app_nil_r].
  apply (walk_related
           (λ st1 st2, hookAliases st1 = hookAliases st2
                       ∧ ancestors st1 = ancestors st2
                       ∧ functionNameStack st1 = functionNameStack st2
                       ∧ usages st1 = acc ++ usages st2)
           (collectEnter filePath source) collectLeave
           (collectEnter filePath source) collectLeave).
  - intros n st1 st2 (? & ? & ? & ?). by apply collectEnter_prefix.
  - intros n st1 st2 (Ha & Hn & Hs & Hu). unfold collectLeave. simpl.
    rewrite Ha, Hn, Hs, Hu. done.
  - simpl. by rewrite app_nil_r.
Qed.

Lemma collectFileUsages_prefix readFile parseSync (acc : list Usage) filePath :
  collectFileUsages readFile parseSync acc filePath
  = acc ++ collectFileUsages readFile parseSync [] filePath.
Proof.
  unfold collectFileUsages, readFileSource.
  destruct (readFile filePath) as [source|]; [| by rewrite app_nil_r].
  destruct (negb _); [by rewrite app_nil_r |]. apply collectFromFile_prefix.
Qed.

Lemma walkSelectorGetBody_prefix body filePath source definitionName (acc l : list Usage) :
  walkSelectorGetBody body filePath source (acc ++ l) definitionName
  = acc ++ walkSelectorGetBody body filePath source l definitionName.
Proof.
  unfold walkSelectorGetBody. apply walk_prefix; [| done].
  intros n l'. unfold selectorGetEnter. destruct (negb _); [done |].
  destruct (_ && _); [apply pushIfNamed_prefix | done].
Qed.

Lemma collectFromDefinition_prefix readFile (acc : list Usage) def :
  collectFromDefinition readFile acc def = acc ++ collectFromDefinition readFile [] def.
Proof.
  unfold collectFromDefinition, readFileSource.
  destruct (readFile (def_file def)) as [source|]; [| by rewrite app_nil_r].
  destruct (negb _); [by rewrite app_nil_r |].
  assert (∀ l,
             match def_getBodyAst def with
             | Some body =>
               if isSelectorKind (def_kind def)
               then walkSelectorGetBody body (def_file def) source (acc ++ l) (def_name def)
               else acc ++ l
             | None => acc ++ l
             end
             = acc ++ match def_getBodyAst def with
                      | Some body =>
                        if isSelectorKind (def_kind def)
                        then walkSelectorGetBody body (def_file def) source l (def_name def)
                        else l
                      | None => l
                      end) as Hfirst.
  { intros l. destruct (def_getBodyAst def) as [body|]; [| done].
    destruct (isSelectorKind _); [apply walkSelectorGetBody_prefix | done]. }
  specialize (Hfirst []). rewrite app_nil_r in Hfirst. rewrite Hfirst.
  destruct (def_inlineDefaultGetBody def) as [body|]; [| done].
  destruct (isAtomKind _); [apply walkSelectorGetBody_prefix | done].
Qed.

Lemma foldl_prefix_concat {A B} (step : list B → A → list B) (items : list A) :
  (∀ acc x, step acc x = acc ++ step [] x) →
  ∀ acc, foldl step acc items = acc ++ concat (map (step []) items).
Proof.
  intros Hstep. induction items as [|x items IH]; intros acc; simpl.
  - by rewrite app_nil_r.
  - rewrite IH, (Hstep acc x). by rewrite app_assoc.
Qed.

(** C9.  In the output of [collectUsages] a usage has its
    [enclosingDefinition] set exactly when its hook tag is
    ['get(selector)'].  The output is the hook/call-site pass followed, in
    the order of the recorded definitions, by what the walk of each
    definition's selector or inline-default get body emits on its own:
    every usage emitted by the walk of a definition's bodies has the tag
    ['get(selector)'] and carries the name of that very definition, and
    no usage of the hook/call-site pass carries an [enclosingDefinition]
    or that tag. *)
Theorem enclosingDefinition_iff_selector_read
    (readFile : string → option string) (parseSync : string → string → option json)
    (files : list string) (extraction : ExtractionResult) :
  let hookPass := foldl (collectFileUsages readFile parseSync) [] files in
  let perDefinition :=
    map (collectFromDefinition readFile []) (recoilDefinitions extraction) in
  collectUsages readFile parseSync files extraction = hookPass ++ concat perDefinition
  ∧ Forall (λ u, u_enclosingDefinition u = None ∧ u_hook u ≠ "get(selector)") hookPass
  ∧ Forall2 (λ def emitted,
               Forall (λ u, u_hook u = "get(selector)"
                            ∧ u_enclosingDefinition u = Some (def_name def)) emitted)
            (recoilDefinitions extraction) perDefinition
  ∧ ∀ u, u ∈ collectUsages readFile parseSync files extraction →
         (is_Some (u_enclosingDefinition u) ↔ u_hook u = "get(selector)").
Proof.
  intros hookPass perDefinition.
  assert (collectUsages readFile parseSync files extraction
          = hookPass ++ concat perDefinition) as Heq.
  { unfold collectUsages, collectFromSelectorBodies. fold hookPass.
    by rewrite (foldl_prefix_concat (collectFromDefinition readFile))
      by apply collectFromDefinition_prefix. }
  assert (Forall (λ u, u_enclosingDefinition u = None ∧ u_hook u ≠ "get(selector)")
                 hookPass) as Hhook.
  { eapply Forall_impl; [apply hookPass_shaped |]. intros u [Hnone Hin]. split; [done |].
    intros Htag. rewrite Htag in Hin. set_solver. }
  assert (Forall2 (λ def emitted,
                     Forall (λ u, u_hook u = "get(selector)"
                                  ∧ u_enclosingDefinition u = Some (def_name def))
                            emitted)
                  (recoilDefinitions extraction) perDefinition) as Hbody.
  { assert (∀ def, Forall (λ u, u_hook u = "get(selector)"
                                ∧ u_enclosingDefinition u = Some (def_name def))
                          (collectFromDefinition readFile [] def)) as Hown.
    { intros def.
      destruct (collectFromDefinition_extends readFile [] def) as (ext & -> & Hext).
      simpl. eapply Forall_impl; [exact Hext |]. by intros u (Htag & _ & Hname & _). }
    unfold perDefinition. apply Forall2_fmap_r, Forall_Forall2_diag, Forall_forall.
    intros def _. apply Hown. }
  split_and!; [done | done | done |].
  intros u Hu. rewrite Heq in Hu. apply elem_of_app in Hu as [Hu|Hu].
  - rewrite Forall_forall in Hhook. destruct (Hhook u Hu) as [Hnone Hne].
    rewrite Hnone. split; [by intros [? ?] | done].
  - apply list_elem_of_In, in_concat in Hu as (emitted & Hemitted & Hu).
    apply list_elem_of_In in Hemitted. apply list_elem_of_In in Hu.
    apply list_elem_of_lookup in Hemitted as [i Hi].
    destruct (Forall2_lookup_r _ _ _ i emitted Hbody Hi) as (def & _ & Hdef).
    rewrite Forall_forall in Hdef. destruct (Hdef u Hu) as [Htag Hname].
    rewrite Hname. split; [done | eauto].
Qed.

(** X26.  [collectUsages] works file by file and definition by
    definition: its result is the concatenation, in the order of [files],
    of what each file yields on its own, followed by the concatenation, in
    the order of the recorded definitions, of what each definition's get()
    bodies yield on their own.  No file or definition influences what
    another contributes. *)
Theorem collectUsages_is_concatenation
    (readFile : string → option string) (parseSync : string → string → option json)
    (files : list string) (extraction : ExtractionResult) :
  collectUsages readFile parseSync files extraction
  = concat (map (collectFileUsages readFile parseSync []) files)
    ++ concat (map (collectFromDefinition readFile []) (recoilDefinitions extraction)).
Proof.
  unfold collectUsages, collectFromSelectorBodies.
  rewrite (foldl_prefix_concat (collectFromDefinition readFile))
    by apply collectFromDefinition_prefix.
  rewrite (foldl_prefix_concat (collectFileUsages readFile parseSync))
    by apply collectFileUsages_prefix.
  done.
Qed.

(** ** The definition extractor *)

Lemma addJotaiImport_invariant files source filePath specifiers :
  filePath ∈ files →
  isJotaiSource source = true →
  ∀ recorded aliases,
    Forall (wellFormedJotaiImport files) recorded →
    Forall (wellFormedJotaiImport files)
           (foldl (addJotaiImport source filePath) (recorded, aliases) specifiers).1.
Proof.
  intros Hfile Hsource. induction specifiers as [|spec specifiers IH];
    intros recorded aliases Hall; cbn [foldl]; [done |].
  unfold addJotaiImport at 2. destruct (_ || _); [by apply IH |].
  destruct (strField "name" (field "imported" spec)) as [importedName|] eqn:Himported;
    [| by apply IH].
  destruct (strField "name" (field "local" spec)) as [localName|] eqn:Hlocal;
    [| by apply IH].
  destruct (truthy (Some importedName)) eqn:Hti; [| by apply IH].
  destruct (truthy (Some localName)) eqn:Htl; [| by apply IH].
  simpl negb. simpl orb. cbv iota. apply IH. apply Forall_app. split; [done |].
  apply Forall_singleton. split_and!; simpl; [done | done | |]; by apply truthy_nonempty.
Qed.

Lemma extractImport_invariant readFile files filePath node st :
  filePath ∈ files →
  extractInvariant readFile files st →
  extractInvariant readFile files (extractImport filePath node st).
Proof.
  intros Hfile (Hd & Hj & Hi). unfold extractImport.
  destruct (negb _); [done |].
  destruct (arrField "specifiers" node) as [specifiers|]; [| done].
  destruct (_ && _); [done |].
  destruct (isJotaiSource _) eqn:Hsource; [| done].
  destruct (bool_decide _); [done |].
  pose proof (addJotaiImport_invariant files _ filePath specifiers Hfile Hsource
                (x_jotaiImports st) (jotaiCreatorAliases st) Hi) as Hrecorded.
  destruct (foldl _ _ specifiers) as [recorded creators]. done.
Qed.

Lemma recoilDefinitionOf_exclusive filePath defName line kind callNode aliases :
  let d := recoilDefinitionOf filePath defName line kind callNode aliases in
  (isSelectorKind (def_kind d) = true → def_inlineDefaultGetBody d = None)
  ∧ (isAtomKind (def_kind d) = true → def_getBodyAst d = None).
Proof. destruct kind; simpl; split; intros H; (done || by vm_compute in H). Qed.

Lemma extractCall_invariant readFile files filePath source node parent st :
  filePath ∈ files →
  readFile filePath = Some source →
  extractInvariant readFile files st →
  extractInvariant readFile files (extractCall filePath source node parent st).
Proof.
  intros Hfile Hread (Hd & Hj & Hi). unfold extractCall.
  destruct (negb _); [done |]. destruct (negb _); [done |].
  destruct (_ ≫= _) as [kind|].
  - split_and!; [| done | done]. simpl. apply Forall_app. split; [done |].
    apply Forall_singleton. split_and!.
    + done.
    + exists source. split; [done |]. apply offsetToLine_within.
    + apply recoilDefinitionOf_exclusive.
    + apply recoilDefinitionOf_exclusive.
  - destruct (_ ≫= _) as [jotaiKind|]; [| done].
    destruct (truthy _); [| done].
    split_and!; [done | | done]. simpl. apply Forall_app. split; [done |].
    apply Forall_singleton. split; [done |].
    exists source. split; [done |]. apply offsetToLine_within.
Qed.

Lemma extractFromFile_invariant readFile parseSync files filePath source result :
  filePath ∈ files →
  readFile filePath = Some source →
  Forall (wellFormedDefinition readFile files) (recoilDefinitions result.1)
  ∧ Forall (wellFormedJotaiDefinition readFile files) (jotaiDefinitions result.2)
  ∧ Forall (wellFormedJotaiImport files) (jotaiImports result.2) →
  let result' := extractFromFile parseSync filePath source result in
  Forall (wellFormedDefinition readFile files) (recoilDefinitions result'.1)
  ∧ Forall (wellFormedJotaiDefinition readFile files) (jotaiDefinitions result'.2)
  ∧ Forall (wellFormedJotaiImport files) (jotaiImports result'.2).
Proof.
  intros Hfile Hread Hresult. unfold extractFromFile.
  destruct (parseSync filePath source) as [ast|]; [| done]. cbv zeta. simpl fst. simpl snd.
  cbn [recoilDefinitions jotaiDefinitions jotaiImports].
  apply (walk_preserves (extractInvariant readFile files)).
  - intros n st Hst. unfold extractEnter.
    assert (∀ st', extractInvariant readFile files st' →
                   extractInvariant readFile files (pushParent n st')) as Hpush by done.
    apply Hpush. destruct (hasType "ImportDeclaration" n);
      [by apply extractImport_invariant |].
    destruct (_ && _); [by apply extractCall_invariant | done].
  - intros n st Hst. exact Hst.
  - exact Hresult.
Qed.

(** X27.  Everything [extractDefinitions] records is well formed: a
    Recoil or Jotai definition sits on an existing line of a scanned file
    that could be read; a selector carries no inline default body and an
    atom no get() body of its own; a Jotai import comes from a Jotai
    module of a scanned file, under non-empty names. *)
Theorem extractDefinitions_well_formed
    (readFile : string → option string) (parseSync : string → string → option json)
    (files : list string) :
  let result := extractDefinitions readFile parseSync files in
  Forall (wellFormedDefinition readFile files) (recoilDefinitions result.1)
  ∧ Forall (wellFormedJotaiDefinition readFile files) (jotaiDefinitions result.2)
  ∧ Forall (wellFormedJotaiImport files) (jotaiImports result.2).
Proof.
  unfold extractDefinitions.
  assert (∀ pending result,
             (∀ f, f ∈ pending → f ∈ files) →
             Forall (wellFormedDefinition readFile files) (recoilDefinitions result.1)
             ∧ Forall (wellFormedJotaiDefinition readFile files) (jotaiDefinitions result.2)
             ∧ Forall (wellFormedJotaiImport files) (jotaiImports result.2) →
             let result' :=
               foldl (λ result filePath,
                        match readFile filePath with
                        | None => result
                        | Some source => extractFromFile parseSync filePath source result
                        end) result pending in
             Forall (wellFormedDefinition readFile files) (recoilDefinitions result'.1)
             ∧ Forall (wellFormedJotaiDefinition readFile files)
                      (jotaiDefinitions result'.2)
             ∧ Forall (wellFormedJotaiImport files) (jotaiImports result'.2)) as Hgen.
  { induction pending as [|f pending IH]; intros result Hsub Hresult; cbn [foldl]; [done |].
    apply IH; [intros f' Hf'; apply Hsub; by right |].
    destruct (readFile f) as [source|] eqn:Hread; [| done].
    apply extractFromFile_invariant; [apply Hsub; by left | done | done]. }
  apply Hgen; [done |]. simpl. split_and!; constructor.
Qed.

(** X28.  Definitions are recognised only through the imports from
    ['recoil'] of the file itself: a file with no such import adds no
    Recoil definition, whatever it calls. *)
Theorem no_recoil_import_no_definition
    (parseSync : string → string → option json) filePath source ast result :
  parseSync filePath source = Some ast →
  importsNothingFromRecoil (field "program" ast) →
  recoilDefinitions (extractFromFile parseSync filePath source result).1
  = recoilDefinitions result.1.
Proof.
  intros Hparse Himports. unfold extractFromFile. rewrite Hparse. cbv zeta.
  cbn [fst recoilDefinitions].
  assert (∀ st, recoilAliases st = ∅
                ∧ x_recoilDefinitions st = recoilDefinitions result.1 →
                x_recoilDefinitions st = recoilDefinitions result.1) as Hout by naive_solver.
  apply Hout.
  apply (walk_preserves_on
           (λ st, recoilAliases st = ∅
                  ∧ x_recoilDefinitions st = recoilDefinitions result.1)
           (λ node, hasType "ImportDeclaration" node = true →
                    strField "value" (field "source" node) ≠ Some "recoil")).
  - exact Himports.
  - intros n st Hok [Haliases Hdefs]. unfold extractEnter.
    assert (∀ st', recoilAliases st' = ∅
                   ∧ x_recoilDefinitions st' = recoilDefinitions result.1 →
                   recoilAliases (pushParent n st') = ∅
                   ∧ x_recoilDefinitions (pushParent n st') = recoilDefinitions result.1)
      as Hpush by done.
    apply Hpush. destruct (hasType "ImportDeclaration" n) eqn:Himport.
    + unfold extractImport. destruct (negb _); [done |].
      destruct (arrField "specifiers" n) as [specifiers|]; [| done].
      assert (String.eqb (default EmptyString (strField "value" (field "source" n)))
                         "recoil" = false) as ->.
      { apply String.eqb_neq. intros Heq. apply (Hok eq_refl).
        destruct (strField "value" (field "source" n)) as [s|]; simpl in Heq; by subst. }
      simpl andb. cbv iota. destruct (isJotaiSource _); [| done].
      destruct (bool_decide _); [done |]. by destruct (foldl _ _ specifiers).
    + destruct (_ && _); [| done]. unfold extractCall.
      destruct (negb _); [done |]. destruct (negb _); [done |].
      rewrite Haliases.
      assert (strField "name" (field "callee" n) ≫= (λ name, (∅ : gmap string StateKind) !! name)
              = None) as ->.
      { destruct (strField "name" (field "callee" n)); simpl; [apply lookup_empty | done]. }
      destruct (_ ≫= _) as [jotaiKind|]; [| done]. by destruct (truthy _).
  - intros n st Hst. exact Hst.
  - done.
Qed.

(** ** The command line *)

Lemma parseLoop_invariant argv0 n :
  ∀ argv st st',
    length argv ≤ n →
    (∀ x, x ∈ argv → x ∈ argv0) →
    argsInvariant argv0 st →
    parseLoop argv st = inr st' →
    argsInvariant argv0 st'.
Proof.
  induction n as [|n IH]; intros argv st st' Hlen Hsub Hinv Hrun.
  { destruct argv; [| simpl in Hlen; lia]. by injection Hrun as <-. }
  destruct argv as [|argument rest]; [by injection Hrun as <- |].
  simpl in Hlen. destruct Hinv as (Hatom & Hfile & Hdir & Hgit & Hmode).
  assert (argument ∈ argv0) as Harg by (apply Hsub; by left).
  assert (∀ x, x ∈ rest → x ∈ argv0) as Hrest by (intros x Hx; apply Hsub; by right).
  simpl in Hrun.
  destruct (String.eqb argument "--atom") eqn:Ha.
  { apply String.eqb_eq in Ha. subst argument.
    destruct rest as [|value rest']; [done |].
    destruct (rejectedValue value) eqn:Hvalue; [done |].
    eapply (IH rest'); [simpl in Hlen; lia | | | exact Hrun].
    - intros x Hx. apply Hrest. by right.
    - split_and!; try done. simpl. intros v [= <-].
      split_and!; [done | apply Hrest; by left | done]. }
  destruct (String.eqb argument "--file") eqn:Hf.
  { apply String.eqb_eq in Hf. subst argument.
    destruct rest as [|value rest']; [done |].
    destruct (rejectedValue value) eqn:Hvalue; [done |].
    eapply (IH rest'); [simpl in Hlen; lia | | | exact Hrun].
    - intros x Hx. apply Hrest. by right.
    - split_and!; try done. simpl. intros v [= <-].
      split_and!; [done | apply Hrest; by left | done]. }
  destruct (String.eqb argument "--git") eqn:Hg.
  { apply String.eqb_eq in Hg. subst argument.
    eapply (IH rest); [lia | done | | exact Hrun]. by split_and!. }
  destruct (String.eqb argument "--json").
  { eapply (IH rest); [lia | done | | exact Hrun]. by split_and!. }
  destruct (String.eqb argument "--verbose").
  { eapply (IH rest); [lia | done | | exact Hrun]. by split_and!. }
  destruct (String.eqb argument "--writer-mode") eqn:Hw.
  { apply String.eqb_eq in Hw. subst argument.
    destruct rest as [|modeValue rest']; [injection Hrun as <-; by split_and! |].
    eapply (IH rest'); [simpl in Hlen; lia | | | exact Hrun].
    - intros x Hx. apply Hrest. by right.
    - split_and!; try done. simpl.
      destruct (String.eqb modeValue "legacy") eqn:Hl; [| done].
      apply String.eqb_eq in Hl. subst modeValue. intros _.
      split; [done | apply Hrest; by left]. }
  destruct (negb (String.prefix "--" argument)) eqn:Hp.
  { eapply (IH rest); [lia | done | | exact Hrun].
    split_and!; try done. simpl. intros d [= <-].
    split; [by apply negb_true_iff | done]. }
  eapply (IH rest); [lia | done | | exact Hrun]. by split_and!.
Qed.

(** X29.  What a successful [parseArgs] guarantees: exactly one of the
    modes was requested and [mode] names it; the atom name or file path is
    a non-empty argument that follows its option and does not start with
    two dashes; the target directory is an argument that does not start
    with two dashes, resolved, and it exists; the writer mode is
    coverage-first unless [--writer-mode legacy] was given. *)
Theorem parseArgs_success
    (pathResolve : string → string) (existsSync : string → bool) argv parsed :
  parseArgs pathResolve existsSync argv = inr parsed →
  match pa_mode parsed with
  | ModeAtom =>
    (∃ name, pa_atomName parsed = Some name ∧ name ≠ EmptyString
             ∧ String.prefix "--" name = false ∧ name ∈ argv ∧ "--atom" ∈ argv)
    ∧ pa_filePath parsed = None
  | ModeFile =>
    (∃ path, pa_filePath parsed = Some path ∧ path ≠ EmptyString
             ∧ String.prefix "--" path = false ∧ path ∈ argv ∧ "--file" ∈ argv)
    ∧ pa_atomName parsed = None
  | ModeGit => pa_atomName parsed = None ∧ pa_filePath parsed = None ∧ "--git" ∈ argv
  end
  ∧ (∃ directory, directory ∈ argv
                  ∧ directory ≠ EmptyString
                  ∧ String.prefix "--" directory = false
                  ∧ pa_targetDir parsed = pathResolve directory)
  ∧ existsSync (pa_targetDir parsed) = true
  ∧ (pa_writerMode parsed = Legacy → "--writer-mode" ∈ argv ∧ "legacy" ∈ argv).
Proof.
  unfold parseArgs. destruct (parseLoop argv initialArgs) as [error|st] eqn:Hloop; [done |].
  assert (argsInvariant argv st) as (Hatom & Hfile & Hdir & Hgit & Hmode).
  { eapply (parseLoop_invariant argv (length argv) argv initialArgs);
      [done | done | | exact Hloop].
    split_and!; simpl; done. }
  assert (∀ v, rejectedValue v = false → v ≠ EmptyString ∧ String.prefix "--" v = false)
    as Hvalue.
  { intros v Hv. unfold rejectedValue in Hv. apply orb_false_iff in Hv as [Hne Hp].
    split; [by apply String.eqb_neq | done]. }
  destruct (negb (truthy (a_targetDir st))) eqn:Htarget; [done |].
  apply negb_false_iff in Htarget.
  destruct (a_targetDir st) as [directory|] eqn:Hdirectory; [| done].
  apply truthy_nonempty in Htarget. destruct (Hdir directory eq_refl) as [Hprefix Hin].
  case_bool_decide as Hzero; [done |]. case_bool_decide as Hmany; [done |].
  destruct (negb (existsSync _)) eqn:Hexists; [done |]. apply negb_false_iff in Hexists.
  intros [= <-]. simpl.
  split_and!; [| by exists directory | done | done].
  destruct (a_atomName st) as [name|] eqn:Hname;
    destruct (a_filePath st) as [path|] eqn:Hpath;
    destruct (a_gitMode st) eqn:Hgitmode; simpl in Hzero, Hmany; try lia.
  - destruct (Hatom name eq_refl) as (Hv & ? & ?). destruct (Hvalue name Hv).
    split; [by exists name | done].
  - destruct (Hfile path eq_refl) as (Hv & ? & ?). destruct (Hvalue path Hv).
    split; [by exists path | done].
  - split_and!; [done | done | by apply Hgit].
Qed.

(** ** The pipeline, end to end *)

Lemma dependsWithin_edge graph atomName hops selector :
  dependsWithin graph atomName hops selector →
  ∃ name, selector ∈ dependentsOf graph name.
Proof. intros [selector' Hin|hops' via selector' _ Hin]; eauto. Qed.

(** X30.  In the graph the pipeline builds (collector, resolver, graph
    builder), every entry of a transitive list is a definition of the
    extraction: its [via] is the name of a recorded definition and its
    [viaDefinition] is that of a recorded definition of that name, never
    the placeholder the engine falls back to for an unknown name. *)
Theorem pipeline_transitive_entries_are_definitions
    (readFile : string → option string) (parseSync : string → string → option json)
    (resolveModulePath : string → string → option string)
    files extraction fuel :
  maxChainDepth + 1 ≤ fuel →
  ∃ resolved,
    resolveUsages readFile parseSync resolveModulePath fuel files extraction
                  (collectUsages readFile parseSync files extraction) = Done resolved
    ∧ ∀ fuel' atomName options result,
        analyzeAtomImpact fuel' (buildDependencyGraph extraction resolved) atomName options
        = Done (Some result) →
        Forall (λ t, ∃ d, d ∈ recoilDefinitions extraction
                          ∧ def_name d = t_via t
                          ∧ t_viaDefinition t
                            = {| via_file := def_file d; via_line := def_line d;
                                 via_kind := def_kind d |})
               (transitive result).
Proof.
  intros Hfuel.
  destruct (resolveUsages_returns readFile parseSync resolveModulePath fuel files
              extraction (collectUsages readFile parseSync files extraction) Hfuel)
    as [resolved Hresolve].
  exists resolved. split; [done |].
  intros fuel' atomName options result Himpact. apply Forall_forall. intros t Ht.
  set (graph := buildDependencyGraph extraction resolved) in *.
  unfold analyzeAtomImpact in Himpact.
  destruct (definitions graph !! atomName) as [definition|]; [| done].
  destruct (bfsLoop fuel' graph (seedQueue graph atomName) ∅ []) as [trans|] eqn:Hloop;
    [| done].
  simpl in Himpact. injection Himpact as <-. simpl in Ht.
  assert (Forall (λ t, dependsWithin graph atomName (t_depth t) (t_via t)
                       ∧ t_via t = t_via t ∧ t_depth t = t_depth t
                       ∧ t = transitiveEntry graph (t_via t) (t_depth t)) trans) as Hsound.
  { apply (bfsLoop_sound graph atomName fuel' _ _ _ _ Hloop); [| constructor].
    unfold seedQueue. apply Forall_forall. intros q Hin.
    apply list_elem_of_fmap in Hin as (selector & -> & Hsel). by constructor. }
  rewrite Forall_forall in Hsound. destruct (Hsound t Ht) as (Hpath & _ & _ & Hentry).
  apply dependsWithin_edge in Hpath as [name Hedge].
  assert (∃ u, u ∈ resolved ∧ dependsThrough name (t_via t) u) as (u & Hu & Hthrough).
  { destruct (partitionUsage_dependents resolved name ∅ ∅) as [_ Hin];
      [rewrite lookup_empty; constructor |].
    unfold dependentsOf, graph, buildDependencyGraph in Hedge.
    destruct (foldl partitionUsage (∅, ∅) resolved) as [dependents components].
    simpl in Hedge, Hin. apply Hin in Hedge as [Hnil|Hfound]; [| done].
    rewrite lookup_empty in Hnil. by apply elem_of_nil in Hnil. }
  destruct Hthrough as (_ & Hhook & Henclosing & _).
  assert (ru_usage u ∈ collectUsages readFile parseSync files extraction) as Hcollected.
  { unfold resolveUsages in Hresolve.
    apply resolveAll_sound in Hresolve as (ext & -> & Hsub & _).
    eapply elem_of_sublist; [| exact Hsub]. apply list_elem_of_fmap. eauto. }
  assert (∃ d, d ∈ recoilDefinitions extraction ∧ def_name d = t_via t) as (d & Hd & Hname).
  { unfold collectUsages in Hcollected.
    destruct (collectFromSelectorBodies_extends readFile extraction
                (foldl (collectFileUsages readFile parseSync) [] files))
      as (perDefinition & Heq & Hbody).
    rewrite Heq in Hcollected. apply elem_of_app in Hcollected as [Hin|Hin].
    - pose proof (hookPass_shaped readFile parseSync files) as Hshape.
      rewrite Forall_forall in Hshape. destruct (Hshape _ Hin) as [Hnone _]. congruence.
    - apply list_elem_of_In, in_concat in Hin as (emitted & Hemitted & Hin).
      apply list_elem_of_In in Hemitted. apply list_elem_of_In in Hin.
      apply list_elem_of_lookup in Hemitted as [i Hi].
      destruct (Forall2_lookup_r _ _ _ i emitted Hbody Hi) as (def & Hdef & Hall).
      rewrite Forall_forall in Hall. destruct (Hall _ Hin) as (_ & _ & Hown & _).
      exists def. split; [by eapply list_elem_of_lookup_2 | congruence]. }
  assert (∃ d', definitions graph !! t_via t = Some d'
                ∧ d' ∈ recoilDefinitions extraction ∧ def_name d' = t_via t)
    as (d' & Hlookup & Hd' & Hname').
  { unfold graph. rewrite buildDependencyGraph_definitions, indexDefinitions_last.
    destruct (last _) as [d'|] eqn:Hlast.
    - exists d'. split; [done |]. apply last_Some in Hlast as [l' Hl'].
      assert (d' ∈ filter (λ d, def_name d = t_via t) (recoilDefinitions extraction))
        as Hin by (rewrite Hl'; apply elem_of_app; right; by left).
      by apply list_elem_of_filter in Hin as [? ?].
    - apply last_None in Hlast.
      assert (d ∈ filter (λ d, def_name d = t_via t) (recoilDefinitions extraction))
        as Hin by (by apply list_elem_of_filter).
      rewrite Hlast in Hin. by apply elem_of_nil in Hin. }
  exists d'. split_and!; [done | done |].
  rewrite Hentry. unfold transitiveEntry. simpl. by rewrite Hlookup.
Qed.

(** ** Witnesses of the further properties *)

Lemma transitive_sorted_by_depth_witness :
  ∃ result,
    analyzeAtomImpact 36 diamondGraph "a" None = Done (Some result)
    ∧ StronglySorted le (map t_depth (transitive result)).
Proof.
  apply (transitive_sorted_by_depth 36 diamondGraph "a"
           (exampleDefinition "a" KAtom "/test/atoms.ts" 1) None).
  - vm_compute; reflexivity.
  - vm_compute; lia.
Defined.

Lemma transitive_complete_within_cap_witness :
  ∃ result,
    analyzeAtomImpact 36 diamondGraph "a" None = Done (Some result)
    ∧ ∀ hops selector,
        dependsWithin diamondGraph "a" hops selector →
        hops ≤ maxDepth →
        ∃ t, t ∈ transitive result ∧ t_via t = selector ∧ t_depth t ≤ hops.
Proof.
  apply (transitive_complete_within_cap 36 diamondGraph "a"
           (exampleDefinition "a" KAtom "/test/atoms.ts" 1) None).
  - vm_compute; reflexivity.
  - vm_compute; lia.
Defined.

Lemma transitive_depth_is_shortest_chain_witness :
  ∃ result,
    analyzeAtomImpact 6 chainGraph "base" None = Done (Some result)
    ∧ ∀ t, t ∈ transitive result →
           dependsWithin chainGraph "base" (t_depth t) (t_via t)
           ∧ (∀ hops, dependsWithin chainGraph "base" hops (t_via t) → t_depth t ≤ hops)
           ∧ t = transitiveEntry chainGraph (t_via t) (t_depth t).
Proof.
  apply (transitive_depth_is_shortest_chain 6 chainGraph "base"
           (exampleDefinition "base" KAtom "/test/atoms.ts" 1) None).
  - vm_compute; reflexivity.
  - vm_compute; lia.
Defined.

Lemma direct_lists_partition_usages_witness :
  ∃ result,
    analyzeAtomImpact 0 coverageGraph "fooState" None = Done (Some result)
    ∧ readers (direct result) ++ setters (direct result) ++ initializers (direct result)
      ≡ₚ default [] (componentUsages coverageGraph !! "fooState").
Proof.
  apply (direct_lists_partition_usages 0 coverageGraph "fooState" fooDefinition).
  - vm_compute; reflexivity.
  - vm_compute; lia.
Defined.

Lemma summary_counts_consistent_witness :
  ∃ result,
    analyzeAtomImpact 0 coverageGraph "fooState" (Some coverageExample)
    = Done (Some result)
    ∧ totalComponents (summary result) ≤ totalFiles (summary result).
Proof.
  destruct (summary_counts_consistent 0 coverageGraph "fooState" fooDefinition
              (Some coverageExample)) as (result & Hrun & _ & Hle & _).
  - vm_compute; reflexivity.
  - vm_compute; lia.
  - exists result. split; [exact Hrun | exact Hle].
Defined.

Lemma coverage_writers_section_witness :
  ∃ result,
    analyzeAtomImpact 0 coverageGraph "fooState" (Some coverageExample)
    = Done (Some result)
    ∧ length (setters (direct result)) = 2.
Proof.
  destruct (coverage_writers_section (λ filePath targetDir, filePath) 0 coverageGraph
              "fooState" fooDefinition coverageExample "/test")
    as (result & Hrun & _ & Hlength & _).
  - vm_compute; reflexivity.
  - vm_compute; lia.
  - exists result. split; [exact Hrun |]. rewrite Hlength. vm_compute; reflexivity.
Defined.

Lemma analyzeGitImpact_concatenates_files_witness :
  ∃ perFile,
    Forall2 (λ filePath results,
               analyzeFileImpact (λ path, path) 1
                 (buildDependencyGraph fileExtraction fileResolvedUsages)
                 filePath fileExtraction None = Done results)
            ["/test/atoms.ts"; "/test/selectors.ts"] perFile
    ∧ analyzeGitImpact (λ path, path) 1
        (buildDependencyGraph fileExtraction fileResolvedUsages)
        ["/test/atoms.ts"; "/test/selectors.ts"] fileExtraction None
      = Done (concat perFile).
Proof.
  apply (analyzeGitImpact_concatenates_files (λ path, path) 1 fileExtraction
           fileResolvedUsages ["/test/atoms.ts"; "/test/selectors.ts"] None).
  vm_compute. repeat constructor.
Defined.

Lemma resolveUsages_sound_witness :
  ∃ resolved,
    resolveUsages componentReadFile componentParser componentModules 6 componentFiles
      componentExtraction
      (collectUsages componentReadFile componentParser componentFiles componentExtraction)
    = Done resolved
    ∧ sublist (map ru_usage resolved)
              (collectUsages componentReadFile componentParser componentFiles
                             componentExtraction)
    ∧ Forall (λ r, namesDefinition componentExtraction r ∧ ru_writerKind r = None)
             resolved.
Proof.
  apply (resolveUsages_sound componentReadFile componentParser componentModules 6
           componentFiles componentExtraction).
  vm_compute; lia.
Defined.

Lemma resolveUsages_local_definitions_witness :
  resolveUsages componentReadFile componentParser componentModules 0 componentFiles
    componentExtraction [plainUsage "fooState" Reader "useRecoilValue" "/test/atoms.ts" 3]
  = Done [withResolution (plainUsage "fooState" Reader "useRecoilValue" "/test/atoms.ts" 3)
                         "fooState" "/test/atoms.ts"].
Proof.
  apply (resolveUsages_local_definitions componentReadFile componentParser
           componentModules 0 componentFiles componentExtraction
           [plainUsage "fooState" Reader "useRecoilValue" "/test/atoms.ts" 3]).
  apply Forall_cons_2; [| apply Forall_nil_2].
  eexists. split_and!; [apply list_elem_of_here | reflexivity | reflexivity].
Defined.

Lemma resolveUsage_through_import_witness :
  resolveUsage 1 renamedImportGraph (buildDefinitionLookup componentExtraction) []
               (plainUsage "foo" Setter "useSetRecoilState" "/test/component.tsx" 5)
  = Done [withResolution
            (plainUsage "foo" Setter "useSetRecoilState" "/test/component.tsx" 5)
            "fooState" "/test/atoms.ts"].
Proof.
  apply (resolveUsage_through_import renamedImportGraph componentExtraction 1 []
           (plainUsage "foo" Setter "useSetRecoilState" "/test/component.tsx" 5)
           renamedImportInfo
           {| i_localName := "foo"; i_exportedName := "fooState";
              i_sourceFile := "/test/atoms.ts" |}).
  - vm_compute; reflexivity.
  - vm_compute; reflexivity.
  - vm_compute; reflexivity.
  - eexists. split_and!; [apply list_elem_of_here | reflexivity | reflexivity].
  - lia.
Defined.

Lemma callback_without_destructuring_is_ignored_witness :
  hookCallUsages "/test/resetter.tsx" callbackSource "useRecoilCallback" callbackCall [] []
  = [].
Proof.
  apply (callback_without_destructuring_is_ignored "/test/resetter.tsx" callbackSource
           callbackCall [] [] (identifier 134 "api") []).
  - vm_compute; reflexivity.
  - vm_compute; reflexivity.
Defined.

Ltac no_recoil_import :=
  unfold importsNothingFromRecoil;
  match goal with
  | |- Forall ?P (events ?program) =>
    let evs := eval vm_compute in (events program) in
    change (Forall P evs)
  end;
  repeat (apply Forall_cons_2;
          [cbv beta iota;
           first [exact I
                 | intros Himport; vm_compute in Himport; discriminate Himport
                 | intros _ Hsource; vm_compute in Hsource; discriminate Hsource] |]);
  apply Forall_nil_2.

Lemma no_recoil_import_no_hook_usage_witness :
  ∃ emitted,
    collectFromFile initializerParser "/test/initializer.ts" initializerSource []
    = [] ++ emitted
    ∧ Forall (λ u, u_hook u = "set(initializer)" ∧ u_type u = Initializer) emitted.
Proof.
  apply (no_recoil_import_no_hook_usage initializerParser "/test/initializer.ts"
           initializerSource initializerAst []).
  - vm_compute; reflexivity.
  - no_recoil_import.
Defined.

Lemma buildSetterBindings_returns_witness :
  ∃ bindings resolvedFactoryKeys,
    buildSetterBindings wrapperReadFile wrapperParser wrapperModules 6 wrapperFiles
                        emptyExtraction
    = Done (bindings, resolvedFactoryKeys)
    ∧ map_Forall (bindingShaped wrapperFiles) bindings
    ∧ ∀ key, key ∈ resolvedFactoryKeys →
             wrapperDefinitionKey wrapperReadFile wrapperParser wrapperModules 6
                                  wrapperFiles key.
Proof.
  apply (buildSetterBindings_returns wrapperReadFile wrapperParser wrapperModules 6
           wrapperFiles emptyExtraction).
  vm_compute; lia.
Defined.

Lemma no_recoil_import_no_definition_witness :
  recoilDefinitions
    (extractFromFile initializerParser "/test/initializer.ts" initializerSource
                     (componentExtraction, noJotai)).1
  = recoilDefinitions componentExtraction.
Proof.
  apply (no_recoil_import_no_definition initializerParser "/test/initializer.ts"
           initializerSource initializerAst (componentExtraction, noJotai)).
  - vm_compute; reflexivity.
  - no_recoil_import.
Defined.

Lemma parseArgs_success_witness :
  (∃ name, Some "fooState" = Some name ∧ name ≠ EmptyString
           ∧ String.prefix "--" name = false
           ∧ name ∈ ["/repo"; "--atom"; "fooState"; "--json"]
           ∧ "--atom" ∈ ["/repo"; "--atom"; "fooState"; "--json"])
  ∧ (None : option string) = None.
Proof.
  exact (proj1 (parseArgs_success (λ path, path) (λ path, true)
                  ["/repo"; "--atom"; "fooState"; "--json"]
                  {| pa_targetDir := "/repo"; pa_mode := ModeAtom;
                     pa_atomName := Some "fooState"; pa_filePath := None;
                     pa_json := true; pa_verbose := false;
                     pa_writerMode := CoverageFirst |}
                  eq_refl)).
Defined.

Lemma pipeline_transitive_entries_are_definitions_witness :
  ∃ resolved,
    resolveUsages selectorReadFile selectorParser componentModules 6 selectorFiles
      selectorExtraction
      (collectUsages selectorReadFile selectorParser selectorFiles selectorExtraction)
    = Done resolved
    ∧ ∀ fuel' atomName options result,
        analyzeAtomImpact fuel' (buildDependencyGraph selectorExtraction resolved)
                          atomName options = Done (Some result) →
        Forall (λ t, ∃ d, d ∈ recoilDefinitions selectorExtraction
                          ∧ def_name d = t_via t
                          ∧ t_viaDefinition t
                            = {| via_file := def_file d; via_line := def_line d;
                                 via_kind := def_kind d |})
               (transitive result).
Proof.
  apply (pipeline_transitive_entries_are_definitions selectorReadFile selectorParser
           componentModules selectorFiles selectorExtraction 6).
  vm_compute; lia.
Defined.
